(** * Checkers rules engine: a shallow embedding of [logic/models],
    [logic/gameLogic], the store of the view ([UI/state]) and the handlers
    of the application ([events]), and the properties of the path finder,
    of the turn controller and of the view.

    Tile objects are created once by the [Board] constructor, one per
    (row, column) of the 8x8 grid, and never replaced; only their [piece]
    field is mutated.  A reference to a Tile object is therefore modelled by
    its immutable coordinates ([Tile]), and the mutable [piece] fields of all
    tiles by a store from tile references to optional pieces ([Board]).
    Reference equality [===] on tiles is equality of coordinates. *)

From Stdlib Require Import ZArith List Bool Lia.
Import ListNotations.
Open Scope Z_scope.

Set Implicit Arguments.

(** ** types.ts *)

Inductive Player : Type := blue | red.
Inductive PieceType : Type := queen | pawn.
Inductive GameStatus : Type := active | inactive.

(** ["blue pawn" | "red pawn" | "blue queen" | "red queen" | "none"] *)
Inductive TileOwner : Type :=
  | blue_pawn | red_pawn | blue_queen | red_queen | none.

Record TileInstruction : Type := mkTileInstruction
  { colToSet : Z; rowToSet : Z; newOwner : TileOwner }.

Record Instruction : Type := mkInstruction
  { tileInstructions : list TileInstruction;
    playing : Player;
    instrWinner : option Player }.

Definition Player_eqb (p q : Player) : bool :=
  match p, q with
  | blue, blue | red, red => true
  | _, _ => false
  end.

Definition PieceType_eqb (p q : PieceType) : bool :=
  match p, q with
  | queen, queen | pawn, pawn => true
  | _, _ => false
  end.

(** ** models: Piece, Tile, Board *)

Record Piece : Type := mkPiece { getOwner : Player; getType : PieceType }.

Record Tile : Type := mkTile { getRow : Z; getColumn : Z }.

Definition Tile_eqb (t u : Tile) : bool :=
  (getRow t =? getRow u) && (getColumn t =? getColumn u).

(** The [piece] field of every tile. *)
Definition Board : Type := Tile -> option Piece.

Definition getPiece (b : Board) (tile : Tile) : option Piece := b tile.

Definition setPiece (tile : Tile) (piece : option Piece) (b : Board) : Board :=
  fun t => if Tile_eqb t tile then piece else b t.

(** [Array.from({ length: 64 }, (_, index) => ...)]: the tile at [index] has
    row [floor(index / 8)] and column [index % 8]. *)
Definition indices : list Z := map Z.of_nat (seq 0 64).

Definition tileOfIndex (index : Z) : Tile := mkTile (index / 8) (index mod 8).

Definition getTiles : list Tile := Eval cbv in map tileOfIndex indices.

(** The piece the [Board] constructor puts on the tile at [index]. *)
Definition initialPiece (index : Z) : option Piece :=
  let column := index mod 8 in
  let row := index / 8 in
  if (row + column) mod 2 =? 0 then
    if index <? 24 then
      Some (if index =? 0 then mkPiece blue queen else mkPiece blue pawn)
    else if 40 <? index then
      Some (if index =? 63 then mkPiece red queen else mkPiece red pawn)
    else None
  else None.

Definition newBoard : Board :=
  fold_left (fun b index => setPiece (tileOfIndex index) (initialPiece index) b)
            indices (fun _ => None).

(** [tiles.find(tile => tile.getRow() === row && tile.getColumn() === column)] *)
Definition getTile (row column : Z) : option Tile :=
  find (fun tile => (getRow tile =? row) && (getColumn tile =? column)) getTiles.

(** ** gameLogic: state *)

Record ValidDestination : Type := mkValidDestination
  { vdPath : list Tile;
    destination : option Tile;   (* [path.at(-1)] *)
    captures : list Tile }.

Record Move : Type := mkMove
  { from : option Tile;
    to : option Tile;
    possiblePaths : list (list Tile);
    validDestinations : list ValidDestination }.

Record GameState : Type := mkGameState
  { board : Board;
    status : GameStatus;
    winner : option Player;
    move : Move;
    activePlayer : Player }.

Definition emptyMove : Move := mkMove None None [] [].

Definition initialState : GameState :=
  mkGameState newBoard active None emptyMove blue.

Definition withBoard (b : Board) (s : GameState) : GameState :=
  mkGameState b (status s) (winner s) (move s) (activePlayer s).

Definition withMove (m : Move) (s : GameState) : GameState :=
  mkGameState (board s) (status s) (winner s) m (activePlayer s).

(** ** gameLogic: queries on the board *)

Definition isTileOcuppied (b : Board) (tile : Tile) : bool :=
  match getPiece b tile with Some _ => true | None => false end.

(** [tile.getPiece()?.getOwner() === player] *)
Definition tileBelongsToPlayer (b : Board) (tile : Tile) (player : Player) : bool :=
  match getPiece b tile with
  | Some piece => Player_eqb (getOwner piece) player
  | None => false
  end.

Definition isQueen (piece : Piece) : bool := PieceType_eqb (getType piece) queen.

Definition getQueen (b : Board) (player : Player) : option Tile :=
  find (fun tile =>
          match getPiece b tile with
          | Some piece =>
              Player_eqb (getOwner piece) player && PieceType_eqb (getType piece) queen
          | None => false
          end) getTiles.

Definition playerHasQueen (b : Board) (player : Player) : bool :=
  match getQueen b player with Some _ => true | None => false end.

(** [getTiles().filter((tile) => tile.getPiece()?.getOwner() === player)]:
    the player's tiles, in board order. *)
Definition tilesOf (b : Board) (player : Player) : list Tile :=
  filter (fun tile => tileBelongsToPlayer b tile player) getTiles.

Definition getIdlePieceTiles (b : Board) (player : Player) : list Tile :=
  let tiles := tilesOf b player in
  let furthestRow :=
    match player with
    | blue => fold_left (fun acc tile => if getRow tile <? acc then getRow tile else acc) tiles 7
    | red => fold_left (fun acc tile => if acc <? getRow tile then getRow tile else acc) tiles 0
    end in
  filter (fun tile => getRow tile =? furthestRow) tiles.

Definition isValidQueen (b : Board) (tile : Tile) (player : Player) : bool :=
  existsb (fun idle => Tile_eqb idle tile) (getIdlePieceTiles b player).

Definition winningRow (player : Player) : Z :=
  match player with blue => 7 | red => 0 end.

(** [this.getQueen(player)?.getRow() === winningRow] *)
Definition hasPlayerWon (b : Board) (player : Player) : bool :=
  match getQueen b player with
  | Some tile => getRow tile =? winningRow player
  | None => false
  end.

Definition rival (player : Player) : Player :=
  match player with blue => red | red => blue end.

Definition rivalHasPieces (b : Board) (player : Player) : bool :=
  existsb (fun tile => tileBelongsToPlayer b tile (rival player)) getTiles.

(** Directions are [[delta column, delta row]]. *)
Definition getDirections (piece : Piece) : list (Z * Z) :=
  if isQueen piece then [(1, 1); (1, -1); (-1, 1); (-1, -1)]
  else match getOwner piece with
       | blue => [(-1, 1); (1, 1)]
       | red => [(-1, -1); (1, -1)]
       end.

Definition filterDirection (sel : Z * Z -> Z) (capture : option Z)
    (directions : list (Z * Z)) : list (Z * Z) :=
  match capture with
  | Some c => filter (fun direction => sel direction =? c) directions
  | None => directions
  end.

Definition getAdjacentLandings (b : Board) (startingTile tile : Tile) (piece : Piece)
    (captureXDirection captureYDirection : option Z) : list Tile :=
  let row := getRow tile in
  let column := getColumn tile in
  let directions := getDirections piece in
  let directions := filterDirection fst captureXDirection directions in
  let directions := filterDirection snd captureYDirection directions in
  flat_map
    (fun direction =>
       match getTile (row + snd direction) (column + fst direction) with
       | Some destination =>
           (if negb (isTileOcuppied b destination) then [destination] else [])
           ++ (if Tile_eqb destination startingTile then [destination] else [])
       | None => []
       end)
    directions.

Definition getAdjacentEnemies (b : Board) (tile : Tile) (piece : Piece) : list Tile :=
  let row := getRow tile in
  let column := getColumn tile in
  flat_map
    (fun direction =>
       match getTile (row + snd direction) (column + fst direction) with
       | Some destination =>
           if isTileOcuppied b destination
              && negb (tileBelongsToPlayer b destination (getOwner piece))
           then [destination] else []
       | None => []
       end)
    (getDirections piece).

Definition isFirstMove (path : list Tile) : bool := (length path =? 1)%nat.

Definition isPotentialCapture (b : Board) (tile : Tile) (path : list Tile) : bool :=
  isTileOcuppied b tile && (1 <? length path)%nat.

Definition canLookForEnemies (b : Board) (tile startingTile : Tile) (path : list Tile) : bool :=
  (negb (isTileOcuppied b tile) && (2 <? length path)%nat)
  || (Tile_eqb tile startingTile && (length path =? 1)%nat).

Definition includes (path : list Tile) (tile : Tile) : bool :=
  existsb (fun t => Tile_eqb t tile) path.

(** [path.at(-k)] for [k >= 1]. *)
Definition atBack (path : list Tile) (k : nat) : option Tile :=
  nth_error (rev path) (k - 1).

(** [to - from] when both are defined. *)
Definition delta (fromC toC : option Z) : option Z :=
  match fromC, toC with
  | Some f, Some t => Some (t - f)
  | _, _ => None
  end.

(** The direction of the last step of [path], in one coordinate:
    [path.at(-1)?.sel() - path.at(-2)?.sel()]. *)
Definition lastStep (sel : Tile -> Z) (path : list Tile) : option Z :=
  delta (option_map sel (atBack path 2)) (option_map sel (atBack path 1)).

(** [list.forEach] over a step that may run out of fuel. *)
Fixpoint forEach {A S : Type} (l : list A) (f : A -> S -> option S) (s : S) : option S :=
  match l with
  | [] => Some s
  | x :: l' =>
      match f x s with
      | Some s' => forEach l' f s'
      | None => None
      end
  end.

(** The recursive path search.  The only state it writes is
    [move.possiblePaths], threaded here as [paths]; [None] means the fuel ran
    out (see [setPathsDFS_total]). *)
Fixpoint setPathsDFS (fuel : nat) (b : Board) (startingTile from : Tile) (piece : Piece)
    (path : list Tile) (paths : list (list Tile)) : option (list (list Tile)) :=
  match fuel with
  | O => None
  | S fuel' =>
      let path := path ++ [from] in
      (* Look for landings: first move *)
      match
        (if isFirstMove path then
           forEach (getAdjacentLandings b startingTile from piece None None)
                   (fun landing ps => setPathsDFS fuel' b startingTile landing piece path ps)
                   paths
         else Some paths)
      with
      | None => None
      | Some paths1 =>
          (* Look for landings: after enemy, same direction *)
          match
            (if isPotentialCapture b from path then
               let xDirection := lastStep getColumn path in
               let yDirection := lastStep getRow path in
               forEach (getAdjacentLandings b startingTile from piece xDirection yDirection)
                       (fun landing ps =>
                          if negb (includes path landing) then
                            setPathsDFS fuel' b startingTile landing piece path ps
                          else if Tile_eqb landing startingTile && (2 <? length path)%nat then
                            Some (ps ++ [path ++ [landing]])
                          else Some ps)
                       paths1
             else Some paths1)
          with
          | None => None
          | Some paths2 =>
              (* Look for enemies *)
              match
                (if canLookForEnemies b from startingTile path then
                   forEach (getAdjacentEnemies b from piece)
                           (fun enemy ps =>
                              if negb (includes path enemy) then
                                setPathsDFS fuel' b startingTile enemy piece path ps
                              else Some ps)
                           paths2
                 else Some paths2)
              with
              | None => None
              | Some paths3 =>
                  (* Add path *)
                  if negb (isTileOcuppied b from) then Some (paths3 ++ [path])
                  else Some paths3
              end
          end
      end
  end.

(** ** gameLogic: the move scratch state *)

Definition getCurrentMove (s : GameState) : Move := move s.

Definition resetMove (s : GameState) : GameState := withMove emptyMove s.

Definition setMoveFrom (tile : Tile) (s : GameState) : GameState :=
  let m := getCurrentMove s in
  withMove (mkMove (Some tile) (to m) (possiblePaths m) (validDestinations m)) s.

Definition setTo (tile : Tile) (s : GameState) : GameState :=
  let m := getCurrentMove s in
  withMove (mkMove (from m) (Some tile) (possiblePaths m) (validDestinations m)) s.

Definition setPossiblePaths (paths : list (list Tile)) (s : GameState) : GameState :=
  let m := getCurrentMove s in
  withMove (mkMove (from m) (to m) paths (validDestinations m)) s.

Definition pushValidDestinations (vds : list ValidDestination) (s : GameState) : GameState :=
  let m := getCurrentMove s in
  withMove (mkMove (from m) (to m) (possiblePaths m) (validDestinations m ++ vds)) s.

Definition isFromSet (s : GameState) : bool :=
  match from (getCurrentMove s) with Some _ => true | None => false end.

Definition isToSet (s : GameState) : bool :=
  match to (getCurrentMove s) with Some _ => true | None => false end.

(** A search never visits a tile twice, so one unit of fuel per tile of the
    board is enough ([setPathsDFS_total]). *)
Definition boardFuel : nat := length getTiles.

(** [this.setPathsDFS(startingTile, from, piece)] on the game state: the
    search appends to [move.possiblePaths]. *)
Definition runPathsDFS (startingTile from : Tile) (piece : Piece) (s : GameState)
    : GameState :=
  match setPathsDFS boardFuel (board s) startingTile from piece []
                    (possiblePaths (getCurrentMove s)) with
  | Some paths => setPossiblePaths paths s
  | None => s
  end.

Definition getCapturesForPath (b : Board) (path : list Tile) (player : Player) : list Tile :=
  filter (fun tile => isTileOcuppied b tile && negb (tileBelongsToPlayer b tile player)) path.

Definition makeValidDestination (b : Board) (player : Player) (path : list Tile)
    : ValidDestination :=
  mkValidDestination path (atBack path 1) (getCapturesForPath b path player).

(** The two concrete games. *)
Inductive Variant : Type := BaseGame | BonusGame.

Definition validPaths (v : Variant) (paths : list (list Tile)) : list (list Tile) :=
  match v with
  | BaseGame =>
      filter (fun path => (length path =? 3)%nat || (length path =? 2)%nat) paths
  | BonusGame =>
      if existsb (fun path => (2 <? length path)%nat) paths
      then filter (fun path => (2 <? length path)%nat) paths
      else paths
  end.

Definition setValidDestinations (v : Variant) (player : Player) (s : GameState) : GameState :=
  let paths := validPaths v (possiblePaths (getCurrentMove s)) in
  pushValidDestinations (map (makeValidDestination (board s) player) paths) s.

(** [tile.getPiece()!]: every caller has checked that the tile belongs to the
    player; without a piece nothing is searched. *)
Definition setFrom (v : Variant) (tile : Tile) (player : Player) (s : GameState) : GameState :=
  let s := setMoveFrom tile s in
  match getPiece (board s) tile with
  | Some piece => setValidDestinations v player (runPathsDFS tile tile piece s)
  | None => s
  end.

(** One round of the simulation loop of [BonusGame.isFromValid]: set [from],
    search, reduce (the three steps of [setFrom]), record, reset. *)
Definition simulateFrom (player : Player)
    (acc : GameState * list Tile * list Tile) (from : Tile)
    : GameState * list Tile * list Tile :=
  let '(s, fromsWithCaptures, fromsWithDestinations) := acc in
  let s := setFrom BonusGame from player s in
  let vds := validDestinations (getCurrentMove s) in
  let fromsWithCaptures :=
    if existsb (fun vd => (0 <? length (captures vd))%nat) vds
    then fromsWithCaptures ++ [from] else fromsWithCaptures in
  let fromsWithDestinations :=
    if (0 <? length vds)%nat
    then fromsWithDestinations ++ [from] else fromsWithDestinations in
  (resetMove s, fromsWithCaptures, fromsWithDestinations).

Definition isFromValid (v : Variant) (tile : Tile) (player : Player) (s : GameState)
    : bool * GameState :=
  match v with
  | BaseGame =>
      if tileBelongsToPlayer (board s) tile player then
        let s := resetMove s in
        match getPiece (board s) tile with
        | None => (false, s)
        | Some piece =>
            let s := setMoveFrom tile s in
            let s := runPathsDFS tile tile piece s in
            let s := setValidDestinations BaseGame player s in
            let isValid := negb (length (validDestinations (getCurrentMove s)) =? 0)%nat in
            (isValid, resetMove s)
        end
      else (false, s)
  | BonusGame =>
      if tileBelongsToPlayer (board s) tile player then
        let s := resetMove s in
        let allFroms := tilesOf (board s) player in
        let '(s, fromsWithCaptures, fromsWithDestinations) :=
          fold_left (simulateFrom player) allFroms (s, [], []) in
        if (length fromsWithCaptures =? 0)%nat
        then (includes fromsWithDestinations tile, s)
        else (includes fromsWithCaptures tile, s)
      else (false, s)
  end.

Definition isToValid (s : GameState) (tile : Tile) : bool :=
  existsb (fun vd => match destination vd with
                     | Some d => Tile_eqb d tile
                     | None => false
                     end)
          (validDestinations (getCurrentMove s)).

Definition getCapturesForDestination (s : GameState) (tile : Tile) : list Tile :=
  match find (fun vd => match destination vd with
                        | Some d => Tile_eqb d tile
                        | None => false
                        end)
             (validDestinations (getCurrentMove s)) with
  | Some vd => captures vd
  | None => []
  end.

(** ** gameLogic: updates of the board and of the turn *)

Definition setNewQueen (tile : Tile) (player : Player) (s : GameState) : GameState :=
  withBoard (setPiece tile (Some (mkPiece player queen)) (board s)) s.

Definition setWinner (player : Player) (s : GameState) : GameState :=
  mkGameState (board s) inactive (Some player) (move s) (activePlayer s).

Definition getWinner (s : GameState) : option Player := winner s.

Definition isGameWon (s : GameState) : bool :=
  match getWinner s with Some _ => true | None => false end.

Definition capture (caps : list Tile) (b : Board) : Board :=
  fold_left (fun b tile => setPiece tile None b) caps b.

Definition switchPlayer (s : GameState) : GameState :=
  mkGameState (board s) (status s) (winner s) (move s) (rival (activePlayer s)).

Definition ownerString (piece : Piece) : TileOwner :=
  match getOwner piece, getType piece with
  | blue, pawn => blue_pawn
  | blue, queen => blue_queen
  | red, pawn => red_pawn
  | red, queen => red_queen
  end.

Definition getTileOwnerString (b : Board) (tile : Tile) : TileOwner :=
  match getPiece b tile with
  | Some piece => ownerString piece
  | None => none
  end.

Definition getCaptureInstructions (caps : list Tile) : list TileInstruction :=
  map (fun c => mkTileInstruction (getColumn c) (getRow c) none) caps.

(** ** gameLogic: one click *)

(** [playGame(row, column, owner)]; the [owner] argument is never read and is
    left out.  The result is the returned instruction ([None] for
    [undefined]) and the game state after the call. *)
Definition playGame (v : Variant) (row column : Z) (s : GameState)
    : option Instruction * GameState :=
  let player := activePlayer s in
  match getTile row column with
  | None => (None, s)
  | Some clickedTile =>
      if isGameWon s then (None, s)
      else if negb (playerHasQueen (board s) player) then
        (* a new queen needs to be selected *)
        if isValidQueen (board s) clickedTile player then
          let s := setNewQueen clickedTile player s in
          let s := if hasPlayerWon (board s) player
                   then setWinner player s else s in
          (Some (mkInstruction
                   [mkTileInstruction column row (ownerString (mkPiece player queen))]
                   player (getWinner s)), s)
        else (None, s)
      else if negb (isFromSet s) then
        (* set from and calculate paths and valid moves *)
        let '(valid, s) := isFromValid v clickedTile player s in
        if valid then
          let s := setFrom v clickedTile player s in
          (Some (mkInstruction [mkTileInstruction column row none]
                               player (getWinner s)), s)
        else (None, s)
      else if isFromSet s && negb (isToSet s) then
        match from (getCurrentMove s) with
        | None => (None, s)
        | Some fromTile =>
            let fromOwner := getTileOwnerString (board s) fromTile in
            if Tile_eqb fromTile clickedTile then
              (* the same tile: place the piece back *)
              let instruction :=
                mkInstruction [mkTileInstruction column row fromOwner]
                              player (getWinner s) in
              (Some instruction, resetMove s)
            else if isToValid s clickedTile then
              let s := setTo clickedTile s in
              let caps := getCapturesForDestination s clickedTile in
              let captureInstructions := getCaptureInstructions caps in
              let b := capture caps (board s) in
              let b := setPiece clickedTile (getPiece b fromTile) b in
              let b := setPiece fromTile None b in
              let s := withBoard b s in
              let s := if hasPlayerWon (board s) player then setWinner player s
                       else if rivalHasPieces (board s) player then switchPlayer s
                       else s in
              let instruction :=
                mkInstruction (mkTileInstruction column row fromOwner :: captureInstructions)
                              (activePlayer s) (getWinner s) in
              (Some instruction, resetMove s)
            else (None, s)
        end
      else (None, s)
  end.

(** [restartGame()]: a fresh game state and one instruction per tile. *)
Definition restartInstruction (index : Z) : TileInstruction :=
  let tile := tileOfIndex index in
  let column := getColumn tile in
  let row := getRow tile in
  if ((row + column) mod 2 =? 0) && (index <? 24) then
    mkTileInstruction column row (if index =? 0 then blue_queen else blue_pawn)
  else if ((row + column) mod 2 =? 0) && (40 <? index) then
    mkTileInstruction column row (if index =? 63 then red_queen else red_pawn)
  else mkTileInstruction column row none.

Definition restartGame (s : GameState) : Instruction * GameState :=
  (mkInstruction (map restartInstruction indices) blue None, initialState).

(** Game states the program can be in: the initial one and those produced by
    clicks and restarts. *)
Inductive reachable (v : Variant) : GameState -> Prop :=
  | reach_init : reachable v initialState
  | reach_click s row column :
      reachable v s -> reachable v (snd (playGame v row column s))
  | reach_restart s : reachable v s -> reachable v (snd (restartGame s)).

(** Playing a list of clicks [(row, column)]. *)
Definition clicks (v : Variant) (l : list (Z * Z)) (s : GameState) : GameState :=
  fold_left (fun s rc => snd (playGame v (fst rc) (snd rc) s)) l s.

Unset Implicit Arguments.

(** ** UI/state.ts: the state of the view *)

(** A JavaScript array is modelled by the map from its indices to its
    entries: reading an index that has no entry gives [undefined] ([None]),
    and an assignment to an index creates or replaces the entry. *)
Definition arrayOf {A : Type} (l : list A) : Z -> option A :=
  fun i => if i <? 0 then None else nth_error l (Z.to_nat i).

Module UI.

Definition Column : Type := Z -> option TileOwner.
Definition Grid : Type := Z -> option Column.

Record GameState : Type := mkGameState
  { board : Grid; turn : option Player; winner : option Player }.

(** [board[column][row] = owner]; [None] is the TypeError raised when
    [board[column]] is undefined. *)
Definition assign (board : Grid) (column row : Z) (owner : TileOwner) : option Grid :=
  match board column with
  | Some entries =>
      Some (fun c => if c =? column
                     then Some (fun r => if r =? row then Some owner else entries r)
                     else board c)
  | None => None
  end.

Definition withPieces : list TileOwner :=
  map (fun i => if (i / 8 + i mod 8) mod 2 =? 0
                then if i <? 24 then blue_pawn
                     else if 40 <? i then red_pawn
                     else none
                else none)
      indices.

(** [rows.map((_, i) => cols.map((_, j) => withPieces[j * rows.length + i]))]
    and the two assignments of the queens. *)
Definition initializeBoard : option Grid :=
  let rows := map Z.of_nat (seq 0 8) in
  let cols := map Z.of_nat (seq 0 8) in
  let board : Grid :=
    arrayOf (map (fun i : Z =>
                    (fun r => match arrayOf cols r with
                              | Some j => arrayOf withPieces (j * Z.of_nat (length rows) + i)
                              | None => None
                              end) : Column)
                 rows) in
  match assign board 0 0 blue_queen with
  | Some board => assign board 7 7 red_queen
  | None => None
  end.

Definition initialize : option GameState :=
  match initializeBoard with
  | Some board => Some (mkGameState board None None)
  | None => None
  end.

(** [setTile]: the board array of the store is updated in place; only the
    current state of the store is observed, so the update is modelled on
    that state.  The subscribers notified by [Store.set] are outside the
    model. *)
Definition setTile (row column : Z) (owner : TileOwner) (s : GameState) : option GameState :=
  match assign (board s) column row owner with
  | Some board => Some (mkGameState board (turn s) (winner s))
  | None => None
  end.

Definition setTurn (player : option Player) (s : GameState) : GameState :=
  mkGameState (board s) player (winner s).

Definition setWinner (player : option Player) (s : GameState) : GameState :=
  mkGameState (board s) (turn s) player.

End UI.

(** ** events.ts: the handlers of the application *)

(** The module-level [game] object and the store of the view.  The module
    instantiates [BonusGame]; the variant is a parameter of the handlers. *)
Record App : Type := mkApp { game : GameState; view : UI.GameState }.

(** [tileInstructions.forEach(... setTile(rowToSet, colToSet, newOwner))] *)
Definition applyTileInstructions (l : list TileInstruction) (u : UI.GameState)
    : option UI.GameState :=
  forEach l (fun i u => UI.setTile (rowToSet i) (colToSet i) (newOwner i) u) u.

(** The state after the module is loaded: [setTurn("blue")]. *)
Definition startApp : option App :=
  match UI.initialize with
  | Some u => Some (mkApp initialState (UI.setTurn (Some blue) u))
  | None => None
  end.

(** [onTileClick(row, column, owner)]; [None] when an exception is raised.
    The console output of [printBoard] is left out. *)
Definition onTileClick (v : Variant) (row column : Z) (a : App) : option App :=
  let '(instruction, g) := playGame v row column (game a) in
  match instruction with
  | Some i =>
      match applyTileInstructions (tileInstructions i) (view a) with
      | Some u =>
          let u := UI.setTurn (Some (playing i)) u in
          let u := match instrWinner i with
                   | Some _ => UI.setWinner (Some (playing i)) u
                   | None => u
                   end in
          Some (mkApp g u)
      | None => None
      end
  | None => Some (mkApp g (view a))
  end.

Definition onRestart (a : App) : option App :=
  let '(i, g) := restartGame (game a) in
  let u := UI.setWinner None (view a) in
  let u := UI.setTurn (Some blue) u in
  match applyTileInstructions (tileInstructions i) u with
  | Some u => Some (mkApp g u)
  | None => None
  end.

(** The states of the application: after loading, and after every click and
    restart that raises no exception. *)
Inductive appReachable (v : Variant) : App -> Prop :=
  | app_start a : startApp = Some a -> appReachable v a
  | app_click a row column a' :
      appReachable v a -> onTileClick v row column a = Some a' -> appReachable v a'
  | app_restart a a' :
      appReachable v a -> onRestart a = Some a' -> appReachable v a'.

Set Implicit Arguments.

(** * Vocabulary of the statements *)

(** A tile reference denotes a tile of the board iff its coordinates are in
    the 8x8 grid. *)
Definition onBoard (t : Tile) : Prop :=
  0 <= getRow t < 8 /\ 0 <= getColumn t < 8.

(** [extends R ps out]: [out] is [ps] followed by paths that satisfy [R]. *)
Definition extends (R : list Tile -> Prop) (ps out : list (list Tile)) : Prop :=
  exists added, out = ps ++ added /\ Forall R added.

(** The tile one step away from [t] in direction [d]. *)
Definition stepFrom (d : Z * Z) (t : Tile) : Tile :=
  mkTile (getRow t + snd d) (getColumn t + fst d).

(** A tile holding a piece of the opponent of [player]: the test of
    [getAdjacentEnemies] and of [getCapturesForPath]. *)
Definition isEnemyOf (b : Board) (player : Player) (tile : Tile) : bool :=
  isTileOcuppied b tile && negb (tileBelongsToPlayer b tile player).

(** The tiles at the odd positions of a path that are followed by another
    tile: positions 1, 3, ... without the terminal tile. *)
Fixpoint oddInterior (path : list Tile) : list Tile :=
  match path with
  | _ :: enemy :: ((_ :: _) as tl) => enemy :: oddInterior tl
  | _ => []
  end.

Section SearchCalls.

Variable b : Board.
Variable startingTile : Tile.
Variable piece : Piece.

Let player := getOwner piece.

(** The calls of the search: [visited p] holds when [setPathsDFS] is
    entered with [path ++ [from] = p].  One constructor per recursive call
    of the source. *)
Inductive visited : list Tile -> Prop :=
  | visited_start : visited [startingTile]
  | visited_first p from landing :
      visited p -> atBack p 1 = Some from ->
      isFirstMove p = true ->
      In landing (getAdjacentLandings b startingTile from piece None None) ->
      visited (p ++ [landing])
  | visited_landing p from landing :
      visited p -> atBack p 1 = Some from ->
      isPotentialCapture b from p = true ->
      In landing (getAdjacentLandings b startingTile from piece
                                      (lastStep getColumn p) (lastStep getRow p)) ->
      includes p landing = false ->
      visited (p ++ [landing])
  | visited_enemy p from enemy :
      visited p -> atBack p 1 = Some from ->
      canLookForEnemies b from startingTile p = true ->
      In enemy (getAdjacentEnemies b from piece) ->
      includes p enemy = false ->
      visited (p ++ [enemy]).

(** The paths the search pushes to [possiblePaths]. *)
Inductive recorded : list Tile -> Prop :=
  | recorded_cycle p from landing :
      visited p -> atBack p 1 = Some from ->
      isPotentialCapture b from p = true ->
      In landing (getAdjacentLandings b startingTile from piece
                                      (lastStep getColumn p) (lastStep getRow p)) ->
      includes p landing = true ->
      landing = startingTile -> (2 < length p)%nat ->
      recorded (p ++ [landing])
  | recorded_end p from :
      visited p -> atBack p 1 = Some from ->
      isTileOcuppied b from = false ->
      recorded p.

(** [jumps closing x rest]: [rest] is a sequence of jumps from [x], each an
    adjacent enemy tile followed by the tile beyond it in the same
    direction.  Every landing tile is empty, except that with [closing] the
    last one may be the starting tile. *)
Inductive jumps (closing : bool) : Tile -> list Tile -> Prop :=
  | jumps_nil x : jumps closing x []
  | jumps_cons x d enemy landing rest :
      In d (getDirections piece) ->
      enemy = stepFrom d x -> landing = stepFrom d enemy ->
      isEnemyOf b player enemy = true ->
      In enemy getTiles -> In landing getTiles ->
      (getPiece b landing = None
       \/ (closing = true /\ landing = startingTile /\ rest = [])) ->
      jumps closing landing rest ->
      jumps closing x (enemy :: landing :: rest).

(** The states of the search: at the start, after a simple step, after a
    landing, and on an enemy tile about to be jumped. *)
Inductive shape : list Tile -> Prop :=
  | shape_start : shape [startingTile]
  | shape_simple d landing :
      In d (getDirections piece) -> landing = stepFrom d startingTile ->
      getPiece b landing = None -> In landing getTiles ->
      shape [startingTile; landing]
  | shape_landed rest :
      jumps false startingTile rest -> rest <> [] -> shape (startingTile :: rest)
  | shape_enemy rest d enemy :
      jumps false startingTile rest ->
      In d (getDirections piece) -> enemy = stepFrom d (last rest startingTile) ->
      isEnemyOf b player enemy = true -> In enemy getTiles ->
      shape (startingTile :: rest ++ [enemy]).

(** The shape of a recorded path. *)
Inductive pathShape : list Tile -> Prop :=
  | path_simple d landing :
      In d (getDirections piece) -> landing = stepFrom d startingTile ->
      getPiece b landing = None -> In landing getTiles ->
      pathShape [startingTile; landing]
  | path_chain rest :
      jumps false startingTile rest -> rest <> [] ->
      NoDup (startingTile :: rest) ->
      pathShape (startingTile :: rest)
  | path_cycle rest d enemy :
      jumps false startingTile rest -> rest <> [] ->
      In d (getDirections piece) -> enemy = stepFrom d (last rest startingTile) ->
      startingTile = stepFrom d enemy ->
      isEnemyOf b player enemy = true -> In enemy getTiles ->
      NoDup (startingTile :: rest ++ [enemy]) ->
      pathShape (startingTile :: rest ++ [enemy; startingTile]).

End SearchCalls.

(** A board given by the list of its occupied tiles. *)
Definition boardOf (l : list (Tile * Piece)) : Board :=
  fold_left (fun b tp => setPiece (fst tp) (Some (snd tp)) b) l (fun _ => None).

(** A blue queen on (2,2) surrounded by four red pawns it can jump in a
    loop. *)
Definition loopBoard : Board :=
  boardOf [ (mkTile 2 2, mkPiece blue queen);
            (mkTile 3 3, mkPiece red pawn); (mkTile 5 3, mkPiece red pawn);
            (mkTile 5 1, mkPiece red pawn); (mkTile 3 1, mkPiece red pawn);
            (mkTile 7 7, mkPiece red queen) ].

Unset Implicit Arguments.

(** The paths of the piece on [tile]: what a search from [tile] appends to an
    empty [possiblePaths]. *)
Definition searchFrom (b : Board) (tile : Tile) : list (list Tile) :=
  match getPiece b tile with
  | Some piece =>
      match setPathsDFS boardFuel b tile tile piece [] [] with
      | Some paths => paths
      | None => []
      end
  | None => []
  end.

(** The valid destinations a variant keeps of those paths. *)
Definition destinationsFrom (v : Variant) (b : Board) (player : Player) (tile : Tile)
    : list ValidDestination :=
  map (makeValidDestination b player) (validPaths v (searchFrom b tile)).

Definition searchedMove (v : Variant) (b : Board) (player : Player) (tile : Tile) : Move :=
  mkMove (Some tile) None (searchFrom b tile) (destinationsFrom v b player tile).

(** The two lists built by the simulation loop of [BonusGame.isFromValid]. *)
Definition hasCaptureDestination (b : Board) (player : Player) (tile : Tile) : bool :=
  existsb (fun vd => (0 <? length (captures vd))%nat)
          (destinationsFrom BonusGame b player tile).

Definition hasDestination (b : Board) (player : Player) (tile : Tile) : bool :=
  (0 <? length (destinationsFrom BonusGame b player tile))%nat.

(** The piece on [tile] has a path of length greater than 2. *)
Definition hasCapturingPath (b : Board) (tile : Tile) : bool :=
  existsb (fun path => (2 <? length path)%nat) (searchFrom b tile).

(** The state after a new queen is chosen on [tile]. *)
Definition promoted (tile : Tile) (s : GameState) : GameState :=
  let player := activePlayer s in
  let s := setNewQueen tile player s in
  if hasPlayerWon (board s) player then setWinner player s else s.

(** The board after the piece on [fromTile] moves to [toTile] and the pieces
    on [caps] are removed. *)
Definition movedBoard (caps : list Tile) (fromTile toTile : Tile) (b : Board) : Board :=
  let b := capture caps b in
  let b := setPiece toTile (getPiece b fromTile) b in
  setPiece fromTile None b.

(** The state after the move to [toTile], before the move is reset. *)
Definition afterMove (fromTile toTile : Tile) (s : GameState) : GameState :=
  let player := activePlayer s in
  let s := setTo toTile s in
  let caps := getCapturesForDestination s toTile in
  let s := withBoard (movedBoard caps fromTile toTile (board s)) s in
  if hasPlayerWon (board s) player then setWinner player s
  else if rivalHasPieces (board s) player then switchPlayer s
  else s.

Section ClickCases.

Variable v : Variant.
Variables row column : Z.
Variable s : GameState.

Let player := activePlayer s.

(** One constructor per path through [playGame]: the instruction returned
    and the state left. *)
Inductive click : option Instruction -> GameState -> Prop :=
  | click_outside :
      getTile row column = None -> click None s
  | click_won tile :
      getTile row column = Some tile -> isGameWon s = true -> click None s
  | click_queen_refused tile :
      getTile row column = Some tile -> isGameWon s = false ->
      playerHasQueen (board s) player = false ->
      isValidQueen (board s) tile player = false ->
      click None s
  | click_queen tile :
      getTile row column = Some tile -> isGameWon s = false ->
      playerHasQueen (board s) player = false ->
      isValidQueen (board s) tile player = true ->
      click (Some (mkInstruction
                     [mkTileInstruction column row (ownerString (mkPiece player queen))]
                     player (getWinner (promoted tile s))))
            (promoted tile s)
  | click_from_refused tile :
      getTile row column = Some tile -> isGameWon s = false ->
      playerHasQueen (board s) player = true ->
      from (move s) = None ->
      fst (isFromValid v tile player s) = false ->
      click None (snd (isFromValid v tile player s))
  | click_from tile :
      getTile row column = Some tile -> isGameWon s = false ->
      playerHasQueen (board s) player = true ->
      from (move s) = None ->
      fst (isFromValid v tile player s) = true ->
      click (Some (mkInstruction
                     [mkTileInstruction column row none] player
                     (getWinner (setFrom v tile player (snd (isFromValid v tile player s))))))
            (setFrom v tile player (snd (isFromValid v tile player s)))
  | click_back tile :
      getTile row column = Some tile -> isGameWon s = false ->
      playerHasQueen (board s) player = true ->
      from (move s) = Some tile -> to (move s) = None ->
      click (Some (mkInstruction
                     [mkTileInstruction column row (getTileOwnerString (board s) tile)]
                     player (getWinner s)))
            (resetMove s)
  | click_to tile fromTile :
      getTile row column = Some tile -> isGameWon s = false ->
      playerHasQueen (board s) player = true ->
      from (move s) = Some fromTile -> to (move s) = None ->
      fromTile <> tile -> isToValid s tile = true ->
      click (Some (mkInstruction
                     (mkTileInstruction column row (getTileOwnerString (board s) fromTile)
                      :: getCaptureInstructions (getCapturesForDestination s tile))
                     (activePlayer (afterMove fromTile tile s))
                     (getWinner (afterMove fromTile tile s))))
            (resetMove (afterMove fromTile tile s))
  | click_to_refused tile fromTile :
      getTile row column = Some tile -> isGameWon s = false ->
      playerHasQueen (board s) player = true ->
      from (move s) = Some fromTile -> to (move s) = None ->
      fromTile <> tile -> isToValid s tile = false ->
      click None s
  | click_to_set tile fromTile toTile :
      getTile row column = Some tile -> isGameWon s = false ->
      playerHasQueen (board s) player = true ->
      from (move s) = Some fromTile -> to (move s) = Some toTile ->
      click None s.

End ClickCases.

(** What holds of every state the game can be in. *)
Record GameInv (v : Variant) (s : GameState) : Prop := mkGameInv
  { inv_status :
      status s = match winner s with Some _ => inactive | None => active end;
    inv_to : to (move s) = None;
    inv_move :
      match from (move s) with
      | None => move s = emptyMove
      | Some t =>
          In t getTiles
          /\ tileBelongsToPlayer (board s) t (activePlayer s) = true
          /\ winner s = None
          /\ playerHasQueen (board s) (activePlayer s) = true
          /\ move s = searchedMove v (board s) (activePlayer s) t
      end;
    inv_queens :
      forall p t1 t2,
        In t1 getTiles -> In t2 getTiles ->
        getPiece (board s) t1 = Some (mkPiece p queen) ->
        getPiece (board s) t2 = Some (mkPiece p queen) -> t1 = t2;
    inv_rank :
      winner s = None ->
      forall p t, In t getTiles -> getPiece (board s) t = Some (mkPiece p queen) ->
                  getRow t <> winningRow p;
    inv_winner :
      forall w, winner s = Some w ->
                activePlayer s = w /\ playerHasQueen (board s) w = true }.

(** At most one queen per player on the board. *)
Definition uniqueQueens (b : Board) : Prop :=
  forall p t1 t2,
    In t1 getTiles -> In t2 getTiles ->
    getPiece b t1 = Some (mkPiece p queen) ->
    getPiece b t2 = Some (mkPiece p queen) -> t1 = t2.

(** A tile of the player on the row furthest from the opposite side: no
    piece of the player stands on a lower row (blue) or a higher row (red). *)
Definition isIdlePiece (b : Board) (player : Player) (tile : Tile) : Prop :=
  In tile getTiles
  /\ tileBelongsToPlayer b tile player = true
  /\ forall t, In t getTiles -> tileBelongsToPlayer b t player = true ->
               match player with
               | blue => getRow tile <= getRow t
               | red => getRow t <= getRow tile
               end.

(** The player's queen stands on the row that wins the game. *)
Definition queenOnWinningRow (b : Board) (player : Player) : Prop :=
  exists t, In t getTiles
            /\ getPiece b t = Some (mkPiece player queen)
            /\ getRow t = winningRow player.

(** The rival of the player has a piece on the board. *)
Definition rivalOnBoard (b : Board) (player : Player) : Prop :=
  exists t, In t getTiles /\ tileBelongsToPlayer b t (rival player) = true.

(** The valid destination whose captures [getCapturesForDestination] reads:
    the first one, in the order of [validDestinations], that ends on
    [tile]. *)
Definition firstDestination (s : GameState) (tile : Tile) : option ValidDestination :=
  find (fun vd => match destination vd with
                  | Some d => Tile_eqb d tile
                  | None => false
                  end)
       (validDestinations (getCurrentMove s)).

(** ** Positions and games used as examples *)

(** A position with a capture available for blue: the loop around (2,2),
    and blue pawns behind it. *)
Definition loopState : GameState :=
  mkGameState
    (setPiece (mkTile 0 0) (Some (mkPiece blue pawn))
       (setPiece (mkTile 1 5) (Some (mkPiece blue pawn)) loopBoard))
    active None emptyMove blue.

(** Blue walks its queen to (2,2), where a red pawn jumps it: blue is left
    without a queen, and its pawn on (0,4) cannot move.  The clicks are
    [(row, column)]; the same clicks are legal in both games. *)
Definition lostQueenGame : list (Z * Z) :=
  [ (2,2);(3,1); (5,5);(4,4);
    (3,1);(4,0); (5,3);(4,2);
    (1,1);(2,2); (6,4);(5,3);
    (2,2);(3,1); (4,4);(3,3);
    (0,0);(1,1); (5,7);(4,6);
    (1,1);(2,2); (3,3);(1,1) ].

Definition lostQueenState (v : Variant) : GameState :=
  clicks v lostQueenGame initialState.

(** A base game in which the blue queen reaches (6,6) and has been picked
    up, with (7,5) free. *)
Definition winningGame : list (Z * Z) :=
  [ (2,2);(3,1); (5,7);(4,6);
    (3,1);(4,0); (6,6);(5,7);
    (1,1);(2,2); (7,5);(6,6);
    (2,2);(3,1); (4,6);(3,5);
    (0,0);(1,1); (5,7);(4,6);
    (1,1);(2,2); (6,6);(5,7);
    (2,2);(3,3); (5,1);(4,2);
    (3,3);(4,4); (6,0);(5,1);
    (4,4);(6,6); (7,1);(6,0);
    (6,6) ].

Definition winningState : GameState := clicks BaseGame winningGame initialState.

(** A forced-capture game in which the blue pawn on (3,3) has been picked up
    and can reach (7,3) by two different double jumps. *)
Definition diamondGame : list (Z * Z) :=
  [ (2,6);(3,7); (5,3);(4,2);
    (1,7);(2,6); (6,2);(5,3);
    (0,6);(1,7); (7,3);(6,2);
    (2,6);(3,5); (5,1);(4,0);
    (2,2);(3,3); (5,5);(4,4);
    (3,3) ].

Definition diamondState : GameState := clicks BonusGame diamondGame initialState.

(** The third valid destination of the pawn picked up in [diamondState]:
    the double jump over (4,4) and (6,4). *)
Definition shadowedDestination : ValidDestination :=
  mkValidDestination
    [mkTile 3 3; mkTile 4 4; mkTile 5 5; mkTile 6 4; mkTile 7 3]
    (Some (mkTile 7 3)) [mkTile 4 4; mkTile 6 4].

(** A forced-capture game in which the blue queen walks to (3,3) and is
    picked up there, surrounded by the red pawns on (4,4), (6,4), (6,2) and
    (4,2) with (5,5), (7,3) and (5,1) free: it can jump all four and land on
    (3,3) again. *)
Definition cycleGame : list (Z * Z) :=
  [ (2,2);(3,1); (5,1);(4,2);
    (3,1);(4,0); (5,5);(4,6);
    (1,1);(2,2); (6,4);(5,5);
    (2,2);(3,1); (7,3);(6,4);
    (0,0);(1,1); (4,6);(3,7);
    (1,1);(2,2); (5,7);(4,6);
    (2,2);(3,3); (5,5);(4,4);
    (3,3) ].

Definition cycleState : GameState := clicks BonusGame cycleGame initialState.

(** The first valid destination of the queen picked up in [cycleState]: the
    four jumps that bring it back to (3,3). *)
Definition cyclicDestination : ValidDestination :=
  mkValidDestination
    [mkTile 3 3; mkTile 4 4; mkTile 5 5; mkTile 6 4; mkTile 7 3;
     mkTile 6 2; mkTile 5 1; mkTile 4 2; mkTile 3 3]
    (Some (mkTile 3 3)) [mkTile 4 4; mkTile 6 4; mkTile 6 2; mkTile 4 2].

(** ** Geometry of the board *)

(** A tile that can hold a piece: [(row + column) % 2 === 0]. *)
Definition playable (t : Tile) : Prop := (getRow t + getColumn t) mod 2 = 0.

(** [u] is a diagonal neighbour of [t]. *)
Definition diagonalStep (t u : Tile) : Prop :=
  Z.abs (getRow u - getRow t) = 1 /\ Z.abs (getColumn u - getColumn t) = 1.

(** The row delta of the two directions of a pawn. *)
Definition forward (player : Player) : Z :=
  match player with blue => 1 | red => -1 end.

(** The label of a tile in the instructions of a redraw. *)
Definition labelOf (b : Board) (t : Tile) : TileInstruction :=
  mkTileInstruction (getColumn t) (getRow t) (getTileOwnerString b t).

(** ** The outcomes of a click in a state of the game *)

Section Outcomes.

Variable v : Variant.
Variables row column : Z.
Variable s : GameState.

Let player := activePlayer s.

(** What a click does in a state that satisfies [GameInv]: it is ignored, or
    it crowns a piece, picks a piece up, puts it back, or moves it. *)
Inductive outcome : option Instruction -> GameState -> Prop :=
  | outcome_ignored : outcome None s
  | outcome_crowned tile :
      getTile row column = Some tile -> winner s = None ->
      playerHasQueen (board s) player = false ->
      isValidQueen (board s) tile player = true ->
      move s = emptyMove ->
      outcome (Some (mkInstruction
                       [mkTileInstruction column row (ownerString (mkPiece player queen))]
                       player (winner (promoted tile s))))
              (promoted tile s)
  | outcome_picked tile :
      getTile row column = Some tile -> winner s = None ->
      playerHasQueen (board s) player = true ->
      move s = emptyMove ->
      fst (isFromValid v tile player s) = true ->
      tileBelongsToPlayer (board s) tile player = true ->
      outcome (Some (mkInstruction [mkTileInstruction column row none] player None))
              (withMove (searchedMove v (board s) player tile) s)
  | outcome_back tile :
      getTile row column = Some tile -> winner s = None ->
      playerHasQueen (board s) player = true ->
      from (move s) = Some tile ->
      outcome (Some (mkInstruction
                       [mkTileInstruction column row (getTileOwnerString (board s) tile)]
                       player None))
              (resetMove s)
  | outcome_moved tile fromTile :
      getTile row column = Some tile -> winner s = None ->
      playerHasQueen (board s) player = true ->
      from (move s) = Some fromTile -> fromTile <> tile ->
      isToValid s tile = true ->
      outcome (Some (mkInstruction
                       (mkTileInstruction column row (getTileOwnerString (board s) fromTile)
                        :: getCaptureInstructions (getCapturesForDestination s tile))
                       (activePlayer (afterMove fromTile tile s))
                       (winner (afterMove fromTile tile s))))
              (resetMove (afterMove fromTile tile s)).

End Outcomes.

(** The player has a piece on the board. *)
Definition playerOnBoard (b : Board) (player : Player) : Prop :=
  exists t, In t getTiles /\ tileBelongsToPlayer b t player = true.

(** What holds, besides [GameInv], of the board of every state the game can
    be in. *)
Record BoardInv (s : GameState) : Prop := mkBoardInv
  { inv_dark :
      forall t piece, getPiece (board s) t = Some piece -> onBoard t /\ playable t;
    inv_won :
      forall w, winner s = Some w -> hasPlayerWon (board s) w = true;
    inv_alive : playerOnBoard (board s) (activePlayer s);
    inv_dests :
      forall f, from (move s) = Some f -> validDestinations (move s) <> [] }.

(** What the view shows on a tile: the piece of the tile, except that a
    piece that has been picked up is not shown. *)
Definition shownOwner (s : GameState) (tile : Tile) : TileOwner :=
  match from (move s) with
  | Some f => if Tile_eqb f tile then none else getTileOwnerString (board s) tile
  | None => getTileOwnerString (board s) tile
  end.

(** The tile an instruction addresses. *)
Definition instructionTile (i : TileInstruction) : Tile :=
  mkTile (rowToSet i) (colToSet i).

(** The state after [winningGame] and the winning click on (7,5). *)
Definition wonState : GameState := snd (playGame BaseGame 7 5 winningState).

(** The state after the double jump of [diamondState] to (7,3): a blue pawn
    stands on the last row, and red is to play. *)
Definition lastRowState : GameState := snd (playGame BonusGame 7 3 diamondState).

(** The base game [winningGame] stopped after the blue queen has been
    picked up on (4,4), from where it can jump the red pawn on (5,5). *)
Definition jumpState : GameState := clicks BaseGame (firstn 33 winningGame) initialState.

(** The jump from (4,4) over (5,5). *)
Definition jumpDestination : ValidDestination :=
  mkValidDestination [mkTile 4 4; mkTile 5 5; mkTile 6 6] (Some (mkTile 6 6)) [mkTile 5 5].

(** ** The view and the game *)

(** [board[column]?.[row]] for the coordinates of a tile. *)
Definition readTile (u : UI.GameState) (t : Tile) : option TileOwner :=
  match UI.board u (getColumn t) with
  | Some entries => entries (getRow t)
  | None => None
  end.

(** The view shows the game: the turn, the winner, and on every tile of the
    board the piece of the game, unless it is picked up; the view has no
    entry outside the board. *)
Definition shows (u : UI.GameState) (s : GameState) : Prop :=
  UI.turn u = Some (activePlayer s)
  /\ UI.winner u = winner s
  /\ forall t, readTile u t = if includes getTiles t then Some (shownOwner s t) else None.

(** The owner the last instruction of a list gives to a tile. *)
Fixpoint lastWrite (l : list TileInstruction) (t : Tile) : option TileOwner :=
  match l with
  | [] => None
  | i :: l' =>
      match lastWrite l' t with
      | Some o => Some o
      | None => if Tile_eqb (instructionTile i) t then Some (newOwner i) else None
      end
  end.

(** A list of clicks [(row, column)] on the application. *)
Definition appClicks (v : Variant) (l : list (Z * Z)) (a : App) : option App :=
  forEach l (fun rc a => onTileClick v (fst rc) (snd rc) a) a.

(** The application after loading, and after the clicks of [diamondGame]. *)
Definition startedApp : App :=
  match startApp with
  | Some a => a
  | None => mkApp initialState (UI.mkGameState (fun _ => None) None None)
  end.

Definition playedApp : App :=
  match appClicks BonusGame diamondGame startedApp with
  | Some a => a
  | None => startedApp
  end.

(** [out] keeps the paths of [ps], in front. *)
Definition keeps (ps out : list (list Tile)) : Prop := exists added, out = ps ++ added.

(** The moves of the base game from [tile] in direction [d]: a step to the
    free neighbour, or a jump over the neighbour, which holds an enemy, to
    the free tile behind it. *)
Definition stepTo (b : Board) (tile : Tile) (d : Z * Z) : Prop :=
  onBoard (stepFrom d tile) /\ getPiece b (stepFrom d tile) = None.

Definition jumpTo (b : Board) (player : Player) (tile : Tile) (d : Z * Z) : Prop :=
  onBoard (stepFrom d tile)
  /\ isEnemyOf b player (stepFrom d tile) = true
  /\ onBoard (stepFrom d (stepFrom d tile))
  /\ getPiece b (stepFrom d (stepFrom d tile)) = None.

Set Implicit Arguments.

(** * Basic facts about tiles and the board *)

Lemma Tile_eqb_eq (t u : Tile) : Tile_eqb t u = true <-> t = u.
Proof.
  unfold Tile_eqb. rewrite andb_true_iff, !Z.eqb_eq.
  destruct t, u; simpl; split.
  - intros [-> ->]; reflexivity.
  - intros H; inversion H; auto.
Qed.

Lemma Tile_eqb_refl (t : Tile) : Tile_eqb t t = true.
Proof. apply Tile_eqb_eq; reflexivity. Qed.

Lemma Tile_eqb_neq (t u : Tile) : Tile_eqb t u = false <-> t <> u.
Proof.
  rewrite <- Tile_eqb_eq. destruct (Tile_eqb t u); split; congruence.
Qed.

Lemma Player_eqb_eq (p q : Player) : Player_eqb p q = true <-> p = q.
Proof. destruct p, q; simpl; split; congruence. Qed.

Lemma Player_eqb_refl (p : Player) : Player_eqb p p = true.
Proof. destruct p; reflexivity. Qed.

Lemma includes_In (path : list Tile) (tile : Tile) :
  includes path tile = true <-> In tile path.
Proof.
  unfold includes. rewrite existsb_exists. split.
  - intros [x [Hx E]]. apply Tile_eqb_eq in E. subst. assumption.
  - intros H. exists tile. split; [assumption | apply Tile_eqb_refl].
Qed.

Lemma includes_not_In (path : list Tile) (tile : Tile) :
  includes path tile = false <-> ~ In tile path.
Proof.
  rewrite <- includes_In. destruct (includes path tile); split; congruence.
Qed.

Lemma getTiles_onBoard (t : Tile) : In t getTiles <-> onBoard t.
Proof.
  unfold onBoard. split.
  - unfold getTiles. simpl. intros H.
    repeat (destruct H as [H | H]; [subst t; simpl; lia | ]). contradiction.
  - intros [Hr Hc]. destruct t as [r c]. simpl in Hr, Hc.
    apply (proj1 (includes_In getTiles _)).
    assert (Er : r = 0 \/ r = 1 \/ r = 2 \/ r = 3 \/ r = 4 \/ r = 5 \/ r = 6 \/ r = 7) by lia.
    assert (Ec : c = 0 \/ c = 1 \/ c = 2 \/ c = 3 \/ c = 4 \/ c = 5 \/ c = 6 \/ c = 7) by lia.
    clear Hr Hc.
    repeat (destruct Er as [Er | Er]; try subst r);
      repeat (destruct Ec as [Ec | Ec]; try subst c); reflexivity.
Qed.

Lemma getTile_Some (row column : Z) (t : Tile) :
  getTile row column = Some t <-> t = mkTile row column /\ onBoard t.
Proof.
  unfold getTile. split.
  - intros H. apply find_some in H. destruct H as [Hin E].
    apply andb_true_iff in E. rewrite !Z.eqb_eq in E. destruct E as [<- <-].
    split; [destruct t; reflexivity | apply getTiles_onBoard; assumption].
  - intros [-> [Hr Hc]]. simpl in *.
    assert (Er : row = 0 \/ row = 1 \/ row = 2 \/ row = 3 \/ row = 4 \/ row = 5
                 \/ row = 6 \/ row = 7) by lia.
    assert (Ec : column = 0 \/ column = 1 \/ column = 2 \/ column = 3 \/ column = 4
                 \/ column = 5 \/ column = 6 \/ column = 7) by lia.
    clear Hr Hc.
    repeat (destruct Er as [Er | Er]; try subst row);
      repeat (destruct Ec as [Ec | Ec]; try subst column); reflexivity.
Qed.

Lemma getTile_None (row column : Z) :
  getTile row column = None <-> ~ (0 <= row < 8 /\ 0 <= column < 8).
Proof.
  split.
  - intros H Hr.
    assert (E : getTile row column = Some (mkTile row column))
      by (apply getTile_Some; split; [reflexivity | exact Hr]).
    congruence.
  - intros H. destruct (getTile row column) eqn:E; [ | reflexivity].
    apply getTile_Some in E. destruct E as [-> Hb]. elim H. exact Hb.
Qed.

Lemma getTile_of_tile (t : Tile) :
  In t getTiles -> getTile (getRow t) (getColumn t) = Some t.
Proof.
  intros H. apply getTile_Some. split; [destruct t; reflexivity | ].
  apply getTiles_onBoard. assumption.
Qed.

Lemma NoDup_getTiles : NoDup getTiles.
Proof.
  unfold getTiles.
  repeat (constructor;
          [ intros H; simpl in H;
            repeat (destruct H as [H | H]; [discriminate H | ]); exact H | ]).
  constructor.
Qed.

Lemma setPiece_same tile piece b : getPiece (setPiece tile piece b) tile = piece.
Proof. unfold getPiece, setPiece. rewrite Tile_eqb_refl. reflexivity. Qed.

Lemma setPiece_other tile piece b t :
  t <> tile -> getPiece (setPiece tile piece b) t = getPiece b t.
Proof.
  intros H. unfold getPiece, setPiece.
  apply Tile_eqb_neq in H. rewrite H. reflexivity.
Qed.

Lemma capture_other caps b t :
  ~ In t caps -> getPiece (capture caps b) t = getPiece b t.
Proof.
  unfold capture. revert b. induction caps as [ | c caps IH]; intros b H; simpl.
  - reflexivity.
  - rewrite IH by (intros H'; apply H; right; assumption).
    apply setPiece_other. intros ->. apply H. left. reflexivity.
Qed.

Lemma capture_in caps b t :
  In t caps -> getPiece (capture caps b) t = None.
Proof.
  unfold capture. revert b. induction caps as [ | c caps IH]; intros b H; simpl.
  - contradiction.
  - destruct (in_dec (fun x y => Bool.reflect_dec _ _ (iff_reflect _ _ (iff_sym (Tile_eqb_eq x y))))
                     t caps) as [Hin | Hnin].
    + apply IH. assumption.
    + destruct H as [-> | H]; [ | contradiction].
      change (getPiece (capture caps (setPiece t None b)) t = None).
      rewrite capture_other by assumption. apply setPiece_same.
Qed.

(** * The path search *)

Lemma extends_refl R ps : extends R ps ps.
Proof. exists []. rewrite app_nil_r. split; [reflexivity | constructor]. Qed.

Lemma extends_trans R ps1 ps2 ps3 :
  extends R ps1 ps2 -> extends R ps2 ps3 -> extends R ps1 ps3.
Proof.
  intros [a1 [-> H1]] [a2 [-> H2]]. exists (a1 ++ a2).
  rewrite app_assoc. split; [reflexivity | ]. apply Forall_app. split; assumption.
Qed.

Lemma extends_push (R : list Tile -> Prop) ps p : R p -> extends R ps (ps ++ [p]).
Proof. intros H. exists [p]. split; [reflexivity | ]. constructor; [assumption | constructor]. Qed.

Lemma forEach_extends {A : Type} R (l : list A) f :
  (forall x ps ps', In x l -> f x ps = Some ps' -> extends R ps ps') ->
  forall ps out, forEach l f ps = Some out -> extends R ps out.
Proof.
  induction l as [ | x l IH]; intros Hf ps out H; simpl in H.
  - injection H as <-. apply extends_refl.
  - destruct (f x ps) as [ps' | ] eqn:E; [ | discriminate].
    apply extends_trans with ps'.
    + apply Hf with x; [left; reflexivity | assumption].
    + apply IH; [ | assumption].
      intros y qs qs' Hy. apply Hf. right. assumption.
Qed.

Lemma forEach_total {A S : Type} (l : list A) (f : A -> S -> option S) :
  (forall x s, In x l -> exists s', f x s = Some s') ->
  forall s, exists out, forEach l f s = Some out.
Proof.
  induction l as [ | x l IH]; intros Hf s; simpl.
  - exists s. reflexivity.
  - destruct (Hf x s (or_introl eq_refl)) as [s' ->].
    apply IH. intros y t Hy. apply Hf. right. assumption.
Qed.

Lemma getDirections_unit piece d :
  In d (getDirections piece) ->
  (fst d = 1 \/ fst d = -1) /\ (snd d = 1 \/ snd d = -1).
Proof.
  unfold getDirections. destruct (isQueen piece); [ | destruct (getOwner piece)];
    simpl; intros H;
    repeat (destruct H as [H | H]; [subst d; simpl; lia | ]); contradiction.
Qed.

Lemma stepFrom_neq piece d t : In d (getDirections piece) -> stepFrom d t <> t.
Proof.
  intros H E. apply getDirections_unit in H.
  destruct t as [r c]. unfold stepFrom in E. simpl in E. inversion E. lia.
Qed.

Lemma in_filterDirection sel c directions d :
  In d (filterDirection sel c directions) ->
  In d directions /\ (forall x, c = Some x -> sel d = x).
Proof.
  unfold filterDirection. destruct c as [x | ].
  - rewrite filter_In, Z.eqb_eq. intros [H E]. split; [assumption | ].
    intros y Hy. injection Hy as <-. assumption.
  - intros H. split; [assumption | discriminate].
Qed.

Lemma in_getAdjacentLandings b startingTile tile piece cx cy landing :
  In landing (getAdjacentLandings b startingTile tile piece cx cy) ->
  exists d, In d (getDirections piece)
            /\ (forall x, cx = Some x -> fst d = x)
            /\ (forall y, cy = Some y -> snd d = y)
            /\ landing = stepFrom d tile
            /\ In landing getTiles
            /\ (isTileOcuppied b landing = false \/ landing = startingTile).
Proof.
  unfold getAdjacentLandings. rewrite in_flat_map. intros [d [Hd H]].
  apply in_filterDirection in Hd. destruct Hd as [Hd Hy].
  apply in_filterDirection in Hd. destruct Hd as [Hd Hx].
  exists d. repeat (split; [assumption | ]).
  destruct (getTile (getRow tile + snd d) (getColumn tile + fst d)) as [dest | ] eqn:E;
    [ | contradiction].
  apply getTile_Some in E. destruct E as [E Hb]. apply getTiles_onBoard in Hb.
  apply in_app_or in H. destruct H as [H | H].
  - destruct (isTileOcuppied b dest) eqn:O; simpl in H; [contradiction | ].
    destruct H as [<- | []]. repeat split; auto.
  - destruct (Tile_eqb dest startingTile) eqn:T; [ | contradiction].
    destruct H as [<- | []]. apply Tile_eqb_eq in T. repeat split; auto.
Qed.

Lemma in_getAdjacentEnemies b tile piece enemy :
  In enemy (getAdjacentEnemies b tile piece) ->
  exists d, In d (getDirections piece)
            /\ enemy = stepFrom d tile
            /\ In enemy getTiles
            /\ isTileOcuppied b enemy = true
            /\ tileBelongsToPlayer b enemy (getOwner piece) = false.
Proof.
  unfold getAdjacentEnemies. rewrite in_flat_map. intros [d [Hd H]].
  exists d. split; [assumption | ].
  destruct (getTile (getRow tile + snd d) (getColumn tile + fst d)) as [dest | ] eqn:E;
    [ | contradiction].
  apply getTile_Some in E. destruct E as [E Hb]. apply getTiles_onBoard in Hb.
  destruct (isTileOcuppied b dest) eqn:O; simpl in H; [ | contradiction].
  destruct (tileBelongsToPlayer b dest (getOwner piece)) eqn:T; simpl in H;
    [contradiction | ].
  destruct H as [<- | []]. repeat split; auto.
Qed.

Section Search.

Variable b : Board.
Variable startingTile : Tile.
Variable piece : Piece.

Lemma atBack_last (path : list Tile) (t : Tile) : atBack (path ++ [t]) 1 = Some t.
Proof. unfold atBack. rewrite rev_unit. reflexivity. Qed.

Lemma setPathsDFS_sound (fuel : nat) :
  forall path from paths out,
    visited b startingTile piece (path ++ [from]) ->
    setPathsDFS fuel b startingTile from piece path paths = Some out ->
    extends (recorded b startingTile piece) paths out.
Proof.
  induction fuel as [ | fuel IH]; intros path from paths out Hv H; [discriminate | ].
  cbn [setPathsDFS] in H.
  pose proof (atBack_last path from) as Hlast.
  set (p := path ++ [from]) in *.
  match type of H with
  | match ?X with _ => _ end = _ => destruct X as [paths1 | ] eqn:E1; [ | discriminate]
  end.
  match type of H with
  | match ?X with _ => _ end = _ => destruct X as [paths2 | ] eqn:E2; [ | discriminate]
  end.
  match type of H with
  | match ?X with _ => _ end = _ => destruct X as [paths3 | ] eqn:E3; [ | discriminate]
  end.
  assert (S1 : extends (recorded b startingTile piece) paths paths1).
  { destruct (isFirstMove p) eqn:F.
    - revert E1. apply forEach_extends. intros x ps ps' Hx Hf.
      apply IH in Hf; [assumption | ].
      apply visited_first with from; assumption.
    - injection E1 as <-. apply extends_refl. }
  assert (S2 : extends (recorded b startingTile piece) paths1 paths2).
  { destruct (isPotentialCapture b from p) eqn:F.
    - revert E2. apply forEach_extends. intros x ps ps' Hx Hf.
      destruct (includes p x) eqn:I; simpl in Hf.
      + destruct (Tile_eqb x startingTile && (2 <? length p)%nat) eqn:C.
        * injection Hf as <-. apply extends_push.
          apply andb_true_iff in C. destruct C as [C1 C2].
          apply Tile_eqb_eq in C1. apply Nat.ltb_lt in C2.
          apply recorded_cycle with from; assumption.
        * injection Hf as <-. apply extends_refl.
      + apply IH in Hf; [assumption | ].
        apply visited_landing with from; assumption.
    - injection E2 as <-. apply extends_refl. }
  assert (S3 : extends (recorded b startingTile piece) paths2 paths3).
  { destruct (canLookForEnemies b from startingTile p) eqn:F.
    - revert E3. apply forEach_extends. intros x ps ps' Hx Hf.
      destruct (includes p x) eqn:I; simpl in Hf.
      + injection Hf as <-. apply extends_refl.
      + apply IH in Hf; [assumption | ].
        apply visited_enemy with from; assumption.
    - injection E3 as <-. apply extends_refl. }
  assert (S4 : extends (recorded b startingTile piece) paths3 out).
  { destruct (isTileOcuppied b from) eqn:O; simpl in H; injection H as <-.
    - apply extends_refl.
    - apply extends_push. apply recorded_end with from; assumption. }
  eauto using extends_trans.
Qed.

(** Every call extends the path by a tile of the board that is not yet in
    it, so the search returns with one unit of fuel per tile. *)
Lemma setPathsDFS_total_gen (fuel : nat) :
  forall path from paths,
    NoDup (path ++ [from]) -> incl (path ++ [from]) getTiles ->
    (length getTiles < length (path ++ [from]) + fuel)%nat ->
    exists out, setPathsDFS fuel b startingTile from piece path paths = Some out.
Proof.
  induction fuel as [ | fuel IH]; intros path from paths Hnd Hin Hlen.
  - apply NoDup_incl_length in Hin; [ | assumption]. lia.
  - cbn [setPathsDFS].
    set (p := path ++ [from]) in *.
    assert (Hrec : forall x ps, ~ In x p -> In x getTiles ->
                     exists ps', setPathsDFS fuel b startingTile x piece p ps = Some ps').
    { intros x ps Hx Hb. apply IH.
      - apply NoDup_app. repeat split.
        + assumption.
        + constructor; [intros [] | constructor].
        + intros y Hy [<- | []]. contradiction.
      - intros y Hy. apply in_app_or in Hy. destruct Hy as [Hy | [<- | []]]; auto.
      - rewrite length_app. change (length [x]) with 1%nat. lia. }
    assert (S1 : exists paths1,
               (if isFirstMove p
                then forEach (getAdjacentLandings b startingTile from piece None None)
                       (fun landing ps => setPathsDFS fuel b startingTile landing piece p ps)
                       paths
                else Some paths) = Some paths1).
    { destruct (isFirstMove p) eqn:F; [ | eauto].
      apply forEach_total. intros x ps Hx.
      apply in_getAdjacentLandings in Hx.
      destruct Hx as [d [Hd [_ [_ [Hs [Hb _]]]]]].
      apply Hrec; [ | assumption].
      unfold isFirstMove in F. apply Nat.eqb_eq in F.
      unfold p in *. destruct path as [ | y path]; simpl in *.
      - intros [E | []]. subst x. symmetry in E. revert E.
        apply stepFrom_neq with piece. assumption.
      - rewrite length_app in F. simpl in F. lia. }
    destruct S1 as [paths1 ->].
    assert (S2 : exists paths2,
               (if isPotentialCapture b from p
                then forEach (getAdjacentLandings b startingTile from piece
                                (lastStep getColumn p) (lastStep getRow p))
                       (fun landing ps =>
                          if negb (includes p landing)
                          then setPathsDFS fuel b startingTile landing piece p ps
                          else if Tile_eqb landing startingTile && (2 <? length p)%nat
                               then Some (ps ++ [p ++ [landing]])
                               else Some ps)
                       paths1
                else Some paths1) = Some paths2).
    { destruct (isPotentialCapture b from p) eqn:F; [ | eauto].
      apply forEach_total. intros x ps Hx.
      apply in_getAdjacentLandings in Hx.
      destruct Hx as [d [Hd [_ [_ [Hs [Hb _]]]]]].
      destruct (includes p x) eqn:I; simpl.
      - destruct (Tile_eqb x startingTile && (2 <? length p)%nat); eauto.
      - apply Hrec; [ | assumption]. apply includes_not_In. assumption. }
    destruct S2 as [paths2 ->].
    assert (S3 : exists paths3,
               (if canLookForEnemies b from startingTile p
                then forEach (getAdjacentEnemies b from piece)
                       (fun enemy ps =>
                          if negb (includes p enemy)
                          then setPathsDFS fuel b startingTile enemy piece p ps
                          else Some ps)
                       paths2
                else Some paths2) = Some paths3).
    { destruct (canLookForEnemies b from startingTile p) eqn:F; [ | eauto].
      apply forEach_total. intros x ps Hx.
      apply in_getAdjacentEnemies in Hx.
      destruct Hx as [d [Hd [Hs [Hb _]]]].
      destruct (includes p x) eqn:I; simpl; [eauto | ].
      apply Hrec; [ | assumption]. apply includes_not_In. assumption. }
    destruct S3 as [paths3 ->].
    destruct (negb (isTileOcuppied b from)); eauto.
Qed.

Lemma forEach_impl {A S : Type} (l : list A) (f g : A -> S -> option S) :
  (forall x s s', In x l -> f x s = Some s' -> g x s = Some s') ->
  forall s out, forEach l f s = Some out -> forEach l g s = Some out.
Proof.
  induction l as [ | x l IH]; intros Hfg s out H; cbn [forEach] in *.
  - assumption.
  - destruct (f x s) as [s' | ] eqn:E; [ | discriminate].
    rewrite (Hfg x s s' (or_introl eq_refl) E).
    apply IH; [ | assumption]. intros y t t' Hy. apply Hfg. right. assumption.
Qed.

(** The result does not depend on the fuel, once there is enough of it. *)
Lemma setPathsDFS_fuel_mono (fuel : nat) :
  forall fuel' from path paths out,
    (fuel <= fuel')%nat ->
    setPathsDFS fuel b startingTile from piece path paths = Some out ->
    setPathsDFS fuel' b startingTile from piece path paths = Some out.
Proof.
  induction fuel as [ | fuel IH]; intros fuel' from path paths out Hle H; [discriminate | ].
  destruct fuel' as [ | fuel']; [lia | ].
  assert (Hle' : (fuel <= fuel')%nat) by lia.
  cbn [setPathsDFS] in *.
  set (p := path ++ [from]) in *.
  match type of H with
  | match ?X with _ => _ end = _ => destruct X as [paths1 | ] eqn:E1; [ | discriminate]
  end.
  match type of H with
  | match ?X with _ => _ end = _ => destruct X as [paths2 | ] eqn:E2; [ | discriminate]
  end.
  match type of H with
  | match ?X with _ => _ end = _ => destruct X as [paths3 | ] eqn:E3; [ | discriminate]
  end.
  assert (S1 : (if isFirstMove p
                then forEach (getAdjacentLandings b startingTile from piece None None)
                       (fun landing ps => setPathsDFS fuel' b startingTile landing piece p ps)
                       paths
                else Some paths) = Some paths1).
  { destruct (isFirstMove p); [ | assumption].
    revert E1. apply forEach_impl. intros x ps ps' _. apply IH. assumption. }
  rewrite S1.
  assert (S2 : (if isPotentialCapture b from p
                then forEach (getAdjacentLandings b startingTile from piece
                                (lastStep getColumn p) (lastStep getRow p))
                       (fun landing ps =>
                          if negb (includes p landing)
                          then setPathsDFS fuel' b startingTile landing piece p ps
                          else if Tile_eqb landing startingTile && (2 <? length p)%nat
                               then Some (ps ++ [p ++ [landing]])
                               else Some ps)
                       paths1
                else Some paths1) = Some paths2).
  { destruct (isPotentialCapture b from p); [ | assumption].
    revert E2. apply forEach_impl. intros x ps ps' _.
    destruct (negb (includes p x)); [apply IH; assumption | auto]. }
  rewrite S2.
  assert (S3 : (if canLookForEnemies b from startingTile p
                then forEach (getAdjacentEnemies b from piece)
                       (fun enemy ps =>
                          if negb (includes p enemy)
                          then setPathsDFS fuel' b startingTile enemy piece p ps
                          else Some ps)
                       paths2
                else Some paths2) = Some paths3).
  { destruct (canLookForEnemies b from startingTile p); [ | assumption].
    revert E3. apply forEach_impl. intros x ps ps' _.
    destruct (negb (includes p x)); [apply IH; assumption | auto]. }
  rewrite S3. assumption.
Qed.

Theorem setPathsDFS_total (paths : list (list Tile)) :
  In startingTile getTiles ->
  exists out,
    setPathsDFS boardFuel b startingTile startingTile piece [] paths = Some out.
Proof.
  intros Hb. apply setPathsDFS_total_gen.
  - simpl. constructor; [intros [] | constructor].
  - intros y [<- | []]. assumption.
  - unfold boardFuel. simpl. lia.
Qed.

End Search.

(** * The shape of the recorded paths *)

Lemma last_cons {A : Type} (l : list A) (a d : A) : last (a :: l) d = last l a.
Proof.
  revert a d. induction l as [ | x l IH]; intros a d.
  - reflexivity.
  - change (last (a :: x :: l) d) with (last (x :: l) d). rewrite !IH. reflexivity.
Qed.

Lemma atBack_cons (l : list Tile) (x : Tile) : atBack (x :: l) 1 = Some (last l x).
Proof.
  destruct (exists_last (l := x :: l)) as [l' [y E]]; [discriminate | ].
  rewrite E. unfold atBack. rewrite rev_unit. simpl.
  rewrite <- (last_cons l x y), E, last_last. reflexivity.
Qed.

Lemma atBack_two (l : list Tile) (x y : Tile) : atBack (l ++ [x; y]) 2 = Some x.
Proof.
  unfold atBack. replace (l ++ [x; y]) with ((l ++ [x]) ++ [y]).
  - rewrite !rev_unit. reflexivity.
  - rewrite <- app_assoc. reflexivity.
Qed.

Lemma atBack_one (l : list Tile) (x : Tile) : atBack (l ++ [x]) 1 = Some x.
Proof. unfold atBack. rewrite rev_unit. reflexivity. Qed.

Lemma NoDup_snoc {A : Type} (l : list A) (x : A) :
  NoDup l -> ~ In x l -> NoDup (l ++ [x]).
Proof.
  intros Hl Hx. apply NoDup_app. repeat split.
  - assumption.
  - constructor; [intros [] | constructor].
  - intros y Hy [<- | []]. contradiction.
Qed.

Lemma snoc_split (l : list Tile) (x : Tile) :
  x :: l = removelast (x :: l) ++ [last l x].
Proof.
  rewrite <- (last_cons l x x). apply app_removelast_last. discriminate.
Qed.

Section Shape.

Variable b : Board.
Variable startingTile : Tile.
Variable piece : Piece.
Hypothesis start_piece : getPiece b startingTile = Some piece.
Hypothesis start_in : In startingTile getTiles.

Let player := getOwner piece.

Lemma jumps_snoc closing x rest d enemy landing :
  jumps b startingTile piece false x rest ->
  In d (getDirections piece) ->
  enemy = stepFrom d (last rest x) -> landing = stepFrom d enemy ->
  isEnemyOf b player enemy = true ->
  In enemy getTiles -> In landing getTiles ->
  (getPiece b landing = None \/ (closing = true /\ landing = startingTile)) ->
  jumps b startingTile piece closing x (rest ++ [enemy; landing]).
Proof.
  intros H Hd He Hl Hen Hbe Hbl Hfin. induction H as [x | x d0 e0 l0 rest Hd0 He0 Hl0 Hen0 Hb0 Hb1 Hf0 H IH].
  - simpl in *. apply jumps_cons with d; auto.
    + destruct Hfin as [Hfin | [Hc Hs]]; [left; assumption | right; auto].
    + constructor.
  - simpl. apply jumps_cons with d0; auto.
    + left. destruct Hf0 as [Hf0 | [Hc _]]; [assumption | discriminate].
    + apply IH. rewrite He. f_equal. rewrite !last_cons. reflexivity.
Qed.

Lemma jumps_weaken x rest : jumps b startingTile piece false x rest -> jumps b startingTile piece true x rest.
Proof.
  induction 1 as [x | x d e l rest Hd He Hl Hen Hbe Hbl Hf H IH].
  - constructor.
  - apply jumps_cons with d; auto. left.
    destruct Hf as [Hf | [Hc _]]; [assumption | discriminate].
Qed.

Lemma jumps_last_empty x rest :
  jumps b startingTile piece false x rest -> rest <> [] -> getPiece b (last rest x) = None.
Proof.
  induction 1 as [x | x d e l rest Hd He Hl Hen Hbe Hbl Hf H IH]; intros Hne.
  - congruence.
  - rewrite !last_cons.
    destruct rest as [ | y rest].
    + simpl. destruct Hf as [Hf | [Hc _]]; [assumption | discriminate].
    + apply IH. discriminate.
Qed.

Lemma start_occupied : isTileOcuppied b startingTile = true.
Proof. unfold isTileOcuppied. rewrite start_piece. reflexivity. Qed.

Lemma start_not_enemy : isEnemyOf b player startingTile = false.
Proof.
  unfold isEnemyOf, tileBelongsToPlayer, player. rewrite start_piece.
  rewrite Player_eqb_refl. apply andb_false_r.
Qed.

Lemma enemy_occupied t : isEnemyOf b player t = true -> isTileOcuppied b t = true.
Proof. unfold isEnemyOf. intros H. apply andb_true_iff in H. apply H. Qed.

Lemma empty_unoccupied t : getPiece b t = None <-> isTileOcuppied b t = false.
Proof. unfold isTileOcuppied. destruct (getPiece b t); split; congruence. Qed.

Lemma empty_not_enemy t : getPiece b t = None -> isEnemyOf b player t = false.
Proof. unfold isEnemyOf, isTileOcuppied. intros ->. reflexivity. Qed.

(** What the search knows about the last tile of the path in each state. *)
Lemma lastStep_enemy rest d enemy :
  enemy = stepFrom d (last rest startingTile) ->
  lastStep getColumn (startingTile :: rest ++ [enemy]) = Some (fst d)
  /\ lastStep getRow (startingTile :: rest ++ [enemy]) = Some (snd d).
Proof.
  intros He. unfold lastStep.
  rewrite app_comm_cons, atBack_one.
  rewrite (snoc_split rest startingTile), <- app_assoc. simpl app.
  rewrite atBack_two. subst enemy. simpl. split; f_equal; lia.
Qed.

Lemma landing_after_enemy rest d enemy landing :
  enemy = stepFrom d (last rest startingTile) ->
  In d (getDirections piece) ->
  In landing (getAdjacentLandings b startingTile enemy piece
                (lastStep getColumn (startingTile :: rest ++ [enemy]))
                (lastStep getRow (startingTile :: rest ++ [enemy]))) ->
  landing = stepFrom d enemy /\ In landing getTiles
  /\ (isTileOcuppied b landing = false \/ landing = startingTile).
Proof.
  intros He Hd H. destruct (lastStep_enemy rest He) as [Ex Ey].
  rewrite Ex, Ey in H. apply in_getAdjacentLandings in H.
  destruct H as [d' [Hd' [Hx [Hy [Hl [Hb Ho]]]]]].
  specialize (Hx _ eq_refl). specialize (Hy _ eq_refl).
  assert (d' = d) by (destruct d, d'; simpl in *; congruence).
  subst d'. auto.
Qed.

Theorem visited_shape p : visited b startingTile piece p -> shape b startingTile piece p /\ NoDup p.
Proof.
  induction 1 as [ | p from landing Hv [IH Hnd] Hfrom Hfirst Hin
                   | p from landing Hv [IH Hnd] Hfrom Hcap Hin Hnew
                   | p from enemy Hv [IH Hnd] Hfrom Hlook Hin Hnew ].
  - split; [constructor | ]. constructor; [intros [] | constructor].
  - (* first move *)
    unfold isFirstMove in Hfirst. apply Nat.eqb_eq in Hfirst.
    assert (p = [startingTile] /\ from = startingTile) as [-> ->].
    { destruct IH as [ | d l | rest Hj Hne | rest d e Hj]; simpl in Hfirst.
      - rewrite atBack_cons in Hfrom. simpl in Hfrom. split; congruence.
      - discriminate.
      - destruct rest; [congruence | discriminate].
      - rewrite length_app in Hfirst. simpl in Hfirst. lia. }
    apply in_getAdjacentLandings in Hin.
    destruct Hin as [d [Hd [_ [_ [Hl [Hb Ho]]]]]].
    assert (Hneq : landing <> startingTile)
      by (rewrite Hl; apply stepFrom_neq with piece; assumption).
    split.
    + apply shape_simple with d; auto.
      apply empty_unoccupied. destruct Ho; [assumption | contradiction].
    + apply NoDup_snoc; [assumption | ]. intros [E | []]. congruence.
  - (* landing after an enemy *)
    unfold isPotentialCapture in Hcap. apply andb_true_iff in Hcap.
    destruct Hcap as [Hocc Hlen]. apply Nat.ltb_lt in Hlen.
    assert (Hnin : ~ In landing p) by (apply includes_not_In; assumption).
    split; [ | apply NoDup_snoc; assumption].
    destruct IH as [ | d l Hd Hl He Hb | rest Hj Hne | rest d e Hj Hd He Hen Hb].
    + simpl in Hlen. lia.
    + rewrite atBack_cons in Hfrom. simpl in Hfrom. injection Hfrom as <-.
      apply empty_unoccupied in He. congruence.
    + rewrite atBack_cons in Hfrom. injection Hfrom as <-.
      apply jumps_last_empty in Hj; [ | assumption].
      apply empty_unoccupied in Hj. congruence.
    + rewrite app_comm_cons, atBack_one in Hfrom. injection Hfrom as <-.
      apply landing_after_enemy with (d := d) in Hin; [ | assumption | assumption].
      destruct Hin as [Hl [Hbl Ho]].
      assert (Hempty : getPiece b landing = None).
      { apply empty_unoccupied. destruct Ho as [Ho | Ho]; [assumption | ].
        elim Hnin. rewrite Ho. left. reflexivity. }
      simpl. rewrite <- app_assoc. simpl.
      apply shape_landed.
      * apply jumps_snoc with d; auto.
      * destruct rest; discriminate.
  - (* an enemy next to the current tile *)
    assert (Hnin : ~ In enemy p) by (apply includes_not_In; assumption).
    split; [ | apply NoDup_snoc; assumption].
    apply in_getAdjacentEnemies in Hin.
    destruct Hin as [d [Hd [He [Hb [Hocc Hown]]]]].
    assert (Hen : isEnemyOf b player enemy = true).
    { unfold isEnemyOf, player. rewrite Hocc, Hown. reflexivity. }
    unfold canLookForEnemies in Hlook.
    destruct IH as [ | d0 l Hd0 Hl Hem Hbl | rest Hj Hne | rest d0 e Hj Hd0 He0 Hen0 Hb0].
    + rewrite atBack_cons in Hfrom. simpl in Hfrom. injection Hfrom as <-.
      apply (shape_enemy (rest := [])) with d; auto. constructor.
    + simpl in Hlook. rewrite andb_false_r in Hlook. simpl in Hlook.
      rewrite andb_false_r in Hlook. discriminate.
    + rewrite atBack_cons in Hfrom. injection Hfrom as <-.
      simpl. apply shape_enemy with d; auto.
    + rewrite app_comm_cons, atBack_one in Hfrom. injection Hfrom as <-.
      apply enemy_occupied in Hen0. rewrite Hen0 in Hlook. simpl in Hlook.
      apply andb_true_iff in Hlook. destruct Hlook as [_ Hlen].
      apply Nat.eqb_eq in Hlen. rewrite length_app in Hlen. simpl in Hlen. lia.
Qed.

Theorem recorded_pathShape p : recorded b startingTile piece p -> pathShape b startingTile piece p.
Proof.
  intros [p0 from landing Hv Hfrom Hcap Hin Hinc Hl Hlen | p0 from Hv Hfrom Hocc];
    apply visited_shape in Hv; destruct Hv as [Hs Hnd].
  - unfold isPotentialCapture in Hcap. apply andb_true_iff in Hcap.
    destruct Hcap as [Hocc _].
    destruct Hs as [ | d l Hd Hl' He Hb | rest Hj Hne | rest d e Hj Hd He Hen Hb].
    + simpl in Hlen. lia.
    + simpl in Hlen. lia.
    + rewrite atBack_cons in Hfrom. injection Hfrom as <-.
      apply jumps_last_empty in Hj; [ | assumption].
      apply empty_unoccupied in Hj. congruence.
    + rewrite app_comm_cons, atBack_one in Hfrom. injection Hfrom as <-.
      apply landing_after_enemy with (d := d) in Hin; [ | assumption | assumption].
      destruct Hin as [Hl' _]. clear Hinc. subst landing.
      simpl. rewrite <- app_assoc. simpl. rewrite Hl.
      apply path_cycle with d; auto.
      destruct rest; [simpl in Hlen; lia | discriminate].
  - destruct Hs as [ | d l Hd Hl He Hb | rest Hj Hne | rest d e Hj Hd He Hen Hb].
    + rewrite atBack_cons in Hfrom. simpl in Hfrom. injection Hfrom as <-. rewrite start_occupied in Hocc. discriminate.
    + apply path_simple with d; auto.
    + apply path_chain; auto.
    + rewrite app_comm_cons, atBack_one in Hfrom. injection Hfrom as <-.
      apply enemy_occupied in Hen. congruence.
Qed.

End Shape.

Lemma NoDup_removelast {A : Type} (l : list A) : NoDup l -> NoDup (removelast l).
Proof.
  destruct l as [ | x l]; [intros; constructor | ].
  intros H. rewrite (app_removelast_last x) in H by discriminate.
  apply NoDup_app_remove_r in H. assumption.
Qed.

Section Paths.

Variable b : Board.
Variable startingTile : Tile.
Variable piece : Piece.
Hypothesis start_piece : getPiece b startingTile = Some piece.
Hypothesis start_in : In startingTile getTiles.

Let player := getOwner piece.

Lemma landing_not_enemy closing landing (rest : list Tile) :
  getPiece b landing = None
  \/ (closing = true /\ landing = startingTile /\ rest = []) ->
  isEnemyOf b player landing = false.
Proof.
  intros [H | [_ [-> _]]].
  - apply empty_not_enemy. assumption.
  - apply start_not_enemy. assumption.
Qed.

Lemma pathShape_jumps p :
  pathShape b startingTile piece p ->
  (exists landing, p = [startingTile; landing] /\ getPiece b landing = None)
  \/ (exists rest, p = startingTile :: rest /\ rest <> []
                   /\ jumps b startingTile piece true startingTile rest).
Proof.
  intros [d l Hd Hl He Hb | rest Hj Hne Hnd | rest d e Hj Hne Hd He Hs Hen Hb Hnd].
  - left. eauto.
  - right. exists rest. auto using jumps_weaken.
  - right. exists (rest ++ [e; startingTile]). repeat split.
    + destruct rest; discriminate.
    + apply jumps_snoc with d; auto.
Qed.

(** First and last tile of a recorded path. *)
Lemma pathShape_ends p :
  pathShape b startingTile piece p ->
  nth_error p 0 = Some startingTile
  /\ exists l, atBack p 1 = Some l
               /\ (isTileOcuppied b l = false
                   \/ (l = startingTile /\ (2 < length (removelast p))%nat)).
Proof.
  intros [d l Hd Hl He Hb | rest Hj Hne Hnd | rest d e Hj Hne Hd He Hs Hen Hb Hnd];
    (split; [reflexivity | ]).
  - exists l. split; [reflexivity | ]. left. apply empty_unoccupied. assumption.
  - exists (last rest startingTile). split; [apply atBack_cons | ].
    left. apply empty_unoccupied. apply (jumps_last_empty Hj Hne).
  - exists startingTile. split.
    + change (startingTile :: rest ++ [e; startingTile])
        with ((startingTile :: rest) ++ [e; startingTile]).
      replace ((startingTile :: rest) ++ [e; startingTile])
        with (((startingTile :: rest) ++ [e]) ++ [startingTile])
        by (rewrite <- app_assoc; reflexivity).
      apply atBack_one.
    + right. split; [reflexivity | ].
      change (startingTile :: rest ++ [e; startingTile])
        with ((startingTile :: rest) ++ [e; startingTile]).
      replace ((startingTile :: rest) ++ [e; startingTile])
        with (((startingTile :: rest) ++ [e]) ++ [startingTile])
        by (rewrite <- app_assoc; reflexivity).
      rewrite removelast_last. rewrite length_app. simpl.
      destruct rest; [congruence | simpl; lia].
Qed.

(** No tile is repeated, apart from the closing return to the start. *)
Lemma pathShape_NoDup p :
  pathShape b startingTile piece p ->
  NoDup (removelast p) /\ (atBack p 1 <> Some startingTile -> NoDup p).
Proof.
  intros [d l Hd Hl He Hb | rest Hj Hne Hnd | rest d e Hj Hne Hd He Hs Hen Hb Hnd].
  - split.
    + simpl. constructor; [intros [] | constructor].
    + intros _. constructor; [ | constructor; [intros [] | constructor]].
      intros [E | []]. revert E. rewrite Hl.
      apply stepFrom_neq with piece. assumption.
  - split; [apply NoDup_removelast; assumption | intros _; assumption].
  - change (startingTile :: rest ++ [e; startingTile])
      with ((startingTile :: rest) ++ [e; startingTile]).
    replace ((startingTile :: rest) ++ [e; startingTile])
      with (((startingTile :: rest) ++ [e]) ++ [startingTile])
      by (rewrite <- app_assoc; reflexivity).
    split.
    + rewrite removelast_last. assumption.
    + intros H. elim H. apply atBack_one.
Qed.

(** A jump keeps its direction over the jumped piece. *)
Lemma jumps_direction closing x rest :
  jumps b startingTile piece closing x rest ->
  forall i e,
    nth_error (x :: rest) (S i) = Some e -> isEnemyOf b player e = true ->
    exists prev next,
      nth_error (x :: rest) i = Some prev
      /\ nth_error (x :: rest) (S (S i)) = Some next
      /\ getColumn next - getColumn e = getColumn e - getColumn prev
      /\ getRow next - getRow e = getRow e - getRow prev.
Proof.
  induction 1 as [x | x d en l rest Hd He Hl Hen Hbe Hbl Hf H IH]; intros i e Hn Henemy.
  - destruct i; discriminate.
  - destruct i as [ | [ | i]]; simpl in Hn.
    + injection Hn as <-. exists x, l. repeat split.
      * subst. simpl. lia.
      * subst. simpl. lia.
    + injection Hn as <-. apply landing_not_enemy in Hf.
      fold player in Henemy. congruence.
    + destruct (IH i e Hn Henemy) as [prev [next [H1 [H2 H3]]]].
      exists prev, next. auto.
Qed.

Lemma pathShape_direction p :
  pathShape b startingTile piece p ->
  forall i e,
    nth_error p (S i) = Some e -> isEnemyOf b player e = true ->
    exists prev next,
      nth_error p i = Some prev
      /\ nth_error p (S (S i)) = Some next
      /\ getColumn next - getColumn e = getColumn e - getColumn prev
      /\ getRow next - getRow e = getRow e - getRow prev.
Proof.
  intros H i e Hn Hen. apply pathShape_jumps in H.
  destruct H as [[l [-> He]] | [rest [-> [Hne Hj]]]].
  - destruct i as [ | [ | i]]; simpl in Hn; try discriminate.
    injection Hn as <-. apply (@empty_not_enemy b piece) in He. fold player in He.
    congruence.
  - apply jumps_direction with true; assumption.
Qed.

(** The captured tiles are the enemy tiles of the path, which are the tiles
    at its odd interior positions. *)
Lemma jumps_captures closing x rest :
  jumps b startingTile piece closing x rest ->
  filter (isEnemyOf b player) rest = oddInterior (x :: rest)
  /\ Forall (fun t => isEnemyOf b player t = true) (oddInterior (x :: rest)).
Proof.
  induction 1 as [x | x d en l rest Hd He Hl Hen Hbe Hbl Hf H [IH1 IH2]].
  - split; [reflexivity | constructor].
  - apply landing_not_enemy in Hf.
    change (oddInterior (x :: en :: l :: rest)) with (en :: oddInterior (l :: rest)).
    simpl filter. fold player in Hen. rewrite Hen, Hf. split.
    + f_equal. assumption.
    + constructor; assumption.
Qed.

Lemma pathShape_captures p :
  pathShape b startingTile piece p ->
  getCapturesForPath b p player = oddInterior p
  /\ Forall (fun t => isEnemyOf b player t = true) (getCapturesForPath b p player)
  /\ ((2 <? length p)%nat = (0 <? length (getCapturesForPath b p player))%nat)
  /\ (2 <= length p)%nat.
Proof.
  intros H. apply pathShape_jumps in H.
  assert (Hs : isEnemyOf b player startingTile = false)
    by (apply start_not_enemy; assumption).
  change (getCapturesForPath b p player) with (filter (isEnemyOf b player) p).
  destruct H as [[l [-> He]] | [rest [-> [Hne Hj]]]].
  - apply (@empty_not_enemy b piece) in He. fold player in He.
    simpl. rewrite Hs, He. repeat split; auto.
  - pose proof (jumps_captures Hj) as [H1 H2].
    simpl filter. rewrite Hs, H1. repeat split; auto.
    + inversion Hj; subst; [congruence | reflexivity].
    + destruct rest; [congruence | simpl; lia].
Qed.

(** Every path the search records has the shape above. *)
Theorem setPathsDFS_pathShape fuel paths out :
  setPathsDFS fuel b startingTile startingTile piece [] paths = Some out ->
  extends (pathShape b startingTile piece) paths out.
Proof.
  intros H. apply setPathsDFS_sound in H; [ | constructor].
  destruct H as [added [-> H]]. exists added. split; [reflexivity | ].
  revert H. apply Forall_impl. intros p. apply recorded_pathShape; assumption.
Qed.

End Paths.

(** The search started on a tile of the board that holds [piece] returns, and
    what it appends to [possiblePaths] are paths of the shape above. *)
Lemma setPathsDFS_result (b : Board) (source : Tile) (piece : Piece)
    (paths : list (list Tile)) :
  In source getTiles -> getPiece b source = Some piece ->
  exists added,
    setPathsDFS boardFuel b source source piece [] paths = Some (paths ++ added)
    /\ Forall (pathShape b source piece) added.
Proof.
  intros Hin Hp.
  destruct (setPathsDFS_total b piece paths Hin) as [out H].
  rewrite H. apply setPathsDFS_pathShape in H; try assumption.
  destruct H as [added [-> Hs]].
  exists added. split; [reflexivity | assumption].
Qed.

(** On the fresh board the pawn on (2,0) has one path, the step to (3,1). *)
Example search_fresh_pawn :
  setPathsDFS boardFuel newBoard (mkTile 2 0) (mkTile 2 0) (mkPiece blue pawn) [] []
  = Some [[mkTile 2 0; mkTile 3 1]].
Proof. vm_compute. reflexivity. Qed.

(** The queen of [loopBoard] has two simple steps and, in each sense of
    rotation, the jump chain around the loop with each of its stops and the
    return to (2,2). *)
Example search_loop :
  setPathsDFS boardFuel loopBoard (mkTile 2 2) (mkTile 2 2) (mkPiece blue queen) [] []
  = Some
      [ [mkTile 2 2; mkTile 1 3]; [mkTile 2 2; mkTile 1 1];
        [mkTile 2 2; mkTile 3 3; mkTile 4 4; mkTile 5 3; mkTile 6 2;
         mkTile 5 1; mkTile 4 0; mkTile 3 1; mkTile 2 2];
        [mkTile 2 2; mkTile 3 3; mkTile 4 4; mkTile 5 3; mkTile 6 2;
         mkTile 5 1; mkTile 4 0];
        [mkTile 2 2; mkTile 3 3; mkTile 4 4; mkTile 5 3; mkTile 6 2];
        [mkTile 2 2; mkTile 3 3; mkTile 4 4];
        [mkTile 2 2; mkTile 3 1; mkTile 4 0; mkTile 5 1; mkTile 6 2;
         mkTile 5 3; mkTile 4 4; mkTile 3 3; mkTile 2 2];
        [mkTile 2 2; mkTile 3 1; mkTile 4 0; mkTile 5 1; mkTile 6 2;
         mkTile 5 3; mkTile 4 4];
        [mkTile 2 2; mkTile 3 1; mkTile 4 0; mkTile 5 1; mkTile 6 2];
        [mkTile 2 2; mkTile 3 1; mkTile 4 0] ].
Proof. vm_compute. reflexivity. Qed.

(** C1: every path recorded by [setPathsDFS(source, source, piece)], on a
    board where [source] holds [piece], starts at [source]; its last tile is
    unoccupied, or it is [source] itself and the path before that last entry
    has more than two entries (the cyclic return).  The search returns. *)
Theorem setPathsDFS_path_ends (b : Board) (source : Tile) (piece : Piece)
    (paths : list (list Tile)) :
  In source getTiles -> getPiece b source = Some piece ->
  exists added,
    setPathsDFS boardFuel b source source piece [] paths = Some (paths ++ added)
    /\ forall p, In p added ->
         nth_error p 0 = Some source
         /\ exists l, atBack p 1 = Some l
              /\ (isTileOcuppied b l = false
                  \/ (l = source /\ (2 < length (removelast p))%nat)).
Proof.
  intros Hin Hp. destruct (@setPathsDFS_result b source piece paths Hin Hp) as [added [E Hs]].
  exists added. split; [assumption | ]. intros p Hp'.
  rewrite Forall_forall in Hs. apply pathShape_ends with piece; auto.
Qed.

Lemma setPathsDFS_path_ends_witness :
  exists added,
    setPathsDFS boardFuel loopBoard (mkTile 2 2) (mkTile 2 2) (mkPiece blue queen) [] []
    = Some ([] ++ added)
    /\ forall p, In p added ->
         nth_error p 0 = Some (mkTile 2 2)
         /\ exists l, atBack p 1 = Some l
              /\ (isTileOcuppied loopBoard l = false
                  \/ (l = mkTile 2 2 /\ (2 < length (removelast p))%nat)).
Proof.
  apply setPathsDFS_path_ends.
  - apply (proj1 (includes_In getTiles _)). reflexivity.
  - reflexivity.
Defined.

(** C2: in a recorded path no tile appears twice, except that a cyclic-return
    path ends on the source tile it starts with; without that last entry its
    tiles are pairwise distinct as well. *)
Theorem setPathsDFS_path_NoDup (b : Board) (source : Tile) (piece : Piece)
    (paths : list (list Tile)) :
  In source getTiles -> getPiece b source = Some piece ->
  exists added,
    setPathsDFS boardFuel b source source piece [] paths = Some (paths ++ added)
    /\ forall p, In p added ->
         (atBack p 1 <> Some source -> NoDup p)
         /\ (atBack p 1 = Some source -> nth_error p 0 = Some source /\ NoDup (removelast p)).
Proof.
  intros Hin Hp. destruct (@setPathsDFS_result b source piece paths Hin Hp) as [added [E Hs]].
  exists added. split; [assumption | ]. intros p Hp'.
  rewrite Forall_forall in Hs. specialize (Hs p Hp').
  destruct (pathShape_NoDup Hs) as [H1 H2].
  destruct (pathShape_ends Hs) as [H3 _]. auto.
Qed.

Lemma setPathsDFS_path_NoDup_witness :
  exists added,
    setPathsDFS boardFuel loopBoard (mkTile 2 2) (mkTile 2 2) (mkPiece blue queen) [] []
    = Some ([] ++ added)
    /\ forall p, In p added ->
         (atBack p 1 <> Some (mkTile 2 2) -> NoDup p)
         /\ (atBack p 1 = Some (mkTile 2 2) ->
             nth_error p 0 = Some (mkTile 2 2) /\ NoDup (removelast p)).
Proof.
  apply setPathsDFS_path_NoDup.
  - apply (proj1 (includes_In getTiles _)). reflexivity.
  - reflexivity.
Defined.

(** C3: in a recorded path, every tile at a position [i >= 1] that holds an
    enemy piece is followed by a landing tile, and the step from the enemy to
    the landing has the same column and row delta as the step from the tile
    before to the enemy. *)
Theorem setPathsDFS_jump_straight (b : Board) (source : Tile) (piece : Piece)
    (paths : list (list Tile)) :
  In source getTiles -> getPiece b source = Some piece ->
  exists added,
    setPathsDFS boardFuel b source source piece [] paths = Some (paths ++ added)
    /\ forall p i enemy,
         In p added -> nth_error p (S i) = Some enemy ->
         isEnemyOf b (getOwner piece) enemy = true ->
         exists prev landing,
           nth_error p i = Some prev
           /\ nth_error p (S (S i)) = Some landing
           /\ getColumn landing - getColumn enemy = getColumn enemy - getColumn prev
           /\ getRow landing - getRow enemy = getRow enemy - getRow prev.
Proof.
  intros Hin Hp. destruct (@setPathsDFS_result b source piece paths Hin Hp) as [added [E Hs]].
  exists added. split; [assumption | ]. intros p i enemy Hp' Hn He.
  rewrite Forall_forall in Hs.
  eapply pathShape_direction; eauto.
Qed.

Lemma setPathsDFS_jump_straight_witness :
  exists added,
    setPathsDFS boardFuel loopBoard (mkTile 2 2) (mkTile 2 2) (mkPiece blue queen) [] []
    = Some ([] ++ added)
    /\ forall p i enemy,
         In p added -> nth_error p (S i) = Some enemy ->
         isEnemyOf loopBoard blue enemy = true ->
         exists prev landing,
           nth_error p i = Some prev
           /\ nth_error p (S (S i)) = Some landing
           /\ getColumn landing - getColumn enemy = getColumn enemy - getColumn prev
           /\ getRow landing - getRow enemy = getRow enemy - getRow prev.
Proof.
  apply (@setPathsDFS_jump_straight loopBoard (mkTile 2 2) (mkPiece blue queen) []).
  - apply (proj1 (includes_In getTiles _)). reflexivity.
  - reflexivity.
Defined.

(** * The move scratch state computed for a source tile *)

Unset Implicit Arguments.
Arguments setPathsDFS : simpl never.
Opaque getTiles.

Lemma withMove_move s : withMove (move s) s = s.
Proof. destruct s; reflexivity. Qed.

Lemma resetMove_withMove m s : resetMove (withMove m s) = resetMove s.
Proof. reflexivity. Qed.

Lemma occupied_of_belongs b tile player :
  tileBelongsToPlayer b tile player = true -> isTileOcuppied b tile = true.
Proof.
  unfold tileBelongsToPlayer, isTileOcuppied. destruct (getPiece b tile); congruence.
Qed.

Lemma searchFrom_pathShape b tile piece :
  In tile getTiles -> getPiece b tile = Some piece ->
  setPathsDFS boardFuel b tile tile piece [] [] = Some (searchFrom b tile)
  /\ Forall (pathShape b tile piece) (searchFrom b tile).
Proof.
  intros Hin Hp. destruct (@setPathsDFS_result b tile piece [] Hin Hp) as [added [E Hs]].
  unfold searchFrom. rewrite Hp, E. simpl. auto.
Qed.

Lemma setFrom_reset v tile player s :
  In tile getTiles -> isTileOcuppied (board s) tile = true ->
  setFrom v tile player (resetMove s)
  = withMove (searchedMove v (board s) player tile) s.
Proof.
  intros Hin Hocc. unfold isTileOcuppied in Hocc.
  destruct (getPiece (board s) tile) as [piece | ] eqn:Hp; [ | discriminate].
  destruct (searchFrom_pathShape (board s) tile piece Hin Hp) as [E _].
  unfold setFrom, searchedMove, destinationsFrom, runPathsDFS, setValidDestinations,
    pushValidDestinations, setPossiblePaths, setMoveFrom, resetMove, getCurrentMove,
    withMove.
  simpl. rewrite Hp. simpl. rewrite E. reflexivity.
Qed.

Lemma simulateFrom_step player s t fwc fwd :
  In t getTiles -> isTileOcuppied (board s) t = true ->
  simulateFrom player (resetMove s, fwc, fwd) t
  = (resetMove s,
     fwc ++ (if hasCaptureDestination (board s) player t then [t] else []),
     fwd ++ (if hasDestination (board s) player t then [t] else [])).
Proof.
  intros Hin Hocc. unfold simulateFrom.
  rewrite setFrom_reset by assumption.
  rewrite resetMove_withMove.
  change (validDestinations (getCurrentMove
            (withMove (searchedMove BonusGame (board s) player t) s)))
    with (destinationsFrom BonusGame (board s) player t).
  fold (hasCaptureDestination (board s) player t).
  fold (hasDestination (board s) player t).
  destruct (hasCaptureDestination (board s) player t);
    destruct (hasDestination (board s) player t);
    rewrite ?app_nil_r; reflexivity.
Qed.

Lemma simulateFrom_fold player s (l : list Tile) :
  Forall (fun t => In t getTiles /\ isTileOcuppied (board s) t = true) l ->
  forall fwc fwd,
    fold_left (simulateFrom player) l (resetMove s, fwc, fwd)
    = (resetMove s,
       fwc ++ filter (hasCaptureDestination (board s) player) l,
       fwd ++ filter (hasDestination (board s) player) l).
Proof.
  induction 1 as [ | t l [Hin Hocc] Hl IH]; intros fwc fwd.
  - simpl. rewrite !app_nil_r. reflexivity.
  - cbn [fold_left filter]. rewrite simulateFrom_step by assumption.
    rewrite IH.
    destruct (hasCaptureDestination (board s) player t);
      destruct (hasDestination (board s) player t);
      rewrite <- ?app_assoc, ?app_nil_r; reflexivity.
Qed.

Lemma tilesOf_In b player t :
  In t (tilesOf b player) <-> In t getTiles /\ tileBelongsToPlayer b t player = true.
Proof. unfold tilesOf. apply filter_In. Qed.

Lemma isFromValid_BonusGame tile player s :
  isFromValid BonusGame tile player s
  = if tileBelongsToPlayer (board s) tile player then
      let fwc := filter (hasCaptureDestination (board s) player) (tilesOf (board s) player) in
      let fwd := filter (hasDestination (board s) player) (tilesOf (board s) player) in
      (if (length fwc =? 0)%nat then includes fwd tile else includes fwc tile, resetMove s)
    else (false, s).
Proof.
  unfold isFromValid. destruct (tileBelongsToPlayer (board s) tile player); [ | reflexivity].
  change (board (resetMove s)) with (board s).
  rewrite simulateFrom_fold.
  - cbn [app].
    destruct (length (filter (hasCaptureDestination (board s) player)
                             (tilesOf (board s) player)) =? 0)%nat; reflexivity.
  - apply Forall_forall. intros t Ht. apply tilesOf_In in Ht.
    destruct Ht as [Hin Hb]. split; [assumption | ].
    apply occupied_of_belongs with player. assumption.
Qed.

Lemma isFromValid_BaseGame tile player s :
  In tile getTiles ->
  isFromValid BaseGame tile player s
  = if tileBelongsToPlayer (board s) tile player then
      (negb (length (destinationsFrom BaseGame (board s) player tile) =? 0)%nat, resetMove s)
    else (false, s).
Proof.
  intros Hin. unfold isFromValid.
  destruct (tileBelongsToPlayer (board s) tile player) eqn:Hb; [ | reflexivity].
  pose proof (occupied_of_belongs _ _ _ Hb) as Hocc.
  pose proof (setFrom_reset BaseGame tile player s Hin Hocc) as E.
  unfold setFrom in E. change (board (resetMove s)) with (board s).
  change (board (setMoveFrom tile (resetMove s))) with (board s) in E.
  unfold isTileOcuppied in Hocc.
  destruct (getPiece (board s) tile) as [piece | ]; [ | discriminate].
  rewrite E. reflexivity.
Qed.

(** In both games [isFromValid] leaves the state alone or resets the move,
    and accepts only tiles of the player. *)
Lemma isFromValid_state v tile player s :
  In tile getTiles ->
  snd (isFromValid v tile player s)
  = if tileBelongsToPlayer (board s) tile player then resetMove s else s.
Proof.
  intros Hin. destruct v.
  - rewrite isFromValid_BaseGame by assumption.
    destruct (tileBelongsToPlayer (board s) tile player); reflexivity.
  - rewrite isFromValid_BonusGame.
    destruct (tileBelongsToPlayer (board s) tile player); reflexivity.
Qed.

Lemma isFromValid_belongs v tile player s :
  In tile getTiles ->
  fst (isFromValid v tile player s) = true ->
  tileBelongsToPlayer (board s) tile player = true.
Proof.
  intros Hin. destruct v.
  - rewrite isFromValid_BaseGame by assumption.
    destruct (tileBelongsToPlayer (board s) tile player); [reflexivity | simpl; congruence].
  - rewrite isFromValid_BonusGame.
    destruct (tileBelongsToPlayer (board s) tile player); [reflexivity | simpl; congruence].
Qed.

(** * The forced-capture variant *)

Lemma existsb_map {A B : Type} (f : B -> bool) (g : A -> B) (l : list A) :
  existsb f (map g l) = existsb (fun x => f (g x)) l.
Proof. induction l as [ | x l IH]; simpl; [ | rewrite IH]; reflexivity. Qed.

Lemma existsb_ext_in {A : Type} (f g : A -> bool) (l : list A) :
  (forall x, In x l -> f x = g x) -> existsb f l = existsb g l.
Proof.
  induction l as [ | x l IH]; intros H; simpl; [reflexivity | ].
  rewrite H by (left; reflexivity). rewrite IH; [reflexivity | ].
  intros y Hy. apply H. right. assumption.
Qed.

Lemma existsb_filter_same {A : Type} (f : A -> bool) (l : list A) :
  existsb f (filter f l) = existsb f l.
Proof.
  induction l as [ | x l IH]; simpl; [reflexivity | ].
  destruct (f x) eqn:E; simpl; [rewrite E | ]; auto.
Qed.

Lemma belongs_piece b tile player :
  tileBelongsToPlayer b tile player = true ->
  exists piece, getPiece b tile = Some piece /\ getOwner piece = player.
Proof.
  unfold tileBelongsToPlayer. destruct (getPiece b tile) as [piece | ]; [ | discriminate].
  intros H. apply Player_eqb_eq in H. eauto.
Qed.

(** A path of the player's piece is longer than 2 exactly when it captures. *)
Lemma searchFrom_captures b player tile path :
  In tile (tilesOf b player) -> In path (searchFrom b tile) ->
  (0 <? length (getCapturesForPath b path player))%nat = (2 <? length path)%nat
  /\ (2 <= length path)%nat.
Proof.
  intros Ht Hp. apply tilesOf_In in Ht. destruct Ht as [Hin Hb].
  apply belongs_piece in Hb. destruct Hb as [piece [Hpc <-]].
  destruct (searchFrom_pathShape b tile piece Hin Hpc) as [_ Hs].
  rewrite Forall_forall in Hs. specialize (Hs path Hp).
  destruct (pathShape_captures Hpc Hin Hs) as [_ [_ [E L]]]. auto.
Qed.

Lemma validPaths_incl v paths path : In path (validPaths v paths) -> In path paths.
Proof.
  destruct v; simpl.
  - rewrite filter_In. tauto.
  - destruct (existsb (fun p => (2 <? length p)%nat) paths); [ | tauto].
    rewrite filter_In. tauto.
Qed.

Lemma hasCaptureDestination_eq b player tile :
  In tile (tilesOf b player) ->
  hasCaptureDestination b player tile = hasCapturingPath b tile.
Proof.
  intros Ht. unfold hasCaptureDestination, destinationsFrom, hasCapturingPath.
  rewrite existsb_map. simpl captures.
  rewrite existsb_ext_in with (g := fun p => (2 <? length p)%nat).
  - simpl. destruct (existsb (fun p => (2 <? length p)%nat) (searchFrom b tile)) eqn:E.
    + rewrite existsb_filter_same. assumption.
    + assumption.
  - intros p Hp. apply validPaths_incl in Hp.
    destruct (searchFrom_captures b player tile p Ht Hp) as [E _]. exact E.
Qed.

Lemma includes_filter (f : Tile -> bool) (l : list Tile) (tile : Tile) :
  includes (filter f l) tile = f tile && includes l tile.
Proof.
  destruct (f tile && includes l tile) eqn:E.
  - apply andb_true_iff in E. destruct E as [E1 E2].
    apply includes_In. apply filter_In. split; [ | assumption].
    apply includes_In. assumption.
  - apply includes_not_In. intros H. apply filter_In in H. destruct H as [H1 H2].
    apply includes_In in H1. rewrite H1, H2 in E. discriminate.
Qed.

Lemma filter_nil_existsb {A : Type} (f : A -> bool) (l : list A) :
  (length (filter f l) =? 0)%nat = negb (existsb f l).
Proof.
  induction l as [ | x l IH]; [reflexivity | ].
  cbn [filter existsb]. destruct (f x); [reflexivity | exact IH].
Qed.

(** What [BonusGame.isFromValid] answers. *)
Lemma isFromValid_BonusGame_fst tile player s :
  In tile getTiles ->
  fst (isFromValid BonusGame tile player s)
  = tileBelongsToPlayer (board s) tile player
    && (if existsb (hasCapturingPath (board s)) (tilesOf (board s) player)
        then hasCapturingPath (board s) tile
        else hasDestination (board s) player tile).
Proof.
  intros Hin. rewrite isFromValid_BonusGame.
  destruct (tileBelongsToPlayer (board s) tile player) eqn:Hb; [ | reflexivity].
  cbv zeta. cbn [fst andb].
  assert (Ht : In tile (tilesOf (board s) player)) by (apply tilesOf_In; auto).
  rewrite filter_nil_existsb, !includes_filter.
  rewrite (proj2 (includes_In _ _) Ht), !andb_true_r.
  rewrite hasCaptureDestination_eq by assumption.
  rewrite existsb_ext_in with (g := hasCapturingPath (board s)).
  - destruct (existsb (hasCapturingPath (board s)) (tilesOf (board s) player));
      reflexivity.
  - intros t. apply hasCaptureDestination_eq.
Qed.

(** The state in which [playGame] leaves an accepted source tile. *)
Lemma setFrom_after_isFromValid v tile player s :
  In tile getTiles -> fst (isFromValid v tile player s) = true ->
  setFrom v tile player (snd (isFromValid v tile player s))
  = withMove (searchedMove v (board s) player tile) s.
Proof.
  intros Hin Ha. pose proof (isFromValid_belongs _ _ _ _ Hin Ha) as Hb.
  rewrite isFromValid_state by assumption. rewrite Hb.
  apply setFrom_reset; [assumption | ].
  apply occupied_of_belongs with player. assumption.
Qed.

(** C4: in the forced-capture game, when some piece of the player has a path
    of length greater than 2, [isFromValid] accepts exactly the player's
    tiles whose piece has such a path, and after [setFrom] on an accepted
    tile every valid destination has a path of length greater than 2;
    otherwise it accepts exactly the player's tiles whose piece has a valid
    destination, and all the paths of the piece are kept as destinations. *)
Theorem BonusGame_forced_capture (s : GameState) (player : Player) (tile : Tile) :
  In tile getTiles ->
  ((exists t, In t (tilesOf (board s) player) /\ hasCapturingPath (board s) t = true) ->
   (fst (isFromValid BonusGame tile player s) = true <->
    tileBelongsToPlayer (board s) tile player = true
    /\ hasCapturingPath (board s) tile = true)
   /\ (fst (isFromValid BonusGame tile player s) = true ->
       forall vd,
         In vd (validDestinations
                  (move (setFrom BonusGame tile player
                           (snd (isFromValid BonusGame tile player s))))) ->
         (2 < length (vdPath vd))%nat))
  /\ (~ (exists t, In t (tilesOf (board s) player)
                   /\ hasCapturingPath (board s) t = true) ->
      (fst (isFromValid BonusGame tile player s) = true <->
       tileBelongsToPlayer (board s) tile player = true
       /\ destinationsFrom BonusGame (board s) player tile <> [])
      /\ (fst (isFromValid BonusGame tile player s) = true ->
          validDestinations
            (move (setFrom BonusGame tile player
                     (snd (isFromValid BonusGame tile player s))))
          = destinationsFrom BonusGame (board s) player tile
          /\ map vdPath (destinationsFrom BonusGame (board s) player tile)
             = searchFrom (board s) tile)).
Proof.
  intros Hin.
  pose proof (isFromValid_BonusGame_fst tile player s Hin) as E.
  pose proof (setFrom_after_isFromValid BonusGame tile player s Hin) as Hs'.
  destruct (fst (isFromValid BonusGame tile player s)) eqn:Ha; symmetry in E.
  - specialize (Hs' eq_refl). rewrite Hs'.
    change (validDestinations (move (withMove (searchedMove BonusGame (board s) player tile) s)))
      with (destinationsFrom BonusGame (board s) player tile).
    apply andb_true_iff in E. destruct E as [Hb E]. split.
    + intros [t [Ht Hcap]].
      assert (Hex : existsb (hasCapturingPath (board s)) (tilesOf (board s) player) = true)
        by (apply existsb_exists; eauto).
      rewrite Hex in E. split; [tauto | ].
      intros _ vd Hvd. unfold destinationsFrom in Hvd. apply in_map_iff in Hvd.
      destruct Hvd as [p [<- Hp]]. cbn [vdPath makeValidDestination].
      unfold hasCapturingPath in E. cbn [validPaths] in Hp. rewrite E in Hp.
      apply filter_In in Hp. destruct Hp as [_ Hp]. apply Nat.ltb_lt. assumption.
    + intros Hno.
      assert (Hex : existsb (hasCapturingPath (board s)) (tilesOf (board s) player) = false).
      { destruct (existsb (hasCapturingPath (board s)) (tilesOf (board s) player)) eqn:X;
          [ | reflexivity].
        apply existsb_exists in X. contradiction. }
      rewrite Hex in E. unfold hasDestination in E. apply Nat.ltb_lt in E.
      assert (Hnocap : hasCapturingPath (board s) tile = false).
      { destruct (hasCapturingPath (board s) tile) eqn:X; [ | reflexivity].
        elim Hno. exists tile. split; [apply tilesOf_In; auto | assumption]. }
      split.
      * split; [ | reflexivity]. intros _. split; [assumption | ].
        intros N. rewrite N in E. cbn [length] in E. lia.
      * intros _. split; [reflexivity | ].
        unfold destinationsFrom. rewrite map_map.
        cbn [vdPath makeValidDestination validPaths].
        unfold hasCapturingPath in Hnocap. rewrite Hnocap. apply map_id.
  - apply andb_false_iff in E. split.
    + intros [t [Ht Hcap]].
      assert (Hex : existsb (hasCapturingPath (board s)) (tilesOf (board s) player) = true)
        by (apply existsb_exists; eauto).
      rewrite Hex in E. split; [ | discriminate]. split; [discriminate | ].
      intros [H1 H2]. destruct E; congruence.
    + intros Hno.
      assert (Hex : existsb (hasCapturingPath (board s)) (tilesOf (board s) player) = false).
      { destruct (existsb (hasCapturingPath (board s)) (tilesOf (board s) player)) eqn:X;
          [ | reflexivity].
        apply existsb_exists in X. contradiction. }
      rewrite Hex in E. split; [ | discriminate]. split; [discriminate | ].
      intros [H1 H2]. destruct E as [E | E]; [congruence | ].
      unfold hasDestination in E. apply Nat.ltb_ge in E.
      destruct (destinationsFrom BonusGame (board s) player tile);
        [congruence | cbn [length] in E; lia].
Qed.

Lemma BonusGame_forced_capture_witness :
  (fst (isFromValid BonusGame (mkTile 2 2) blue loopState) = true <->
   tileBelongsToPlayer (board loopState) (mkTile 2 2) blue = true
   /\ hasCapturingPath (board loopState) (mkTile 2 2) = true)
  /\ (fst (isFromValid BonusGame (mkTile 2 2) blue loopState) = true ->
      forall vd,
        In vd (validDestinations
                 (move (setFrom BonusGame (mkTile 2 2) blue
                          (snd (isFromValid BonusGame (mkTile 2 2) blue loopState))))) ->
        (2 < length (vdPath vd))%nat).
Proof.
  refine (proj1 (BonusGame_forced_capture loopState blue (mkTile 2 2) _) _).
  - apply (proj1 (includes_In getTiles _)). vm_compute. reflexivity.
  - exists (mkTile 2 2). split.
    + apply tilesOf_In. split.
      * apply (proj1 (includes_In getTiles _)). vm_compute. reflexivity.
      * vm_compute. reflexivity.
    + vm_compute. reflexivity.
Defined.

(** * The branches of [playGame] *)

Section Click.
Variable v : Variant.
Variables row column : Z.
Variable s : GameState.

Let player := activePlayer s.

Lemma playGame_click :
  click v row column s (fst (playGame v row column s)) (snd (playGame v row column s)).
Proof.
  unfold playGame. fold player.
  destruct (getTile row column) as [tile | ] eqn:Ht; [ | apply (@click_outside v row column s); assumption].
  destruct (isGameWon s) eqn:Hw; [apply (@click_won v row column s tile); assumption | ].
  destruct (playerHasQueen (board s) player) eqn:Hq; cbn [negb].
  2:{ destruct (isValidQueen (board s) tile player) eqn:Hv.
      - apply (@click_queen v row column s tile); assumption.
      - apply (@click_queen_refused v row column s tile); assumption. }
  unfold isFromSet, isToSet, getCurrentMove.
  destruct (from (move s)) as [fromTile | ] eqn:Hf; cbn [negb andb].
  - destruct (to (move s)) as [toTile | ] eqn:Hto; cbn [negb].
    + apply (@click_to_set v row column s tile fromTile toTile); assumption.
    + destruct (Tile_eqb fromTile tile) eqn:Heq.
      * apply Tile_eqb_eq in Heq. subst fromTile. apply (@click_back v row column s tile); assumption.
      * apply Tile_eqb_neq in Heq.
        destruct (isToValid s tile) eqn:Hv.
        -- apply (@click_to v row column s tile fromTile); assumption.
        -- apply (@click_to_refused v row column s tile fromTile); assumption.
  - destruct (isFromValid v tile player s) as [valid s1] eqn:E.
    assert (E1 : fst (isFromValid v tile player s) = valid) by (rewrite E; reflexivity).
    assert (E2 : snd (isFromValid v tile player s) = s1) by (rewrite E; reflexivity).
    destruct valid.
    + rewrite <- E2. apply (@click_from v row column s tile); assumption.
    + rewrite <- E2. apply (@click_from_refused v row column s tile); assumption.
Qed.

End Click.

(** * Invariants of the reachable game states *)

Lemma Tile_eq_dec (t u : Tile) : {t = u} + {t <> u}.
Proof.
  destruct (Tile_eqb t u) eqn:E.
  - left. apply Tile_eqb_eq. assumption.
  - right. apply Tile_eqb_neq. assumption.
Qed.

Lemma piece_queen_of (piece : Piece) (p : Player) :
  Player_eqb (getOwner piece) p && PieceType_eqb (getType piece) queen = true
  <-> piece = mkPiece p queen.
Proof.
  destruct piece as [o [ | ]], p, o; simpl; split; congruence.
Qed.

Lemma getQueen_Some b p t :
  getQueen b p = Some t -> In t getTiles /\ getPiece b t = Some (mkPiece p queen).
Proof.
  unfold getQueen. intros H. apply find_some in H. destruct H as [Hin H].
  split; [assumption | ].
  destruct (getPiece b t) as [piece | ]; [ | discriminate].
  apply piece_queen_of in H. congruence.
Qed.

Lemma getQueen_None b p t :
  getQueen b p = None -> In t getTiles -> getPiece b t <> Some (mkPiece p queen).
Proof.
  unfold getQueen. intros H Hin Hq.
  apply (find_none _ _ H) in Hin. rewrite Hq in Hin.
  rewrite (proj2 (piece_queen_of (mkPiece p queen) p) eq_refl) in Hin. discriminate.
Qed.

Lemma playerHasQueen_false b p t :
  playerHasQueen b p = false -> In t getTiles -> getPiece b t <> Some (mkPiece p queen).
Proof.
  unfold playerHasQueen. destruct (getQueen b p) eqn:E; [discriminate | ].
  intros _. apply getQueen_None. assumption.
Qed.

Lemma playerHasQueen_true b p t :
  In t getTiles -> getPiece b t = Some (mkPiece p queen) -> playerHasQueen b p = true.
Proof.
  intros Hin Hq. unfold playerHasQueen. destruct (getQueen b p) eqn:E; [reflexivity | ].
  elim (getQueen_None b p t E Hin Hq).
Qed.

Lemma capture_piece caps b t q :
  getPiece (capture caps b) t = Some q -> getPiece b t = Some q.
Proof.
  destruct (in_dec Tile_eq_dec t caps) as [Hin | Hnin].
  - rewrite capture_in by assumption. discriminate.
  - rewrite capture_other by assumption. auto.
Qed.

Lemma movedBoard_piece caps fromTile toTile b x q :
  getPiece (movedBoard caps fromTile toTile b) x = Some q ->
  (x = toTile /\ x <> fromTile /\ getPiece b fromTile = Some q)
  \/ (x <> toTile /\ x <> fromTile /\ getPiece b x = Some q).
Proof.
  unfold movedBoard. intros H.
  destruct (Tile_eq_dec x fromTile) as [-> | Hf].
  - rewrite setPiece_same in H. discriminate.
  - rewrite setPiece_other in H by assumption.
    destruct (Tile_eq_dec x toTile) as [-> | Ht].
    + rewrite setPiece_same in H. apply capture_piece in H. left. auto.
    + rewrite setPiece_other in H by assumption. apply capture_piece in H. right. auto.
Qed.

Lemma isValidQueen_tilesOf b tile player :
  isValidQueen b tile player = true ->
  In tile (getIdlePieceTiles b player) /\ In tile (tilesOf b player).
Proof.
  unfold isValidQueen. intros H. apply existsb_exists in H.
  destruct H as [idle [Hin E]]. apply Tile_eqb_eq in E. subst idle.
  split; [assumption | ]. revert Hin. unfold getIdlePieceTiles. cbv zeta.
  generalize (tilesOf b player). intros l Hin.
  apply (proj1 (filter_In _ _ _)) in Hin. apply Hin.
Qed.

Transparent getTiles.

Lemma newBoard_queens p t :
  In t getTiles -> getPiece newBoard t = Some (mkPiece p queen) ->
  (t = mkTile 0 0 /\ p = blue) \/ (t = mkTile 7 7 /\ p = red).
Proof.
  unfold getTiles. intros H Hq. simpl in H.
  repeat (destruct H as [H | H];
          [ subst t; vm_compute in Hq;
            first [discriminate Hq | injection Hq as <-; auto] | ]).
  contradiction.
Qed.

Opaque getTiles.

Lemma initialState_GameInv v : GameInv v initialState.
Proof.
  constructor; try reflexivity.
  - intros p t1 t2 H1 H2 Q1 Q2.
    destruct (newBoard_queens p t1 H1 Q1) as [[-> ->] | [-> ->]];
      destruct (newBoard_queens _ t2 H2 Q2) as [[-> E] | [-> E]];
      congruence.
  - intros _ p t H Q.
    destruct (newBoard_queens p t H Q) as [[-> ->] | [-> ->]]; simpl; lia.
  - simpl. discriminate.
Qed.

Lemma resetMove_id s : move s = emptyMove -> resetMove s = s.
Proof. destruct s as [b st w m a]. simpl. intros ->. reflexivity. Qed.

Lemma hasPlayerWon_true b p :
  hasPlayerWon b p = true ->
  exists t, getQueen b p = Some t /\ getRow t = winningRow p.
Proof.
  unfold hasPlayerWon. destruct (getQueen b p) as [t | ]; [ | discriminate].
  intros H. apply Z.eqb_eq in H. eauto.
Qed.

(** With at most one queen per player, [hasPlayerWon] sees every queen. *)
Lemma hasPlayerWon_false b p t :
  (forall t1 t2, In t1 getTiles -> In t2 getTiles ->
                 getPiece b t1 = Some (mkPiece p queen) ->
                 getPiece b t2 = Some (mkPiece p queen) -> t1 = t2) ->
  hasPlayerWon b p = false ->
  In t getTiles -> getPiece b t = Some (mkPiece p queen) ->
  getRow t <> winningRow p.
Proof.
  intros Huniq Hw Hin Hq. unfold hasPlayerWon in Hw.
  destruct (getQueen b p) as [t' | ] eqn:E.
  - apply getQueen_Some in E. destruct E as [Hin' Hq'].
    assert (t' = t) by (apply Huniq; assumption). subst t'.
    apply Z.eqb_neq. assumption.
  - elim (getQueen_None b p t E Hin Hq).
Qed.

Lemma promoted_fields tile s :
  let player := activePlayer s in
  let b' := setPiece tile (Some (mkPiece player queen)) (board s) in
  board (promoted tile s) = b'
  /\ move (promoted tile s) = move s
  /\ activePlayer (promoted tile s) = player
  /\ ((hasPlayerWon b' player = true
       /\ winner (promoted tile s) = Some player
       /\ status (promoted tile s) = inactive)
      \/ (hasPlayerWon b' player = false
          /\ winner (promoted tile s) = winner s
          /\ status (promoted tile s) = status s)).
Proof.
  intros player b'. unfold promoted. fold player.
  change (board (setNewQueen tile player s)) with b'.
  destruct (hasPlayerWon b' player); cbn; repeat split; auto.
Qed.

Lemma afterMove_fields fromTile toTile s :
  let player := activePlayer s in
  let b' := movedBoard (getCapturesForDestination s toTile) fromTile toTile (board s) in
  board (afterMove fromTile toTile s) = b'
  /\ ((hasPlayerWon b' player = true
       /\ winner (afterMove fromTile toTile s) = Some player
       /\ status (afterMove fromTile toTile s) = inactive
       /\ activePlayer (afterMove fromTile toTile s) = player)
      \/ (hasPlayerWon b' player = false
          /\ winner (afterMove fromTile toTile s) = winner s
          /\ status (afterMove fromTile toTile s) = status s
          /\ activePlayer (afterMove fromTile toTile s)
             = if rivalHasPieces b' player then rival player else player)).
Proof.
  intros player b'. unfold afterMove. fold player.
  change (getCapturesForDestination (setTo toTile s) toTile)
    with (getCapturesForDestination s toTile).
  change (board (setTo toTile s)) with (board s). fold b'.
  change (board (withBoard b' (setTo toTile s))) with b'.
  destruct (hasPlayerWon b' player).
  - cbn. split; [reflexivity | left; auto].
  - destruct (rivalHasPieces b' player); cbn; (split; [reflexivity | right; auto]).
Qed.

Lemma promoted_uniqueQueens tile s :
  uniqueQueens (board s) ->
  playerHasQueen (board s) (activePlayer s) = false ->
  uniqueQueens (setPiece tile (Some (mkPiece (activePlayer s) queen)) (board s))
  /\ forall p t,
       In t getTiles ->
       getPiece (setPiece tile (Some (mkPiece (activePlayer s) queen)) (board s)) t
       = Some (mkPiece p queen) ->
       (t = tile /\ p = activePlayer s)
       \/ (p <> activePlayer s /\ getPiece (board s) t = Some (mkPiece p queen)).
Proof.
  intros Hu Hq.
  assert (Hcase : forall p t,
             In t getTiles ->
             getPiece (setPiece tile (Some (mkPiece (activePlayer s) queen)) (board s)) t
             = Some (mkPiece p queen) ->
             (t = tile /\ p = activePlayer s)
             \/ (p <> activePlayer s /\ getPiece (board s) t = Some (mkPiece p queen))).
  { intros p t Hin H. destruct (Tile_eq_dec t tile) as [-> | Hne].
    - rewrite setPiece_same in H. left. split; congruence.
    - rewrite setPiece_other in H by assumption. right. split; [ | assumption].
      intros ->. revert H. apply playerHasQueen_false; assumption. }
  split; [ | exact Hcase].
  intros p t1 t2 H1 H2 Q1 Q2.
  destruct (Hcase p t1 H1 Q1) as [[-> E1] | [N1 O1]];
    destruct (Hcase p t2 H2 Q2) as [[-> E2] | [N2 O2]]; try congruence.
  apply Hu with p; assumption.
Qed.

Lemma movedBoard_uniqueQueens caps fromTile toTile b :
  uniqueQueens b -> In fromTile getTiles ->
  uniqueQueens (movedBoard caps fromTile toTile b).
Proof.
  intros Hu Hf p t1 t2 H1 H2 Q1 Q2.
  apply movedBoard_piece in Q1. apply movedBoard_piece in Q2.
  destruct Q1 as [[E1 [N1 O1]] | [N1 [M1 O1]]];
    destruct Q2 as [[E2 [N2 O2]] | [N2 [M2 O2]]].
  - congruence.
  - elim M2. apply Hu with p; assumption.
  - elim M1. apply Hu with p; assumption.
  - apply Hu with p; assumption.
Qed.

Lemma promoted_GameInv v tile s :
  GameInv v s -> isGameWon s = false ->
  playerHasQueen (board s) (activePlayer s) = false ->
  GameInv v (promoted tile s).
Proof.
  intros [Hst Hto Hmv Hu Hr Hw] Hwon Hq.
  assert (Hwin : winner s = None)
    by (unfold isGameWon, getWinner in Hwon; destruct (winner s); congruence).
  destruct (promoted_fields tile s) as [Eb [Em [Ea Hcase]]].
  destruct (promoted_uniqueQueens tile s Hu Hq) as [Hu' Hcase'].
  assert (Hfrom : from (move s) = None).
  { destruct (from (move s)) as [t | ]; [ | reflexivity].
    destruct Hmv as [_ [_ [_ [Hq' _]]]]. congruence. }
  rewrite Hfrom in Hmv.
  constructor; rewrite ?Eb, ?Em, ?Ea.
  - destruct Hcase as [[_ [-> ->]] | [_ [-> ->]]]; [reflexivity | assumption].
  - assumption.
  - rewrite Hfrom. assumption.
  - exact Hu'.
  - destruct Hcase as [[_ [-> _]] | [Hnw [-> _]]]; [discriminate | ].
    intros _ p t Hin H.
    destruct (Hcase' p t Hin H) as [[-> ->] | [Hp Hold]].
    + apply hasPlayerWon_false with (b := board (promoted tile s)) (t := tile);
        rewrite ?Eb; auto.
      intros t1 t2. apply Hu'.
    + apply Hr; assumption.
  - intros w H. destruct Hcase as [[Hwn [E _]] | [_ [E _]]]; rewrite E in H.
    + injection H as <-. split; [reflexivity | ].
      apply hasPlayerWon_true in Hwn. destruct Hwn as [t [Hg _]].
      unfold playerHasQueen. rewrite Hg. reflexivity.
    + congruence.
Qed.

Lemma selected_GameInv v tile s :
  GameInv v s -> In tile getTiles -> isGameWon s = false ->
  playerHasQueen (board s) (activePlayer s) = true ->
  tileBelongsToPlayer (board s) tile (activePlayer s) = true ->
  GameInv v (withMove (searchedMove v (board s) (activePlayer s) tile) s).
Proof.
  intros [Hst Hto Hmv Hu Hr Hw] Hin Hwon Hq Hb.
  assert (Hwin : winner s = None)
    by (unfold isGameWon, getWinner in Hwon; destruct (winner s); congruence).
  constructor; cbn; auto.
Qed.

Lemma moved_GameInv v fromTile toTile s :
  GameInv v s -> from (move s) = Some fromTile ->
  GameInv v (resetMove (afterMove fromTile toTile s)).
Proof.
  intros [Hst Hto Hmv Hu Hr Hw] Hfrom. rewrite Hfrom in Hmv.
  destruct Hmv as [Hin [Hb [Hwin [Hq Hm]]]].
  destruct (afterMove_fields fromTile toTile s) as [Eb Hcase].
  set (b' := movedBoard (getCapturesForDestination s toTile) fromTile toTile (board s)) in *.
  assert (Hu' : uniqueQueens b') by (apply movedBoard_uniqueQueens; assumption).
  constructor; unfold resetMove;
    change (board (withMove emptyMove (afterMove fromTile toTile s)))
      with (board (afterMove fromTile toTile s));
    change (winner (withMove emptyMove (afterMove fromTile toTile s)))
      with (winner (afterMove fromTile toTile s));
    change (status (withMove emptyMove (afterMove fromTile toTile s)))
      with (status (afterMove fromTile toTile s));
    change (activePlayer (withMove emptyMove (afterMove fromTile toTile s)))
      with (activePlayer (afterMove fromTile toTile s));
    rewrite ?Eb.
  - destruct Hcase as [[_ [-> [-> _]]] | [_ [-> [-> _]]]]; [reflexivity | assumption].
  - reflexivity.
  - reflexivity.
  - exact Hu'.
  - destruct Hcase as [[_ [-> _]] | [Hnw [-> _]]]; [discriminate | ].
    intros _ p t Ht H.
    destruct (Player_eqb p (activePlayer s)) eqn:Ep.
    + apply Player_eqb_eq in Ep. subst p.
      apply hasPlayerWon_false with (b := b'); auto. intros t1 t2. apply Hu'.
    + apply movedBoard_piece in H. destruct H as [[_ [_ H]] | [_ [_ H]]].
      * apply belongs_piece in Hb. destruct Hb as [piece [Hp Ho]].
        rewrite Hp in H. injection H as ->. simpl in Ho. subst p.
        rewrite Player_eqb_refl in Ep. discriminate.
      * apply Hr; assumption.
  - intros w H. destruct Hcase as [[Hwn [E [_ Ea]]] | [_ [E _]]]; rewrite E in H.
    + injection H as <-. split; [assumption | ].
      apply hasPlayerWon_true in Hwn. destruct Hwn as [t [Hg _]].
      unfold playerHasQueen. rewrite Hg. reflexivity.
    + congruence.
Qed.

Theorem playGame_GameInv v row column s :
  GameInv v s -> GameInv v (snd (playGame v row column s)).
Proof.
  intros Hinv.
  destruct (playGame_click v row column s)
    as [ Ht | tile Ht Hw | tile Ht Hw Hq Hv | tile Ht Hw Hq Hv
       | tile Ht Hw Hq Hf Hv | tile Ht Hw Hq Hf Hv | tile Ht Hw Hq Hf Hto
       | tile fromTile Ht Hw Hq Hf Hto Hne Hv | tile fromTile Ht Hw Hq Hf Hto Hne Hv
       | tile fromTile toTile Ht Hw Hq Hf Hto ]; try assumption.
  - apply promoted_GameInv; assumption.
  - apply getTile_Some in Ht. destruct Ht as [_ Ht]. apply getTiles_onBoard in Ht.
    rewrite isFromValid_state by assumption.
    destruct (tileBelongsToPlayer (board s) tile (activePlayer s)); [ | assumption].
    rewrite resetMove_id; [assumption | ].
    pose proof (inv_move v s Hinv) as Hm. rewrite Hf in Hm. assumption.
  - apply getTile_Some in Ht. destruct Ht as [_ Ht]. apply getTiles_onBoard in Ht.
    rewrite setFrom_after_isFromValid by assumption.
    apply selected_GameInv; try assumption.
    apply isFromValid_belongs with v; assumption.
  - destruct Hinv as [Hst Hto' Hmv Hu Hr Hw'].
    constructor; cbn; auto.
  - apply moved_GameInv; assumption.
Qed.

Theorem reachable_GameInv v s : reachable v s -> GameInv v s.
Proof.
  induction 1 as [ | s row column H IH | s H IH].
  - apply initialState_GameInv.
  - apply playGame_GameInv. assumption.
  - apply initialState_GameInv.
Qed.

Lemma clicks_reachable v l s : reachable v s -> reachable v (clicks v l s).
Proof.
  unfold clicks. revert s. induction l as [ | rc l IH]; intros s H; cbn [fold_left].
  - assumption.
  - apply IH. apply reach_click. assumption.
Qed.

Lemma isGameWon_false s : isGameWon s = false <-> winner s = None.
Proof. unfold isGameWon, getWinner. destruct (winner s); split; congruence. Qed.

(** * Idle pieces *)

Lemma fold_min_row (l : list Tile) (acc : Z) :
  let m := fold_left (fun acc tile => if getRow tile <? acc then getRow tile else acc) l acc in
  m <= acc /\ (forall t, In t l -> m <= getRow t)
  /\ (m = acc \/ exists t, In t l /\ getRow t = m).
Proof.
  revert acc. induction l as [ | x l IH]; intros acc; cbn [fold_left].
  - repeat split; [lia | intros t [] | left; reflexivity].
  - specialize (IH (if getRow x <? acc then getRow x else acc)).
    cbv zeta in IH. destruct IH as [H1 [H2 H3]].
    destruct (Z.ltb_spec (getRow x) acc) as [Hlt | Hge].
    + repeat split.
      * lia.
      * intros t [<- | Ht]; [lia | auto].
      * right. destruct H3 as [H3 | [t [Ht E]]].
        -- exists x. split; [left; reflexivity | lia].
        -- exists t. split; [right; assumption | assumption].
    + repeat split.
      * lia.
      * intros t [<- | Ht]; [lia | auto].
      * destruct H3 as [H3 | [t [Ht E]]]; [left; assumption | ].
        right. exists t. split; [right; assumption | assumption].
Qed.

Lemma fold_max_row (l : list Tile) (acc : Z) :
  let m := fold_left (fun acc tile => if acc <? getRow tile then getRow tile else acc) l acc in
  acc <= m /\ (forall t, In t l -> getRow t <= m)
  /\ (m = acc \/ exists t, In t l /\ getRow t = m).
Proof.
  revert acc. induction l as [ | x l IH]; intros acc; cbn [fold_left].
  - repeat split; [lia | intros t [] | left; reflexivity].
  - specialize (IH (if acc <? getRow x then getRow x else acc)).
    cbv zeta in IH. destruct IH as [H1 [H2 H3]].
    destruct (Z.ltb_spec acc (getRow x)) as [Hlt | Hge].
    + repeat split.
      * lia.
      * intros t [<- | Ht]; [lia | auto].
      * right. destruct H3 as [H3 | [t [Ht E]]].
        -- exists x. split; [left; reflexivity | lia].
        -- exists t. split; [right; assumption | assumption].
    + repeat split.
      * lia.
      * intros t [<- | Ht]; [lia | auto].
      * destruct H3 as [H3 | [t [Ht E]]]; [left; assumption | ].
        right. exists t. split; [right; assumption | assumption].
Qed.

Lemma getIdlePieceTiles_spec b player tile :
  In tile (getIdlePieceTiles b player) <-> isIdlePiece b player tile.
Proof.
  unfold getIdlePieceTiles, isIdlePiece. cbv zeta.
  assert (Hall : forall t, In t (tilesOf b player) ->
                           In t getTiles /\ tileBelongsToPlayer b t player = true)
    by (intros t; apply tilesOf_In).
  assert (Hback : forall t, In t getTiles -> tileBelongsToPlayer b t player = true ->
                            In t (tilesOf b player))
    by (intros t H1 H2; apply tilesOf_In; auto).
  revert Hall Hback. generalize (tilesOf b player). intros l Hall Hback.
  rewrite filter_In, Z.eqb_eq. destruct player.
  - destruct (fold_min_row l 7) as [H1 [H2 H3]]. cbv zeta in H1, H2, H3.
    split.
    + intros [Hin E]. destruct (Hall tile Hin) as [Hb Ho].
      repeat split; auto. intros t Ht Hbt. rewrite E. apply H2. auto.
    + intros [Hb [Ho Hmin]]. split; [auto | ].
      assert (Hle : fold_left (fun acc t => if getRow t <? acc then getRow t else acc) l 7
                    <= getRow tile) by (apply H2; auto).
      apply getTiles_onBoard in Hb. destruct Hb as [Hr _].
      destruct H3 as [H3 | [t [Ht E]]].
      * lia.
      * destruct (Hall t Ht) as [Hbt Hot]. specialize (Hmin t Hbt Hot). lia.
  - destruct (fold_max_row l 0) as [H1 [H2 H3]]. cbv zeta in H1, H2, H3.
    split.
    + intros [Hin E]. destruct (Hall tile Hin) as [Hb Ho].
      repeat split; auto. intros t Ht Hbt. rewrite E. apply H2. auto.
    + intros [Hb [Ho Hmin]]. split; [auto | ].
      assert (Hle : getRow tile
                    <= fold_left (fun acc t => if acc <? getRow t then getRow t else acc) l 0)
        by (apply H2; auto).
      apply getTiles_onBoard in Hb. destruct Hb as [Hr _].
      destruct H3 as [H3 | [t [Ht E]]].
      * lia.
      * destruct (Hall t Ht) as [Hbt Hot]. specialize (Hmin t Hbt Hot). lia.
Qed.

Lemma isValidQueen_spec b tile player :
  isValidQueen b tile player = true <-> isIdlePiece b player tile.
Proof.
  rewrite <- getIdlePieceTiles_spec. unfold isValidQueen.
  generalize (getIdlePieceTiles b player). intros l.
  rewrite existsb_exists. split.
  - intros [idle [Hin E]]. apply Tile_eqb_eq in E. subst idle. assumption.
  - intros H. exists tile. split; [assumption | apply Tile_eqb_refl].
Qed.

(** * The turn controller *)

(** C9: when the active player has no queen, [playGame] accepts a click
    exactly on the player's idle-piece tiles (the player's tiles on the
    minimum row for blue, the maximum row for red), an accepted click puts a
    queen of the player on that tile and leaves the other tiles alone, and
    every other click returns [undefined] and changes nothing. *)
Theorem playGame_queen_selection (v : Variant) (s : GameState) (row column : Z) :
  reachable v s ->
  playerHasQueen (board s) (activePlayer s) = false ->
  (fst (playGame v row column s) <> None <->
   exists tile, getTile row column = Some tile
                /\ isIdlePiece (board s) (activePlayer s) tile)
  /\ (forall tile,
        getTile row column = Some tile ->
        isIdlePiece (board s) (activePlayer s) tile ->
        forall t,
          getPiece (board (snd (playGame v row column s))) t
          = if Tile_eqb t tile then Some (mkPiece (activePlayer s) queen)
            else getPiece (board s) t)
  /\ (fst (playGame v row column s) = None -> snd (playGame v row column s) = s).
Proof.
  intros Hreach Hq. apply reachable_GameInv in Hreach.
  assert (Hwin : isGameWon s = false).
  { apply isGameWon_false. destruct (winner s) as [w | ] eqn:E; [ | reflexivity].
    destruct (inv_winner v s Hreach w E) as [Ha Hqw]. congruence. }
  generalize (playGame_click v row column s).
  generalize (fst (playGame v row column s)) (snd (playGame v row column s)).
  intros i s' Hc.
  destruct Hc
    as [ Ht | tile Ht Hw | tile Ht Hw Hq' Hv | tile Ht Hw Hq' Hv
       | tile Ht Hw Hq' Hf Hv | tile Ht Hw Hq' Hf Hv | tile Ht Hw Hq' Hf Hto
       | tile fromTile Ht Hw Hq' Hf Hto Hne Hv | tile fromTile Ht Hw Hq' Hf Hto Hne Hv
       | tile fromTile toTile Ht Hw Hq' Hf Hto ]; try congruence.
  - split; [split | split].
    + congruence.
    + intros [tile [E _]]. congruence.
    + intros tile E. congruence.
    + reflexivity.
  - assert (Hno : forall tile', getTile row column = Some tile' ->
                                isIdlePiece (board s) (activePlayer s) tile' -> False).
    { intros tile' E Hidle. apply isValidQueen_spec in Hidle.
      assert (tile' = tile) by congruence. subst tile'. congruence. }
    split; [split | split].
    + congruence.
    + intros [tile' [E Hidle]]. elim (Hno tile' E Hidle).
    + intros tile' E Hidle. elim (Hno tile' E Hidle).
    + reflexivity.
  - split; [split | split].
    + intros _. exists tile. split; [assumption | ]. apply isValidQueen_spec. assumption.
    + discriminate.
    + intros tile' E Hidle t. assert (tile' = tile) by congruence. subst tile'.
      destruct (promoted_fields tile s) as [Eb _]. rewrite Eb. reflexivity.
    + discriminate.
Qed.

Lemma playGame_queen_selection_witness :
  (fst (playGame BonusGame 0 4 (lostQueenState BonusGame)) <> None <->
   exists tile, getTile 0 4 = Some tile
                /\ isIdlePiece (board (lostQueenState BonusGame))
                               (activePlayer (lostQueenState BonusGame)) tile)
  /\ (forall tile,
        getTile 0 4 = Some tile ->
        isIdlePiece (board (lostQueenState BonusGame))
                    (activePlayer (lostQueenState BonusGame)) tile ->
        forall t,
          getPiece (board (snd (playGame BonusGame 0 4 (lostQueenState BonusGame)))) t
          = if Tile_eqb t tile
            then Some (mkPiece (activePlayer (lostQueenState BonusGame)) queen)
            else getPiece (board (lostQueenState BonusGame)) t)
  /\ (fst (playGame BonusGame 0 4 (lostQueenState BonusGame)) = None ->
      snd (playGame BonusGame 0 4 (lostQueenState BonusGame)) = lostQueenState BonusGame).
Proof.
  apply playGame_queen_selection.
  - apply clicks_reachable. apply reach_init.
  - vm_compute. reflexivity.
Defined.

Lemma promoted_changes tile s :
  In tile getTiles -> playerHasQueen (board s) (activePlayer s) = false ->
  promoted tile s <> s.
Proof.
  intros Hin Hq E. destruct (promoted_fields tile s) as [Eb _].
  rewrite E in Eb.
  assert (H : getPiece (board s) tile = Some (mkPiece (activePlayer s) queen))
    by (rewrite Eb; apply setPiece_same).
  revert H. apply playerHasQueen_false; assumption.
Qed.

(** C6, as the code has it: in a reachable state a click outside the board,
    a click on a tile that [isFromValid] refuses while no [from] is set and
    the active player has a queen, and a click that is neither the [from]
    tile nor a valid destination while [from] is set, all return
    [undefined]; whenever [playGame] returns [undefined] the game state is
    unchanged, and whenever it returns an instruction the state has
    changed. *)
Theorem playGame_undefined_iff_unchanged (v : Variant) (s : GameState) (row column : Z) :
  reachable v s ->
  (~ (0 <= row < 8 /\ 0 <= column < 8) -> fst (playGame v row column s) = None)
  /\ (forall tile,
        getTile row column = Some tile ->
        playerHasQueen (board s) (activePlayer s) = true ->
        from (move s) = None ->
        fst (isFromValid v tile (activePlayer s) s) = false ->
        fst (playGame v row column s) = None)
  /\ (forall tile fromTile,
        getTile row column = Some tile ->
        from (move s) = Some fromTile -> fromTile <> tile ->
        isToValid s tile = false ->
        fst (playGame v row column s) = None)
  /\ (fst (playGame v row column s) = None -> snd (playGame v row column s) = s)
  /\ (forall i, fst (playGame v row column s) = Some i ->
                snd (playGame v row column s) <> s).
Proof.
  intros Hreach. apply reachable_GameInv in Hreach.
  pose proof (inv_move v s Hreach) as Hmv.
  pose proof (inv_to v s Hreach) as Hto0.
  generalize (playGame_click v row column s).
  generalize (fst (playGame v row column s)) (snd (playGame v row column s)).
  intros i s' Hc.
  destruct Hc
    as [ Ht | tile Ht Hw | tile Ht Hw Hq Hv | tile Ht Hw Hq Hv
       | tile Ht Hw Hq Hf Hv | tile Ht Hw Hq Hf Hv | tile Ht Hw Hq Hf Hto
       | tile fromTile Ht Hw Hq Hf Hto Hne Hv | tile fromTile Ht Hw Hq Hf Hto Hne Hv
       | tile fromTile toTile Ht Hw Hq Hf Hto ];
    try (repeat (split; [solve [intros; (reflexivity || discriminate)] | ]);
         solve [intros; (reflexivity || discriminate)]).
  - (* a new queen *)
    assert (Hin : In tile getTiles).
    { apply getTile_Some in Ht. destruct Ht as [_ Ht]. apply getTiles_onBoard. assumption. }
    split; [ | split; [ | split; [ | split]]].
    + intros Hout. apply getTile_None in Hout. congruence.
    + intros tile' _ Hq'. congruence.
    + intros tile' f _ Hf. rewrite Hf in Hmv. destruct Hmv as [_ [_ [_ [Hq' _]]]]. congruence.
    + discriminate.
    + intros i _. apply promoted_changes; assumption.
  - (* a refused source tile *)
    assert (Hin : In tile getTiles).
    { apply getTile_Some in Ht. destruct Ht as [_ Ht]. apply getTiles_onBoard. assumption. }
    repeat (split; [solve [intros; reflexivity] | ]). split.
    + intros _. rewrite isFromValid_state by assumption.
      destruct (tileBelongsToPlayer (board s) tile (activePlayer s)); [ | reflexivity].
      apply resetMove_id. rewrite Hf in Hmv. assumption.
    + discriminate.
  - (* an accepted source tile *)
    assert (Hin : In tile getTiles).
    { apply getTile_Some in Ht. destruct Ht as [_ Ht]. apply getTiles_onBoard. assumption. }
    split; [ | split; [ | split; [ | split]]].
    + intros Hout. apply getTile_None in Hout. congruence.
    + intros tile' E _ _ Hv'. assert (tile' = tile) by congruence. subst tile'. congruence.
    + intros tile' f _ Hf'. congruence.
    + discriminate.
    + intros i _ E. rewrite setFrom_after_isFromValid in E by assumption.
      apply (f_equal (fun x => from (move x))) in E. cbn in E. congruence.
  - (* the piece is put back *)
    split; [ | split; [ | split; [ | split]]].
    + intros Hout. apply getTile_None in Hout. congruence.
    + intros tile' _ _ Hf'. congruence.
    + intros tile' f E Hf' Hne. congruence.
    + discriminate.
    + intros i _ E. apply (f_equal (fun x => from (move x))) in E. cbn in E. congruence.
  - (* a move *)
    split; [ | split; [ | split; [ | split]]].
    + intros Hout. apply getTile_None in Hout. congruence.
    + intros tile' _ _ Hf'. congruence.
    + intros tile' f E Hf' Hne' Hv'. assert (tile' = tile) by congruence. congruence.
    + discriminate.
    + intros i _ E. apply (f_equal (fun x => from (move x))) in E. cbn in E. congruence.
Qed.

Lemma playGame_undefined_iff_unchanged_witness :
  (~ (0 <= 8 < 8 /\ 0 <= 3 < 8) -> fst (playGame BonusGame 8 3 diamondState) = None)
  /\ (forall tile,
        getTile 8 3 = Some tile ->
        playerHasQueen (board diamondState) (activePlayer diamondState) = true ->
        from (move diamondState) = None ->
        fst (isFromValid BonusGame tile (activePlayer diamondState) diamondState) = false ->
        fst (playGame BonusGame 8 3 diamondState) = None)
  /\ (forall tile fromTile,
        getTile 8 3 = Some tile ->
        from (move diamondState) = Some fromTile -> fromTile <> tile ->
        isToValid diamondState tile = false ->
        fst (playGame BonusGame 8 3 diamondState) = None)
  /\ (fst (playGame BonusGame 8 3 diamondState) = None ->
      snd (playGame BonusGame 8 3 diamondState) = diamondState)
  /\ (forall i, fst (playGame BonusGame 8 3 diamondState) = Some i ->
                snd (playGame BonusGame 8 3 diamondState) <> diamondState).
Proof.
  apply playGame_undefined_iff_unchanged.
  apply clicks_reachable. apply reach_init.
Defined.

(** C6, as stated, fails while a queen has to be chosen: after
    [lostQueenGame] blue has no queen and no [from] is set; [isFromValid]
    refuses the pawn on (0,4), which cannot move, and yet a click on (0,4)
    returns an instruction and turns the pawn into a queen. *)
Lemma playGame_unselectable_click_accepted :
  reachable BonusGame (lostQueenState BonusGame)
  /\ getTile 0 4 = Some (mkTile 0 4)
  /\ from (move (lostQueenState BonusGame)) = None
  /\ fst (isFromValid BonusGame (mkTile 0 4) (activePlayer (lostQueenState BonusGame))
                      (lostQueenState BonusGame)) = false
  /\ fst (playGame BonusGame 0 4 (lostQueenState BonusGame))
     = Some (mkInstruction [mkTileInstruction 4 0 blue_queen] blue None)
  /\ getPiece (board (lostQueenState BonusGame)) (mkTile 0 4) = Some (mkPiece blue pawn)
  /\ getPiece (board (snd (playGame BonusGame 0 4 (lostQueenState BonusGame)))) (mkTile 0 4)
     = Some (mkPiece blue queen).
Proof.
  split; [apply clicks_reachable; apply reach_init | ].
  repeat split; vm_compute; reflexivity.
Qed.

(** C10: a [playGame] call that accepts a source tile changes no tile of the
    board, nor the status, the winner or the active player; the instruction
    it returns labels the tile [none], while the piece is still on the tile,
    and the move holds the tile as [from] with the paths and destinations
    searched on that unchanged board.  The paths that return to the source
    tile end on an occupied tile. *)
Theorem playGame_select_keeps_board (v : Variant) (s : GameState) (row column : Z)
    (i : Instruction) :
  playerHasQueen (board s) (activePlayer s) = true ->
  from (move s) = None ->
  fst (playGame v row column s) = Some i ->
  exists tile piece,
    getTile row column = Some tile
    /\ i = mkInstruction [mkTileInstruction column row none] (activePlayer s) (winner s)
    /\ board (snd (playGame v row column s)) = board s
    /\ status (snd (playGame v row column s)) = status s
    /\ winner (snd (playGame v row column s)) = winner s
    /\ activePlayer (snd (playGame v row column s)) = activePlayer s
    /\ getPiece (board (snd (playGame v row column s))) tile = Some piece
    /\ getOwner piece = activePlayer s
    /\ move (snd (playGame v row column s))
       = mkMove (Some tile) None (searchFrom (board s) tile)
                (destinationsFrom v (board s) (activePlayer s) tile)
    /\ forall p, In p (searchFrom (board s) tile) ->
                 atBack p 1 = Some tile ->
                 isTileOcuppied (board (snd (playGame v row column s))) tile = true
                 /\ (2 < length (removelast p))%nat.
Proof.
  intros Hq Hf.
  generalize (playGame_click v row column s).
  generalize (fst (playGame v row column s)) (snd (playGame v row column s)).
  intros o s' Hc Ho.
  destruct Hc
    as [ Ht | tile Ht Hw | tile Ht Hw Hq' Hv | tile Ht Hw Hq' Hv
       | tile Ht Hw Hq' Hf' Hv | tile Ht Hw Hq' Hf' Hv | tile Ht Hw Hq' Hf' Hto
       | tile fromTile Ht Hw Hq' Hf' Hto Hne Hv | tile fromTile Ht Hw Hq' Hf' Hto Hne Hv
       | tile fromTile toTile Ht Hw Hq' Hf' Hto ]; try congruence.
  assert (Hin : In tile getTiles).
  { apply getTile_Some in Ht. destruct Ht as [_ Ht]. apply getTiles_onBoard. assumption. }
  pose proof (isFromValid_belongs v tile (activePlayer s) s Hin Hv) as Hb.
  destruct (belongs_piece _ _ _ Hb) as [piece [Hp Ho']].
  rewrite setFrom_after_isFromValid in * by assumption.
  unfold getWinner in Ho. cbn [winner withMove] in Ho. injection Ho as <-.
  exists tile, piece. cbn [board status winner activePlayer move withMove].
  repeat (split; [first [assumption | reflexivity] | ]).
  intros p Hp' Hlast.
  destruct (searchFrom_pathShape (board s) tile piece Hin Hp) as [_ Hs].
  rewrite Forall_forall in Hs. specialize (Hs p Hp').
  destruct (pathShape_ends Hs) as [_ [l [El Hl]]].
  assert (l = tile) by congruence. subst l.
  assert (Hocc : isTileOcuppied (board s) tile = true)
    by (apply occupied_of_belongs with (activePlayer s); assumption).
  split; [assumption | ].
  destruct Hl as [Hl | [_ Hl]]; [congruence | assumption].
Qed.

Lemma playGame_select_keeps_board_witness :
  exists tile piece,
    getTile 2 2 = Some tile
    /\ mkInstruction [mkTileInstruction 2 2 none] blue None
       = mkInstruction [mkTileInstruction 2 2 none] (activePlayer loopState)
                       (winner loopState)
    /\ board (snd (playGame BonusGame 2 2 loopState)) = board loopState
    /\ status (snd (playGame BonusGame 2 2 loopState)) = status loopState
    /\ winner (snd (playGame BonusGame 2 2 loopState)) = winner loopState
    /\ activePlayer (snd (playGame BonusGame 2 2 loopState)) = activePlayer loopState
    /\ getPiece (board (snd (playGame BonusGame 2 2 loopState))) tile = Some piece
    /\ getOwner piece = activePlayer loopState
    /\ move (snd (playGame BonusGame 2 2 loopState))
       = mkMove (Some tile) None (searchFrom (board loopState) tile)
                (destinationsFrom BonusGame (board loopState) (activePlayer loopState) tile)
    /\ forall p, In p (searchFrom (board loopState) tile) ->
                 atBack p 1 = Some tile ->
                 isTileOcuppied (board (snd (playGame BonusGame 2 2 loopState))) tile = true
                 /\ (2 < length (removelast p))%nat.
Proof.
  apply playGame_select_keeps_board.
  - vm_compute. reflexivity.
  - vm_compute. reflexivity.
  - vm_compute. reflexivity.
Defined.

Lemma rivalHasPieces_spec b player :
  rivalHasPieces b player = true <-> rivalOnBoard b player.
Proof. unfold rivalHasPieces, rivalOnBoard. apply existsb_exists. Qed.

Lemma hasPlayerWon_queenOnWinningRow b player :
  hasPlayerWon b player = true -> queenOnWinningRow b player.
Proof.
  intros H. apply hasPlayerWon_true in H. destruct H as [t [Hg Hr]].
  apply getQueen_Some in Hg. destruct Hg as [Hin Hp]. exists t. auto.
Qed.

Lemma rival_neq player : rival player <> player.
Proof. destruct player; discriminate. Qed.

(** The turn after a move: after a click on a valid destination other than
    the [from] tile that does not put the mover's queen on its winning row,
    the active player becomes the rival exactly when the rival still has a
    piece on the board; when the rival has none, the active player stays, no
    winner is set and the status stays active.  The valid destination that
    is the [from] tile is the cyclic return, at the end of the file. *)
Lemma playGame_turn_switch (v : Variant) (s : GameState) (row column : Z)
    (tile fromTile : Tile) :
  reachable v s ->
  getTile row column = Some tile ->
  from (move s) = Some fromTile -> fromTile <> tile ->
  isToValid s tile = true ->
  ~ queenOnWinningRow (board (snd (playGame v row column s))) (activePlayer s) ->
  (activePlayer (snd (playGame v row column s)) = rival (activePlayer s)
   <-> rivalOnBoard (board (snd (playGame v row column s))) (activePlayer s))
  /\ (~ rivalOnBoard (board (snd (playGame v row column s))) (activePlayer s) ->
      activePlayer (snd (playGame v row column s)) = activePlayer s
      /\ winner (snd (playGame v row column s)) = None
      /\ status (snd (playGame v row column s)) = active).
Proof.
  intros Hreach Ht Hf Hne Hv. apply reachable_GameInv in Hreach.
  pose proof (inv_move v s Hreach) as Hmv. rewrite Hf in Hmv.
  destruct Hmv as [_ [_ [Hwin [Hq _]]]].
  pose proof (inv_status v s Hreach) as Hst. rewrite Hwin in Hst.
  pose proof (inv_to v s Hreach) as Hto0.
  generalize (playGame_click v row column s).
  generalize (fst (playGame v row column s)) (snd (playGame v row column s)).
  intros o s' Hc.
  destruct Hc
    as [ Ht' | tile' Ht' Hw | tile' Ht' Hw Hq' Hv' | tile' Ht' Hw Hq' Hv'
       | tile' Ht' Hw Hq' Hf' Hv' | tile' Ht' Hw Hq' Hf' Hv' | tile' Ht' Hw Hq' Hf' Hto
       | tile' f' Ht' Hw Hq' Hf' Hto Hne' Hv' | tile' f' Ht' Hw Hq' Hf' Hto Hne' Hv'
       | tile' f' toTile Ht' Hw Hq' Hf' Hto ];
    try congruence.
  - unfold isGameWon, getWinner in Hw. rewrite Hwin in Hw. discriminate.
  - assert (tile' = tile) by congruence. subst tile'.
    assert (f' = fromTile) by congruence. subst f'.
    destruct (afterMove_fields fromTile tile s) as [Eb Hcase].
    unfold resetMove.
    change (board (withMove emptyMove (afterMove fromTile tile s)))
      with (board (afterMove fromTile tile s)).
    change (winner (withMove emptyMove (afterMove fromTile tile s)))
      with (winner (afterMove fromTile tile s)).
    change (status (withMove emptyMove (afterMove fromTile tile s)))
      with (status (afterMove fromTile tile s)).
    change (activePlayer (withMove emptyMove (afterMove fromTile tile s)))
      with (activePlayer (afterMove fromTile tile s)).
    rewrite Eb.
    set (b' := movedBoard (getCapturesForDestination s tile) fromTile tile (board s)) in *.
    intros Hnot.
    destruct Hcase as [[Hwon _] | [_ [Ew [Es Ea]]]].
    + elim Hnot. apply hasPlayerWon_queenOnWinningRow. assumption.
    + rewrite Ew, Es, Ea. rewrite <- rivalHasPieces_spec.
      destruct (rivalHasPieces b' (activePlayer s)).
      * split; [tauto | ]. intros H. elim H. reflexivity.
      * split.
        -- split; [ | discriminate]. intros E. symmetry in E.
           elim (rival_neq _ E).
        -- intros _. auto.
Qed.

Lemma playGame_turn_switch_witness :
  (activePlayer (snd (playGame BonusGame 7 3 diamondState)) = rival (activePlayer diamondState)
   <-> rivalOnBoard (board (snd (playGame BonusGame 7 3 diamondState)))
                    (activePlayer diamondState))
  /\ (~ rivalOnBoard (board (snd (playGame BonusGame 7 3 diamondState)))
                     (activePlayer diamondState) ->
      activePlayer (snd (playGame BonusGame 7 3 diamondState)) = activePlayer diamondState
      /\ winner (snd (playGame BonusGame 7 3 diamondState)) = None
      /\ status (snd (playGame BonusGame 7 3 diamondState)) = active).
Proof.
  apply playGame_turn_switch with (tile := mkTile 7 3) (fromTile := mkTile 3 3).
  - apply clicks_reachable. apply reach_init.
  - vm_compute. reflexivity.
  - vm_compute. reflexivity.
  - discriminate.
  - vm_compute. reflexivity.
  - intros [t [Hin [Hp Hr]]].
    apply getTiles_onBoard in Hin. destruct Hin as [_ Hc]. destruct t as [r c].
    simpl in Hr, Hc. subst r.
    assert (Ec : c = 0 \/ c = 1 \/ c = 2 \/ c = 3 \/ c = 4 \/ c = 5 \/ c = 6 \/ c = 7) by lia.
    clear Hc.
    repeat (destruct Ec as [Ec | Ec]; try (subst c; vm_compute in Hp; discriminate Hp)).
Defined.

Lemma playGame_won v row column s :
  winner s <> None -> playGame v row column s = (None, s).
Proof.
  intros H. unfold playGame.
  destruct (getTile row column); [ | reflexivity].
  unfold isGameWon, getWinner. destruct (winner s); [reflexivity | congruence].
Qed.

Lemma clicks_won v l s : winner s <> None -> clicks v l s = s.
Proof.
  intros H. unfold clicks. induction l as [ | rc l IH]; cbn [fold_left].
  - reflexivity.
  - rewrite playGame_won by assumption. exact IH.
Qed.

(** C7: when a click that returns an instruction (a move or a queen
    promotion) leaves the mover's queen on its winning row, row 7 for blue
    and row 0 for red, the mover is the winner and the status is inactive;
    from then on every [playGame] call, after any number of further calls,
    returns [undefined] and leaves the state as it is. *)
Theorem playGame_win_is_terminal (v : Variant) (s : GameState) (row column : Z)
    (i : Instruction) :
  reachable v s ->
  fst (playGame v row column s) = Some i ->
  queenOnWinningRow (board (snd (playGame v row column s))) (activePlayer s) ->
  winner (snd (playGame v row column s)) = Some (activePlayer s)
  /\ status (snd (playGame v row column s)) = inactive
  /\ instrWinner i = Some (activePlayer s)
  /\ forall l row' column',
       playGame v row' column' (clicks v l (snd (playGame v row column s)))
       = (None, snd (playGame v row column s)).
Proof.
  intros Hreach Hi Hrow.
  pose proof (reachable_GameInv v _ (@reach_click v s row column Hreach)) as Hinv'.
  apply reachable_GameInv in Hreach.
  destruct Hrow as [t [Hin [Hp Hr]]].
  assert (Hw' : winner (snd (playGame v row column s)) <> None).
  { intros E. exact (inv_rank v _ Hinv' E _ t Hin Hp Hr). }
  assert (Hmain : winner (snd (playGame v row column s)) = Some (activePlayer s)
                  /\ instrWinner i = Some (activePlayer s)).
  { revert Hi Hw'. clear Hinv' Hp.
    generalize (playGame_click v row column s).
    generalize (fst (playGame v row column s)) (snd (playGame v row column s)).
    intros o s' Hc Ho Hw'.
    destruct Hc
      as [ Ht | tile Ht Hw | tile Ht Hw Hq Hv | tile Ht Hw Hq Hv
         | tile Ht Hw Hq Hf Hv | tile Ht Hw Hq Hf Hv | tile Ht Hw Hq Hf Hto
         | tile fromTile Ht Hw Hq Hf Hto Hne Hv | tile fromTile Ht Hw Hq Hf Hto Hne Hv
         | tile fromTile toTile Ht Hw Hq Hf Hto ];
      try discriminate; apply isGameWon_false in Hw; injection Ho as <-;
      cbn [instrWinner]; unfold getWinner.
    - destruct (promoted_fields tile s) as [_ [_ [_ [[_ [E _]] | [_ [E _]]]]]];
        rewrite E in *; [auto | congruence].
    - assert (Hin' : In tile getTiles).
      { apply getTile_Some in Ht. destruct Ht as [_ Ht]. apply getTiles_onBoard. assumption. }
      rewrite setFrom_after_isFromValid in * by assumption. cbn in Hw'. congruence.
    - cbn in Hw'. congruence.
    - change (winner (resetMove (afterMove fromTile tile s)))
        with (winner (afterMove fromTile tile s)) in *.
      destruct (afterMove_fields fromTile tile s) as [_ [[_ [E _]] | [_ [E _]]]];
        rewrite E in *; [auto | congruence]. }
  destruct Hmain as [Hwinner Hinstr].
  repeat split; try assumption.
  - pose proof (inv_status v _ Hinv') as Hst. rewrite Hwinner in Hst. assumption.
  - intros l row' column'. rewrite clicks_won by assumption.
    apply playGame_won. assumption.
Qed.

Lemma playGame_win_is_terminal_witness :
  winner (snd (playGame BaseGame 7 5 winningState)) = Some (activePlayer winningState)
  /\ status (snd (playGame BaseGame 7 5 winningState)) = inactive
  /\ instrWinner (mkInstruction [mkTileInstruction 5 7 blue_queen] blue (Some blue))
     = Some (activePlayer winningState)
  /\ forall l row' column',
       playGame BaseGame row' column' (clicks BaseGame l (snd (playGame BaseGame 7 5 winningState)))
       = (None, snd (playGame BaseGame 7 5 winningState)).
Proof.
  apply playGame_win_is_terminal.
  - apply clicks_reachable. apply reach_init.
  - vm_compute. reflexivity.
  - exists (mkTile 7 5). split; [ | split].
    + apply (proj1 (includes_In getTiles _)). vm_compute. reflexivity.
    + vm_compute. reflexivity.
    + vm_compute. reflexivity.
Defined.

Lemma existsb_find {A : Type} (f : A -> bool) (l : list A) :
  existsb f l = true -> exists x, find f l = Some x /\ In x l.
Proof.
  induction l as [ | y l IH]; cbn [existsb find]; [discriminate | ].
  destruct (f y) eqn:E.
  - intros _. exists y. split; [reflexivity | left; reflexivity].
  - intros H. destruct (IH H) as [x [Hx Hin]]. exists x. split; [assumption | right; assumption].
Qed.

Lemma movedBoard_spec caps fromTile toTile b t :
  ~ In fromTile caps -> fromTile <> toTile ->
  getPiece (movedBoard caps fromTile toTile b) t
  = if Tile_eqb t toTile then getPiece b fromTile
    else if Tile_eqb t fromTile then None
    else if includes caps t then None
    else getPiece b t.
Proof.
  intros Hf Hne. unfold movedBoard.
  destruct (Tile_eqb t toTile) eqn:Et.
  - apply Tile_eqb_eq in Et. subst t.
    rewrite setPiece_other by congruence. rewrite setPiece_same.
    apply capture_other. assumption.
  - apply Tile_eqb_neq in Et. destruct (Tile_eqb t fromTile) eqn:Ef.
    + apply Tile_eqb_eq in Ef. subst t. apply setPiece_same.
    + apply Tile_eqb_neq in Ef. rewrite !setPiece_other by assumption.
      destruct (includes caps t) eqn:Ec.
      * apply capture_in. apply includes_In. assumption.
      * apply capture_other. apply includes_not_In. assumption.
Qed.

(** The captures of the valid destinations of a source tile. *)
Lemma destinationsFrom_captures v b player fromTile vd :
  In fromTile getTiles -> tileBelongsToPlayer b fromTile player = true ->
  In vd (destinationsFrom v b player fromTile) ->
  captures vd = getCapturesForPath b (vdPath vd) player
  /\ captures vd = oddInterior (vdPath vd)
  /\ (forall c, In c (captures vd) -> isEnemyOf b player c = true)
  /\ In (vdPath vd) (searchFrom b fromTile)
  /\ destination vd = atBack (vdPath vd) 1.
Proof.
  intros Hin Hb Hvd. unfold destinationsFrom in Hvd. apply in_map_iff in Hvd.
  destruct Hvd as [path [<- Hp]]. apply validPaths_incl in Hp.
  cbn [captures vdPath destination makeValidDestination].
  destruct (belongs_piece _ _ _ Hb) as [piece [Hpc <-]].
  destruct (searchFrom_pathShape b fromTile piece Hin Hpc) as [_ Hs].
  rewrite Forall_forall in Hs. specialize (Hs path Hp).
  destruct (pathShape_captures Hpc Hin Hs) as [E [Hen _]].
  repeat split; auto.
  rewrite Forall_forall in Hen. exact Hen.
Qed.

(** C5, as the code has it: the captures of every valid destination are the
    tiles of its path that hold an enemy piece, which are the tiles at the
    odd interior positions of the path; a click on a destination tile other
    than the [from] tile empties the captures of the first valid destination
    that ends on that tile, empties the [from] tile, puts the moved piece on
    the clicked tile and leaves every other tile as it was.  A destination
    that is the [from] tile itself, the cyclic return, is left out: the click
    on it takes the put-back branch of [playGame] (see the cyclic return at
    the end of the file). *)
Theorem playGame_move_captures (v : Variant) (s : GameState) (row column : Z)
    (fromTile : Tile) :
  reachable v s ->
  from (move s) = Some fromTile ->
  (forall vd,
     In vd (validDestinations (move s)) ->
     captures vd = getCapturesForPath (board s) (vdPath vd) (activePlayer s)
     /\ captures vd = oddInterior (vdPath vd)
     /\ forall c, In c (captures vd) -> isEnemyOf (board s) (activePlayer s) c = true)
  /\ (forall tile,
        getTile row column = Some tile -> fromTile <> tile ->
        isToValid s tile = true ->
        exists vd,
          firstDestination s tile = Some vd
          /\ forall t,
               getPiece (board (snd (playGame v row column s))) t
               = if Tile_eqb t tile then getPiece (board s) fromTile
                 else if Tile_eqb t fromTile then None
                 else if includes (captures vd) t then None
                 else getPiece (board s) t).
Proof.
  intros Hreach Hf. apply reachable_GameInv in Hreach.
  pose proof (inv_move v s Hreach) as Hmv. rewrite Hf in Hmv.
  destruct Hmv as [Hin [Hb [Hwin [Hq Hm]]]].
  pose proof (inv_to v s Hreach) as Hto0.
  assert (Hvds : validDestinations (move s)
                 = destinationsFrom v (board s) (activePlayer s) fromTile)
    by (rewrite Hm; reflexivity).
  assert (Hcap : forall vd,
             In vd (validDestinations (move s)) ->
             captures vd = getCapturesForPath (board s) (vdPath vd) (activePlayer s)
             /\ captures vd = oddInterior (vdPath vd)
             /\ forall c, In c (captures vd) -> isEnemyOf (board s) (activePlayer s) c = true).
  { intros vd Hvd. rewrite Hvds in Hvd.
    destruct (destinationsFrom_captures v _ _ _ vd Hin Hb Hvd) as [H1 [H2 [H3 _]]]. auto. }
  split; [exact Hcap | ].
  intros tile Ht Hne Hv.
  unfold isToValid in Hv. apply existsb_find in Hv. destruct Hv as [vd [Hfind Hvd]].
  exists vd. split; [exact Hfind | ].
  assert (Hnotcap : ~ In fromTile (captures vd)).
  { intros Hc. destruct (Hcap vd Hvd) as [_ [_ Hen]]. specialize (Hen _ Hc).
    unfold isEnemyOf in Hen. rewrite Hb in Hen. rewrite andb_false_r in Hen. discriminate. }
  assert (Hcaps : getCapturesForDestination s tile = captures vd)
    by (unfold getCapturesForDestination; rewrite Hfind; reflexivity).
  generalize (playGame_click v row column s).
  generalize (fst (playGame v row column s)) (snd (playGame v row column s)).
  intros o s' Hc.
  destruct Hc
    as [ Ht' | tile' Ht' Hw | tile' Ht' Hw Hq' Hv' | tile' Ht' Hw Hq' Hv'
       | tile' Ht' Hw Hq' Hf' Hv' | tile' Ht' Hw Hq' Hf' Hv' | tile' Ht' Hw Hq' Hf' Hto
       | tile' f' Ht' Hw Hq' Hf' Hto Hne' Hv' | tile' f' Ht' Hw Hq' Hf' Hto Hne' Hv'
       | tile' f' toTile Ht' Hw Hq' Hf' Hto ];
    try congruence.
  - unfold isGameWon, getWinner in Hw. rewrite Hwin in Hw. discriminate.
  - assert (tile' = tile) by congruence. subst tile'.
    assert (f' = fromTile) by congruence. subst f'.
    intros t. destruct (afterMove_fields fromTile tile s) as [Eb _].
    change (board (resetMove (afterMove fromTile tile s)))
      with (board (afterMove fromTile tile s)).
    rewrite Eb, Hcaps. apply movedBoard_spec; assumption.
  - assert (tile' = tile) by congruence. subst tile'.
    unfold isToValid in Hv'.
    assert (X : existsb (fun vd0 => match destination vd0 with
                                    | Some d => Tile_eqb d tile
                                    | None => false
                                    end) (validDestinations (getCurrentMove s)) = true).
    { apply existsb_exists. exists vd. split; [assumption | ].
      apply find_some in Hfind. apply Hfind. }
    congruence.
Qed.

Lemma playGame_move_captures_witness :
  (forall vd,
     In vd (validDestinations (move diamondState)) ->
     captures vd
     = getCapturesForPath (board diamondState) (vdPath vd) (activePlayer diamondState)
     /\ captures vd = oddInterior (vdPath vd)
     /\ forall c, In c (captures vd) ->
                  isEnemyOf (board diamondState) (activePlayer diamondState) c = true)
  /\ (forall tile,
        getTile 7 3 = Some tile -> mkTile 3 3 <> tile ->
        isToValid diamondState tile = true ->
        exists vd,
          firstDestination diamondState tile = Some vd
          /\ forall t,
               getPiece (board (snd (playGame BonusGame 7 3 diamondState))) t
               = if Tile_eqb t tile then getPiece (board diamondState) (mkTile 3 3)
                 else if Tile_eqb t (mkTile 3 3) then None
                 else if includes (captures vd) t then None
                 else getPiece (board diamondState) t).
Proof.
  apply playGame_move_captures.
  - apply clicks_reachable. apply reach_init.
  - vm_compute. reflexivity.
Defined.

(** C5, as stated, fails for a valid destination that shares its tile with
    an earlier one.  In [diamondState] the blue pawn picked up on (3,3) has
    a valid destination on (7,3) whose captures are (4,4) and (6,4); a click
    on (7,3) leaves both pieces on the board and removes the pieces on (4,2)
    and (6,2), the captures of the first valid destination on (7,3). *)
Lemma playGame_shadowed_destination :
  reachable BonusGame diamondState
  /\ from (move diamondState) = Some (mkTile 3 3)
  /\ In shadowedDestination (validDestinations (move diamondState))
  /\ fst (playGame BonusGame 7 3 diamondState)
     = Some (mkInstruction [mkTileInstruction 3 7 blue_pawn;
                            mkTileInstruction 2 4 none; mkTileInstruction 2 6 none]
                           red None)
  /\ getPiece (board (snd (playGame BonusGame 7 3 diamondState))) (mkTile 7 3)
     = Some (mkPiece blue pawn)
  /\ getPiece (board (snd (playGame BonusGame 7 3 diamondState))) (mkTile 4 4)
     = Some (mkPiece red pawn)
  /\ getPiece (board (snd (playGame BonusGame 7 3 diamondState))) (mkTile 6 4)
     = Some (mkPiece red pawn)
  /\ getPiece (board diamondState) (mkTile 4 2) = Some (mkPiece red pawn)
  /\ getPiece (board (snd (playGame BonusGame 7 3 diamondState))) (mkTile 4 2) = None
  /\ getPiece (board diamondState) (mkTile 6 2) = Some (mkPiece red pawn)
  /\ getPiece (board (snd (playGame BonusGame 7 3 diamondState))) (mkTile 6 2) = None.
Proof.
  split; [apply clicks_reachable; apply reach_init | ].
  split; [vm_compute; reflexivity | ].
  split.
  - vm_compute. right. right. left. reflexivity.
  - repeat split; vm_compute; reflexivity.
Qed.

(** * Further properties of the engine *)

(** ** The board *)

(** X1: [getTile] returns the tile with the given coordinates when both are
    in [0,7], and [undefined] otherwise. *)
Theorem getTile_bounds (row column : Z) :
  (0 <= row < 8 /\ 0 <= column < 8 -> getTile row column = Some (mkTile row column))
  /\ (~ (0 <= row < 8 /\ 0 <= column < 8) -> getTile row column = None)
  /\ (forall t, getTile row column = Some t -> getRow t = row /\ getColumn t = column).
Proof.
  split; [ | split].
  - intros H. apply getTile_Some. split; [reflexivity | exact H].
  - apply getTile_None.
  - intros t H. apply getTile_Some in H. destruct H as [-> _]. split; reflexivity.
Qed.

(** * Further properties of the path search *)

Lemma stepFrom_diagonal piece d t :
  In d (getDirections piece) -> diagonalStep t (stepFrom d t).
Proof.
  intros Hd. destruct (getDirections_unit piece d Hd) as [Hc Hr].
  unfold diagonalStep, stepFrom. cbn [getRow getColumn]. lia.
Qed.

Lemma pawn_direction piece d :
  getType piece = pawn -> In d (getDirections piece) ->
  snd d = forward (getOwner piece).
Proof.
  intros Hp Hd. unfold getDirections, isQueen in Hd. rewrite Hp in Hd. cbn in Hd.
  destruct (getOwner piece); cbn in Hd |- *;
    destruct Hd as [<- | [<- | []]]; reflexivity.
Qed.

Lemma jumps_steps b s piece closing x rest :
  jumps b s piece closing x rest ->
  forall i t u,
    nth_error (x :: rest) i = Some t -> nth_error (x :: rest) (S i) = Some u ->
    diagonalStep t u.
Proof.
  induction 1 as [x | x d enemy landing rest Hd He Hl Hen Hie Hil Hemp Hj IH].
  - intros [ | i] t u Ht Hu; cbn in Hu; [discriminate | destruct i; discriminate].
  - intros [ | [ | i]] t u Ht Hu; cbn in Ht, Hu.
    + injection Ht as <-. injection Hu as <-. subst enemy.
      apply (stepFrom_diagonal piece); assumption.
    + injection Ht as <-. injection Hu as <-. subst landing.
      apply (stepFrom_diagonal piece); assumption.
    + apply (IH i t u); assumption.
Qed.

Lemma jumps_onBoard b s piece closing x rest :
  jumps b s piece closing x rest -> Forall (fun t => In t getTiles) rest.
Proof.
  induction 1 as [x | x d enemy landing rest Hd He Hl Hen Hie Hil Hemp Hj IH].
  - apply Forall_nil.
  - apply Forall_cons; [assumption | apply Forall_cons; assumption].
Qed.

Lemma jumps_length b s piece closing x rest :
  jumps b s piece closing x rest ->
  length (x :: rest) = (2 * length (oddInterior (x :: rest)) + 1)%nat.
Proof.
  induction 1 as [x | x d enemy landing rest Hd He Hl Hen Hie Hil Hemp Hj IH].
  - reflexivity.
  - change (oddInterior (x :: enemy :: landing :: rest))
      with (enemy :: oddInterior (landing :: rest)).
    cbn [length] in *. lia.
Qed.

Lemma jumps_pawn_rows b s piece closing x rest :
  getType piece = pawn ->
  jumps b s piece closing x rest ->
  forall i t, nth_error (x :: rest) i = Some t ->
              getRow t = getRow x + forward (getOwner piece) * Z.of_nat i.
Proof.
  intros Hp. induction 1 as [x | x d enemy landing rest Hd He Hl Hen Hie Hil Hemp Hj IH].
  - intros [ | i] t Ht; cbn in Ht; [ | destruct i; discriminate].
    injection Ht as <-. lia.
  - pose proof (pawn_direction piece d Hp Hd) as Hrow.
    intros [ | [ | i]] t Ht; cbn in Ht.
    + injection Ht as <-. lia.
    + injection Ht as <-. subst enemy. cbn [stepFrom getRow]. lia.
    + rewrite (IH i t Ht). subst landing enemy. cbn [stepFrom getRow]. lia.
Qed.

Lemma pathShape_captures_len b s piece p :
  pathShape b s piece p -> (2 <= length p)%nat /\ nth_error p 0 = Some s.
Proof.
  intros Hp. split; [ | apply (pathShape_ends Hp)].
  destruct Hp as [d l Hd Hl He Hb | rest Hj Hne Hnd | rest d e Hj Hne Hd He Hs' Hen Hb Hnd].
  - cbn. lia.
  - destruct Hj; [congruence | cbn; lia].
  - rewrite length_cons, length_app. cbn. lia.
Qed.

(** The geometry of a recorded path. *)
Lemma pathShape_geometry b s piece p :
  In s getTiles ->
  pathShape b s piece p ->
  Forall (fun t => In t getTiles) p
  /\ (forall i t u, nth_error p i = Some t -> nth_error p (S i) = Some u ->
                    diagonalStep t u)
  /\ (length p = 2%nat /\ oddInterior p = []
      \/ length p = (2 * length (oddInterior p) + 1)%nat /\ oddInterior p <> []).
Proof.
  intros Hs Hp.
  assert (J : forall rest, rest <> [] -> jumps b s piece true s rest ->
              Forall (fun t => In t getTiles) (s :: rest)
              /\ (forall i t u, nth_error (s :: rest) i = Some t ->
                                nth_error (s :: rest) (S i) = Some u -> diagonalStep t u)
              /\ (length (s :: rest) = 2%nat /\ oddInterior (s :: rest) = []
                  \/ length (s :: rest) = (2 * length (oddInterior (s :: rest)) + 1)%nat
                     /\ oddInterior (s :: rest) <> [])).
  { intros rest Hne Hj. split; [ | split].
    - constructor; [assumption | ]. apply (jumps_onBoard _ _ _ _ _ _ Hj).
    - apply (jumps_steps _ _ _ _ _ _ Hj).
    - right. split; [apply (jumps_length _ _ _ _ _ _ Hj) | ].
      inversion Hj; subst; [congruence | discriminate]. }
  destruct Hp as [d l Hd Hl He Hb | rest Hj Hne Hnd | rest d e Hj Hne Hd He Hs' Hen Hb Hnd].
  - split; [ | split].
    + repeat (apply Forall_cons; [assumption | ]). apply Forall_nil.
    + intros [ | [ | i]] t u Ht Hu; cbn in Ht, Hu; try discriminate.
      injection Ht as <-. injection Hu as <-. subst l.
      apply (stepFrom_diagonal piece); assumption.
    + left. split; reflexivity.
  - apply J; [assumption | ]. apply jumps_weaken. assumption.
  - apply J; [destruct rest; discriminate | ].
    apply jumps_snoc with d; auto.
Qed.

(** The rows of the path of a pawn. *)
Lemma pathShape_pawn_rows b s piece p :
  In s getTiles -> getType piece = pawn ->
  pathShape b s piece p ->
  forall i t, nth_error p i = Some t ->
              getRow t = getRow s + forward (getOwner piece) * Z.of_nat i.
Proof.
  intros Hs Hpawn Hp.
  destruct Hp as [d l Hd Hl He Hb | rest Hj Hne Hnd | rest d e Hj Hne Hd He Hs' Hen Hb Hnd].
  - pose proof (pawn_direction piece d Hpawn Hd) as Hrow.
    intros [ | [ | i]] t Ht; cbn in Ht; try discriminate.
    + injection Ht as <-. lia.
    + injection Ht as <-. subst l. cbn [stepFrom getRow]. lia.
    + destruct i; discriminate.
  - apply (jumps_pawn_rows b s piece false s rest Hpawn Hj).
  - apply (jumps_pawn_rows b s piece true s (rest ++ [e; s]) Hpawn).
    apply jumps_snoc with d; auto.
Qed.

(** A pawn never returns to a tile: its paths have no repeated tile. *)
Lemma pathShape_pawn_NoDup b s piece p :
  In s getTiles -> getType piece = pawn -> pathShape b s piece p -> NoDup p.
Proof.
  intros Hs Hpawn Hp.
  apply (pathShape_NoDup Hp). intros Hlast.
  destruct (pathShape_captures_len b s piece p Hp) as [Hlen _].
  unfold atBack in Hlast. change (1 - 1)%nat with 0%nat in Hlast.
  pose proof (pathShape_pawn_rows b s piece p Hs Hpawn Hp) as Hrows.
  assert (Hn : nth_error p (length p - 1) = Some s).
  { rewrite nth_error_rev in Hlast.
    destruct (0 <? length p)%nat; [exact Hlast | discriminate]. }
  specialize (Hrows _ _ Hn). destruct (getOwner piece); cbn [forward] in Hrows; lia.
Qed.

(** X2: every path the search records stays on the board, moves one
    diagonal step at a time, and has either two tiles and no capture or
    [2 * k + 1] tiles for its [k >= 1] captures. *)
Theorem setPathsDFS_path_geometry (b : Board) (source : Tile) (piece : Piece)
    (paths : list (list Tile)) :
  In source getTiles -> getPiece b source = Some piece ->
  exists added,
    setPathsDFS boardFuel b source source piece [] paths = Some (paths ++ added)
    /\ forall p, In p added ->
         Forall onBoard p
         /\ (forall i t u, nth_error p i = Some t -> nth_error p (S i) = Some u ->
                           diagonalStep t u)
         /\ (length p = 2%nat /\ getCapturesForPath b p (getOwner piece) = []
             \/ length p = (2 * length (getCapturesForPath b p (getOwner piece)) + 1)%nat
                /\ getCapturesForPath b p (getOwner piece) <> []).
Proof.
  intros Hin Hpc.
  destruct (@setPathsDFS_result b source piece paths Hin Hpc) as [added [E Hs]].
  exists added. split; [exact E | ].
  intros p Hp. rewrite Forall_forall in Hs. specialize (Hs p Hp).
  destruct (pathShape_geometry b source piece p Hin Hs) as [Hon [Hstep Hlen]].
  destruct (pathShape_captures Hpc Hin Hs) as [Ecap _].
  rewrite Ecap. split; [ | split; assumption].
  rewrite Forall_forall in Hon |- *. intros t Ht. apply getTiles_onBoard. auto.
Qed.

Lemma setPathsDFS_path_geometry_witness :
  exists added,
    setPathsDFS boardFuel loopBoard (mkTile 2 2) (mkTile 2 2) (mkPiece blue queen) [] []
    = Some ([] ++ added)
    /\ forall p, In p added ->
         Forall onBoard p
         /\ (forall i t u, nth_error p i = Some t -> nth_error p (S i) = Some u ->
                           diagonalStep t u)
         /\ (length p = 2%nat /\ getCapturesForPath loopBoard p blue = []
             \/ length p = (2 * length (getCapturesForPath loopBoard p blue) + 1)%nat
                /\ getCapturesForPath loopBoard p blue <> []).
Proof.
  apply (setPathsDFS_path_geometry loopBoard (mkTile 2 2) (mkPiece blue queen) []).
  - apply getTiles_onBoard. unfold onBoard. simpl. lia.
  - reflexivity.
Defined.

(** X3: a pawn advances one row with every tile of its paths, towards the
    far side of its owner; no path of a pawn returns to a tile. *)
Theorem setPathsDFS_pawn_advances (b : Board) (source : Tile) (piece : Piece)
    (paths : list (list Tile)) :
  In source getTiles -> getPiece b source = Some piece -> getType piece = pawn ->
  exists added,
    setPathsDFS boardFuel b source source piece [] paths = Some (paths ++ added)
    /\ forall p, In p added ->
         NoDup p
         /\ forall i t, nth_error p i = Some t ->
                        getRow t = getRow source + forward (getOwner piece) * Z.of_nat i.
Proof.
  intros Hin Hpc Hpawn.
  destruct (@setPathsDFS_result b source piece paths Hin Hpc) as [added [E Hs]].
  exists added. split; [exact E | ].
  intros p Hp. rewrite Forall_forall in Hs. specialize (Hs p Hp). split.
  - apply (pathShape_pawn_NoDup b source piece); assumption.
  - apply (pathShape_pawn_rows b source piece); assumption.
Qed.

Lemma setPathsDFS_pawn_advances_witness :
  exists added,
    setPathsDFS boardFuel (board diamondState) (mkTile 3 3) (mkTile 3 3)
                (mkPiece blue pawn) [] []
    = Some ([] ++ added)
    /\ forall p, In p added ->
         NoDup p
         /\ forall i t, nth_error p i = Some t ->
                        getRow t = getRow (mkTile 3 3) + forward blue * Z.of_nat i.
Proof.
  apply (setPathsDFS_pawn_advances (board diamondState) (mkTile 3 3) (mkPiece blue pawn) []).
  - apply getTiles_onBoard. unfold onBoard. simpl. lia.
  - vm_compute. reflexivity.
  - reflexivity.
Defined.

(** A pawn on the last row in its direction has no path. *)
Lemma searchFrom_pawn_last_row b tile piece :
  In tile getTiles -> getPiece b tile = Some piece -> getType piece = pawn ->
  getRow tile = winningRow (getOwner piece) ->
  searchFrom b tile = [].
Proof.
  intros Hin Hpc Hpawn Hrow.
  destruct (searchFrom_pathShape b tile piece Hin Hpc) as [_ Hs].
  destruct (searchFrom b tile) as [ | p ps]; [reflexivity | exfalso].
  apply Forall_inv in Hs.
  destruct (pathShape_captures_len b tile piece p Hs) as [Hlen _].
  destruct (pathShape_geometry b tile piece p Hin Hs) as [Hon _].
  destruct p as [ | t0 [ | t1 p]]; cbn in Hlen; try lia.
  pose proof (pathShape_pawn_rows b tile piece _ Hin Hpawn Hs 1%nat t1 eq_refl) as Hr.
  apply Forall_inv_tail in Hon. apply Forall_inv in Hon.
  apply getTiles_onBoard in Hon. destruct Hon as [Hon _].
  destruct (getOwner piece); cbn [forward winningRow] in *; lia.
Qed.

Lemma getTile_In row column tile : getTile row column = Some tile -> In tile getTiles.
Proof.
  intros Ht. apply getTile_Some in Ht. destruct Ht as [_ Ht].
  apply getTiles_onBoard. assumption.
Qed.

Lemma playGame_outcome v row column s :
  GameInv v s ->
  outcome v row column s (fst (playGame v row column s)) (snd (playGame v row column s)).
Proof.
  intros Hinv.
  pose proof (inv_move v s Hinv) as Hmv.
  pose proof (inv_to v s Hinv) as Hto0.
  generalize (playGame_click v row column s).
  generalize (fst (playGame v row column s)) (snd (playGame v row column s)).
  intros o s' Hc.
  destruct Hc
    as [ Ht | tile Ht Hw | tile Ht Hw Hq Hv | tile Ht Hw Hq Hv
       | tile Ht Hw Hq Hf Hv | tile Ht Hw Hq Hf Hv | tile Ht Hw Hq Hf Hto
       | tile fromTile Ht Hw Hq Hf Hto Hne Hv | tile fromTile Ht Hw Hq Hf Hto Hne Hv
       | tile fromTile toTile Ht Hw Hq Hf Hto ];
    try apply outcome_ignored;
    try (apply isGameWon_false in Hw).
  - (* a new queen *)
    assert (Hm : move s = emptyMove).
    { destruct (from (move s)) as [f | ]; [ | assumption].
      destruct Hmv as [_ [_ [_ [Hq' _]]]]. congruence. }
    unfold getWinner.
    apply (outcome_crowned v row column s tile); assumption.
  - (* a refused source tile *)
    rewrite Hf in Hmv.
    rewrite (isFromValid_state v tile (activePlayer s) s (getTile_In _ _ _ Ht)).
    destruct (tileBelongsToPlayer (board s) tile (activePlayer s)).
    + rewrite (resetMove_id s Hmv). apply outcome_ignored.
    + apply outcome_ignored.
  - (* an accepted source tile *)
    rewrite Hf in Hmv.
    pose proof (getTile_In _ _ _ Ht) as Hin.
    rewrite (setFrom_after_isFromValid v tile (activePlayer s) s Hin Hv).
    unfold getWinner. cbn [winner withMove]. rewrite Hw.
    apply (outcome_picked v row column s tile); try assumption.
    apply (isFromValid_belongs v tile (activePlayer s) s Hin Hv).
  - (* the piece is put back *)
    unfold getWinner. rewrite Hw.
    apply (outcome_back v row column s tile); assumption.
  - (* a move *)
    unfold getWinner.
    apply (outcome_moved v row column s tile fromTile); assumption.
Qed.

(** * The board during a game *)

Lemma diagonalStep_playable t u : diagonalStep t u -> playable t -> playable u.
Proof.
  unfold diagonalStep, playable. intros [Hr Hc] Hp.
  Z.to_euclidean_division_equations. lia.
Qed.

Lemma path_playable (p : list Tile) (s : Tile) :
  (forall i t u, nth_error p i = Some t -> nth_error p (S i) = Some u -> diagonalStep t u) ->
  nth_error p 0 = Some s -> playable s ->
  forall i t, nth_error p i = Some t -> playable t.
Proof.
  intros Hstep H0 Hs. induction i as [ | i IH]; intros t Ht.
  - congruence.
  - destruct (nth_error p i) as [u | ] eqn:Eu.
    + apply (diagonalStep_playable u t); [ | apply IH; reflexivity].
      apply (Hstep i); assumption.
    + exfalso. apply nth_error_None in Eu.
      assert (X : nth_error p (S i) = None) by (apply nth_error_None; lia).
      congruence.
Qed.

Lemma atBack_In (p : list Tile) (t : Tile) : atBack p 1 = Some t -> In t p.
Proof.
  unfold atBack. intros H. apply nth_error_In in H. apply in_rev. assumption.
Qed.

Transparent getTiles.

Lemma getTiles_indices : getTiles = map tileOfIndex indices.
Proof. reflexivity. Qed.

Opaque getTiles.

Lemma fold_setPiece_other (f : Z -> option Piece) (l : list Z) (b0 : Board) (t : Tile) :
  (forall i, In i l -> tileOfIndex i <> t) ->
  getPiece (fold_left (fun b index => setPiece (tileOfIndex index) (f index) b) l b0) t
  = getPiece b0 t.
Proof.
  revert b0. induction l as [ | i l IH]; intros b0 H; cbn [fold_left].
  - reflexivity.
  - rewrite IH by (intros j Hj; apply H; right; assumption).
    apply setPiece_other. intros E. apply (H i); [left; reflexivity | congruence].
Qed.

Lemma newBoard_dark t piece :
  getPiece newBoard t = Some piece -> onBoard t /\ playable t.
Proof.
  intros Hp. destruct (in_dec Tile_eq_dec t getTiles) as [Hin | Hout].
  - split; [apply getTiles_onBoard; assumption | ].
    assert (H : forallb (fun t => match getPiece newBoard t with
                                  | Some _ => (getRow t + getColumn t) mod 2 =? 0
                                  | None => true
                                  end) getTiles = true)
      by (vm_compute; reflexivity).
    rewrite forallb_forall in H. specialize (H t Hin). rewrite Hp in H.
    apply Z.eqb_eq in H. exact H.
  - exfalso. unfold newBoard in Hp. rewrite fold_setPiece_other in Hp; [discriminate | ].
    intros i Hi E. apply Hout. rewrite getTiles_indices, <- E. apply in_map. assumption.
Qed.

(** The facts about a move to a valid destination. *)
Lemma moved_facts v s fromTile tile :
  GameInv v s -> from (move s) = Some fromTile -> fromTile <> tile ->
  isToValid s tile = true ->
  exists vd piece,
    firstDestination s tile = Some vd
    /\ In vd (destinationsFrom v (board s) (activePlayer s) fromTile)
    /\ getCapturesForDestination s tile = captures vd
    /\ getPiece (board s) fromTile = Some piece
    /\ getOwner piece = activePlayer s
    /\ pathShape (board s) fromTile piece (vdPath vd)
    /\ atBack (vdPath vd) 1 = Some tile
    /\ getPiece (board s) tile = None
    /\ ~ In fromTile (captures vd)
    /\ ~ In tile (captures vd)
    /\ (forall c, In c (captures vd) ->
                  In c getTiles /\ isEnemyOf (board s) (activePlayer s) c = true)
    /\ board (resetMove (afterMove fromTile tile s))
       = movedBoard (captures vd) fromTile tile (board s).
Proof.
  intros Hinv Hf Hne Hv.
  pose proof (inv_move v s Hinv) as Hmv. rewrite Hf in Hmv.
  destruct Hmv as [Hin [Hb [Hwin [Hq Hm]]]].
  assert (Hvds : validDestinations (move s)
                 = destinationsFrom v (board s) (activePlayer s) fromTile)
    by (rewrite Hm; reflexivity).
  unfold isToValid in Hv. apply existsb_find in Hv. destruct Hv as [vd [Hfind Hvd]].
  unfold getCurrentMove in Hvd. rewrite Hvds in Hvd.
  destruct (destinationsFrom_captures v _ _ _ vd Hin Hb Hvd) as [H1 [H2 [H3 [H4 H5]]]].
  destruct (belongs_piece _ _ _ Hb) as [piece [Hpc Ho]].
  destruct (searchFrom_pathShape (board s) fromTile piece Hin Hpc) as [_ Hs].
  rewrite Forall_forall in Hs. specialize (Hs _ H4).
  assert (Hdest : destination vd = Some tile).
  { apply find_some in Hfind. destruct Hfind as [_ Hd].
    destruct (destination vd) as [d | ]; [ | discriminate].
    apply Tile_eqb_eq in Hd. congruence. }
  assert (Hlast : atBack (vdPath vd) 1 = Some tile) by congruence.
  assert (Hempty : getPiece (board s) tile = None).
  { destruct (pathShape_ends Hs) as [_ [l [El [Hl | [Hl _]]]]].
    - rewrite Hlast in El. injection El as <-.
      unfold isTileOcuppied in Hl. destruct (getPiece (board s) tile); [discriminate | reflexivity].
    - congruence. }
  assert (Hcaps : getCapturesForDestination s tile = captures vd)
    by (unfold getCapturesForDestination; unfold firstDestination in Hfind;
        rewrite Hfind; reflexivity).
  exists vd, piece. repeat (split; [assumption | ]).
  split; [ | split; [ | split]].
  - intros Hc. specialize (H3 _ Hc).
    unfold isEnemyOf in H3. rewrite Hb in H3. rewrite andb_false_r in H3. discriminate.
  - intros Hc. specialize (H3 _ Hc).
    unfold isEnemyOf, isTileOcuppied in H3. rewrite Hempty in H3. discriminate.
  - intros c Hc. split; [ | apply H3; assumption].
    destruct (pathShape_geometry (board s) fromTile piece _ Hin Hs) as [Hon _].
    rewrite Forall_forall in Hon. apply Hon.
    rewrite H1 in Hc. unfold getCapturesForPath in Hc. apply filter_In in Hc. apply Hc.
  - destruct (afterMove_fields fromTile tile s) as [Eb _].
    change (board (resetMove (afterMove fromTile tile s)))
      with (board (afterMove fromTile tile s)).
    rewrite Eb, Hcaps. reflexivity.
Qed.

Lemma isFromValid_destinations v tile player s :
  In tile getTiles -> fst (isFromValid v tile player s) = true ->
  destinationsFrom v (board s) player tile <> [].
Proof.
  intros Hin Hv.
  pose proof (isFromValid_belongs v tile player s Hin Hv) as Hb.
  destruct v.
  - rewrite (isFromValid_BaseGame tile player s Hin), Hb in Hv. cbn [fst] in Hv.
    intros E. rewrite E in Hv. discriminate.
  - rewrite (isFromValid_BonusGame_fst tile player s Hin), Hb in Hv. cbn [andb] in Hv.
    destruct (existsb (hasCapturingPath (board s)) (tilesOf (board s) player)).
    + rewrite <- (hasCaptureDestination_eq (board s) player tile) in Hv
        by (apply tilesOf_In; split; assumption).
      unfold hasCaptureDestination in Hv. intros E. rewrite E in Hv. discriminate.
    + unfold hasDestination in Hv. intros E. rewrite E in Hv. discriminate.
Qed.

Lemma belongs_of_piece b t piece :
  getPiece b t = Some piece -> tileBelongsToPlayer b t (getOwner piece) = true.
Proof.
  intros H. unfold tileBelongsToPlayer. rewrite H. apply Player_eqb_refl.
Qed.

Lemma moved_to_piece v s fromTile tile :
  GameInv v s -> from (move s) = Some fromTile -> fromTile <> tile ->
  isToValid s tile = true ->
  In tile getTiles
  /\ tileBelongsToPlayer (board (resetMove (afterMove fromTile tile s))) tile (activePlayer s)
     = true
  /\ getPiece (board (resetMove (afterMove fromTile tile s))) tile
     = getPiece (board s) fromTile.
Proof.
  intros Hinv Hf Hne Hv.
  destruct (moved_facts v s fromTile tile Hinv Hf Hne Hv)
    as [vd [piece [_ [_ [_ [Hpc [Ho [Hs [Hlast [_ [Hnf [_ [_ Eb]]]]]]]]]]]]].
  pose proof (inv_move v s Hinv) as Hmv. rewrite Hf in Hmv. destruct Hmv as [Hin _].
  assert (E : getPiece (board (resetMove (afterMove fromTile tile s))) tile
              = getPiece (board s) fromTile).
  { rewrite Eb, movedBoard_spec by assumption. rewrite Tile_eqb_refl. reflexivity. }
  split; [ | split; [ | exact E]].
  - destruct (pathShape_geometry (board s) fromTile piece _ Hin Hs) as [Hon _].
    rewrite Forall_forall in Hon. apply Hon. apply atBack_In. assumption.
  - unfold tileBelongsToPlayer. rewrite E, Hpc, Ho. apply Player_eqb_refl.
Qed.

Lemma playGame_BoardInv v row column s :
  GameInv v s -> BoardInv s -> BoardInv (snd (playGame v row column s)).
Proof.
  intros Hinv [Hdark Hwon Halive Hdests].
  generalize (playGame_outcome v row column s Hinv).
  generalize (fst (playGame v row column s)) (snd (playGame v row column s)).
  intros o s' Ho.
  destruct Ho as [ | tile Ht Hw Hq Hv Hm | tile Ht Hw Hq Hm Hv Hb | tile Ht Hw Hq Hf
                 | tile fromTile Ht Hw Hq Hf Hne Hv ].
  - constructor; assumption.
  - (* a new queen *)
    destruct (promoted_fields tile s) as [Eb [Em [Ea Hcase]]].
    destruct (isValidQueen_tilesOf (board s) tile (activePlayer s) Hv) as [_ Htile].
    apply tilesOf_In in Htile. destruct Htile as [Hin Hb].
    constructor; rewrite ?Eb, ?Em, ?Ea.
    + intros t piece Hp. destruct (Tile_eq_dec t tile) as [-> | Hne].
      * destruct (belongs_piece _ _ _ Hb) as [q [Hq' _]]. apply (Hdark tile q Hq').
      * rewrite setPiece_other in Hp by assumption. apply (Hdark t piece Hp).
    + intros w E. destruct Hcase as [[Hwn [E' _]] | [_ [E' _]]]; rewrite E' in E.
      * injection E as <-. assumption.
      * congruence.
    + exists tile. split; [assumption | ].
      unfold tileBelongsToPlayer. rewrite setPiece_same. apply Player_eqb_refl.
    + rewrite Hm. discriminate.
  - (* a piece is picked up *)
    constructor; cbn [board winner activePlayer move withMove searchedMove
                      from validDestinations]; try assumption.
    intros f _. apply isFromValid_destinations; [ | assumption].
    apply (getTile_In row column). assumption.
  - (* the piece is put back *)
    constructor; cbn [board winner activePlayer move withMove resetMove emptyMove from];
      try assumption.
    discriminate.
  - (* a move *)
    destruct (moved_facts v s fromTile tile Hinv Hf Hne Hv)
      as [vd [piece [_ [_ [_ [Hpc [Hown [Hs [Hlast [_ [Hnf [_ [_ Eb]]]]]]]]]]]]].
    destruct (moved_to_piece v s fromTile tile Hinv Hf Hne Hv) as [Hin [Hb' _]].
    pose proof (inv_move v s Hinv) as Hmv. rewrite Hf in Hmv. destruct Hmv as [Hinf _].
    destruct (afterMove_fields fromTile tile s) as [Eb0 Hcase].
    assert (Eb1 : board (afterMove fromTile tile s)
                  = board (resetMove (afterMove fromTile tile s))) by reflexivity.
    rewrite <- Eb0, Eb1 in Hcase.
    constructor;
      change (winner (resetMove (afterMove fromTile tile s)))
        with (winner (afterMove fromTile tile s));
      change (activePlayer (resetMove (afterMove fromTile tile s)))
        with (activePlayer (afterMove fromTile tile s)).
    + intros t q Hq'. rewrite Eb in Hq'. apply movedBoard_piece in Hq'.
      destruct Hq' as [[-> _] | [_ [_ Hq']]]; [ | apply (Hdark t q Hq')].
      split; [apply getTiles_onBoard; assumption | ].
      destruct (pathShape_geometry (board s) fromTile piece _ Hinf Hs) as [_ [Hstep _]].
      destruct (pathShape_captures_len (board s) fromTile piece _ Hs) as [_ H0].
      apply atBack_In in Hlast. apply In_nth_error in Hlast. destruct Hlast as [i Hi].
      apply (path_playable (vdPath vd) fromTile Hstep H0) with i; [ | assumption].
      apply (Hdark fromTile piece Hpc).
    + intros w E. destruct Hcase as [[Hwn [E' _]] | [_ [E' _]]]; rewrite E' in E.
      * injection E as <-. assumption.
      * congruence.
    + destruct Hcase as [[_ [_ [_ ->]]] | [_ [_ [_ ->]]]].
      * exists tile. split; assumption.
      * destruct (rivalHasPieces _ (activePlayer s)) eqn:Er.
        -- apply rivalHasPieces_spec in Er. exact Er.
        -- exists tile. split; assumption.
    + cbn. discriminate.
Qed.

Lemma initialState_BoardInv : BoardInv initialState.
Proof.
  constructor; cbn [board winner activePlayer move initialState emptyMove from].
  - apply newBoard_dark.
  - discriminate.
  - exists (mkTile 0 0). split; [ | vm_compute; reflexivity].
    apply getTiles_onBoard. unfold onBoard. simpl. lia.
  - discriminate.
Qed.

Lemma reachable_BoardInv v s : reachable v s -> BoardInv s.
Proof.
  induction 1 as [ | s row column H IH | s H IH].
  - apply initialState_BoardInv.
  - apply playGame_BoardInv; [apply reachable_GameInv | ]; assumption.
  - apply initialState_BoardInv.
Qed.

(** * Properties of every game *)

Lemma idle_exists b player : playerOnBoard b player -> exists tile, isIdlePiece b player tile.
Proof.
  intros [t0 [Hin0 Hb0]]. unfold isIdlePiece.
  assert (H0 : In t0 (tilesOf b player)) by (apply tilesOf_In; auto).
  assert (Hall : forall t, In t (tilesOf b player) ->
                           In t getTiles /\ tileBelongsToPlayer b t player = true)
    by (intros t; apply tilesOf_In).
  assert (Hback : forall t, In t getTiles -> tileBelongsToPlayer b t player = true ->
                            In t (tilesOf b player))
    by (intros t H1 H2; apply tilesOf_In; auto).
  revert H0 Hall Hback. generalize (tilesOf b player). intros l H0 Hall Hback.
  apply getTiles_onBoard in Hin0 as Hon0. destruct Hon0 as [Hr0 _].
  destruct player.
  - destruct (fold_min_row l 7) as [H1 [H2 H3]]. cbv zeta in H1, H2, H3.
    destruct H3 as [H3 | [t [Ht E]]].
    + exists t0. repeat split; auto. intros t Ht Hbt.
      specialize (H2 t (Hback t Ht Hbt)). lia.
    + exists t. destruct (Hall t Ht). repeat split; auto. intros t' Ht' Hbt'.
      specialize (H2 t' (Hback t' Ht' Hbt')). lia.
  - destruct (fold_max_row l 0) as [H1 [H2 H3]]. cbv zeta in H1, H2, H3.
    destruct H3 as [H3 | [t [Ht E]]].
    + exists t0. repeat split; auto. intros t Ht Hbt.
      specialize (H2 t (Hback t Ht Hbt)). lia.
    + exists t. destruct (Hall t Ht). repeat split; auto. intros t' Ht' Hbt'.
      specialize (H2 t' (Hback t' Ht' Hbt')). lia.
Qed.

(** X4: in every state of a game, every piece stands on a tile of the 8x8
    board whose row and column have an even sum. *)
Theorem reachable_pieces_on_dark_tiles (v : Variant) (s : GameState) (t : Tile)
    (piece : Piece) :
  reachable v s -> getPiece (board s) t = Some piece -> onBoard t /\ playable t.
Proof.
  intros Hreach. apply (inv_dark s (reachable_BoardInv v s Hreach)).
Qed.

Lemma reachable_pieces_on_dark_tiles_witness :
  onBoard (mkTile 7 3) /\ playable (mkTile 7 3).
Proof.
  apply (reachable_pieces_on_dark_tiles BonusGame lastRowState (mkTile 7 3)
           (mkPiece blue pawn)).
  - apply reach_click. apply clicks_reachable. apply reach_init.
  - vm_compute. reflexivity.
Defined.

(** X5: in every state of a game the winner is set exactly when a queen
    stands on its winning row: with a winner [w] the game is inactive, [w]
    is the active player, the queen of [w] stands on the winning row of [w]
    and no piece is picked up; without a winner the game is active and no
    queen stands on its winning row. *)
Theorem reachable_winner (v : Variant) (s : GameState) :
  reachable v s ->
  (forall w, winner s = Some w ->
             status s = inactive /\ activePlayer s = w
             /\ queenOnWinningRow (board s) w /\ move s = emptyMove)
  /\ (winner s = None ->
      status s = active /\ forall p, ~ queenOnWinningRow (board s) p).
Proof.
  intros Hreach.
  pose proof (reachable_GameInv v s Hreach) as Hinv.
  pose proof (reachable_BoardInv v s Hreach) as Hb.
  split.
  - intros w Hw.
    destruct (inv_winner v s Hinv w Hw) as [Ha _].
    split; [ | split; [assumption | split]].
    + rewrite (inv_status v s Hinv), Hw. reflexivity.
    + apply hasPlayerWon_queenOnWinningRow. apply (inv_won s Hb). assumption.
    + pose proof (inv_move v s Hinv) as Hmv.
      destruct (from (move s)) as [f | ]; [ | assumption].
      destruct Hmv as [_ [_ [Hnone _]]]. congruence.
  - intros Hw. split.
    + rewrite (inv_status v s Hinv), Hw. reflexivity.
    + intros p [t [Hin [Hq Hrow]]].
      apply (inv_rank v s Hinv Hw p t Hin Hq). assumption.
Qed.

Lemma reachable_winner_witness :
  (forall w, winner wonState = Some w ->
             status wonState = inactive /\ activePlayer wonState = w
             /\ queenOnWinningRow (board wonState) w /\ move wonState = emptyMove)
  /\ (winner wonState = None ->
      status wonState = active /\ forall p, ~ queenOnWinningRow (board wonState) p).
Proof.
  apply (reachable_winner BaseGame wonState).
  apply reach_click. apply clicks_reachable. apply reach_init.
Defined.

Lemma instructionTile_capture c :
  instructionTile (mkTileInstruction (getColumn c) (getRow c) none) = c.
Proof. destruct c. reflexivity. Qed.

(** X6: an instruction returned by [playGame] describes the state the call
    leaves: [playing] is the active player and [winner] the winner of that
    state, the first tile instruction addresses the clicked tile with what
    the view shows there, and every other tile instruction empties a tile
    that is empty in that state. *)
Theorem playGame_instruction_state (v : Variant) (s : GameState) (row column : Z)
    (i : Instruction) :
  reachable v s ->
  fst (playGame v row column s) = Some i ->
  playing i = activePlayer (snd (playGame v row column s))
  /\ instrWinner i = winner (snd (playGame v row column s))
  /\ exists tile rest,
       getTile row column = Some tile
       /\ tileInstructions i
          = mkTileInstruction column row (shownOwner (snd (playGame v row column s)) tile)
            :: rest
       /\ Forall (fun ti => newOwner ti = none
                            /\ In (instructionTile ti) getTiles
                            /\ getPiece (board (snd (playGame v row column s)))
                                        (instructionTile ti) = None) rest.
Proof.
  intros Hreach. pose proof (reachable_GameInv v s Hreach) as Hinv.
  generalize (playGame_outcome v row column s Hinv).
  generalize (fst (playGame v row column s)) (snd (playGame v row column s)).
  intros o s' Ho Ei.
  destruct Ho as [ | tile Ht Hw Hq Hv Hm | tile Ht Hw Hq Hm Hv Hb | tile Ht Hw Hq Hf
                 | tile fromTile Ht Hw Hq Hf Hne Hv ];
    [discriminate | | | | ]; injection Ei as <-;
    cbn [playing instrWinner tileInstructions].
  - (* a new queen *)
    destruct (promoted_fields tile s) as [Eb [Em [Ea _]]].
    split; [symmetry; exact Ea | split; [reflexivity | ]].
    exists tile, []. split; [assumption | split; [ | apply Forall_nil]].
    unfold shownOwner, getTileOwnerString. rewrite Em, Hm, Eb, setPiece_same. reflexivity.
  - (* a piece is picked up *)
    split; [reflexivity | split; [symmetry; exact Hw | ]].
    exists tile, []. split; [assumption | split; [ | apply Forall_nil]].
    unfold shownOwner. cbn [move withMove searchedMove from].
    rewrite Tile_eqb_refl. reflexivity.
  - (* the piece is put back *)
    split; [reflexivity | split; [symmetry; exact Hw | ]].
    exists tile, []. split; [assumption | split; [ | apply Forall_nil]].
    reflexivity.
  - (* a move *)
    split; [reflexivity | split; [reflexivity | ]].
    destruct (moved_facts v s fromTile tile Hinv Hf Hne Hv)
      as [vd [piece [_ [_ [Hcaps [Hpc [_ [_ [_ [_ [Hnf [Hnt [Hen Eb]]]]]]]]]]]]].
    destruct (moved_to_piece v s fromTile tile Hinv Hf Hne Hv) as [_ [_ Eto]].
    exists tile, (getCaptureInstructions (getCapturesForDestination s tile)).
    split; [assumption | split].
    + unfold shownOwner, getTileOwnerString. cbn [move resetMove withMove emptyMove from].
      rewrite Eto. reflexivity.
    + rewrite Hcaps. unfold getCaptureInstructions. rewrite Forall_map, Forall_forall.
      intros c Hc. cbn [newOwner]. rewrite instructionTile_capture.
      split; [reflexivity | split; [apply Hen; assumption | ]].
      rewrite Eb, movedBoard_spec by assumption.
      destruct (Tile_eqb c tile) eqn:Ec; [ | destruct (Tile_eqb c fromTile)].
      * apply Tile_eqb_eq in Ec. subst c. contradiction.
      * reflexivity.
      * replace (includes (captures vd) c) with true; [reflexivity | ].
        symmetry. apply includes_In. assumption.
Qed.

Lemma playGame_instruction_state_witness :
  playing (mkInstruction [mkTileInstruction 3 7 blue_pawn;
                          mkTileInstruction 2 4 none; mkTileInstruction 2 6 none]
                         red None)
  = activePlayer (snd (playGame BonusGame 7 3 diamondState))
  /\ instrWinner (mkInstruction [mkTileInstruction 3 7 blue_pawn;
                                 mkTileInstruction 2 4 none; mkTileInstruction 2 6 none]
                                red None)
     = winner (snd (playGame BonusGame 7 3 diamondState))
  /\ exists tile rest,
       getTile 7 3 = Some tile
       /\ tileInstructions (mkInstruction [mkTileInstruction 3 7 blue_pawn;
                                           mkTileInstruction 2 4 none;
                                           mkTileInstruction 2 6 none]
                                          red None)
          = mkTileInstruction 3 7 (shownOwner (snd (playGame BonusGame 7 3 diamondState)) tile)
            :: rest
       /\ Forall (fun ti => newOwner ti = none
                            /\ In (instructionTile ti) getTiles
                            /\ getPiece (board (snd (playGame BonusGame 7 3 diamondState)))
                                        (instructionTile ti) = None) rest.
Proof.
  apply (playGame_instruction_state BonusGame diamondState 7 3).
  - apply clicks_reachable. apply reach_init.
  - vm_compute. reflexivity.
Defined.

Lemma playGame_put_back v row column s tile :
  getTile row column = Some tile -> winner s = None ->
  playerHasQueen (board s) (activePlayer s) = true ->
  from (move s) = Some tile -> to (move s) = None ->
  playGame v row column s
  = (Some (mkInstruction
             [mkTileInstruction column row (getTileOwnerString (board s) tile)]
             (activePlayer s) None), resetMove s).
Proof.
  intros Ht Hw Hq Hf Hto.
  rewrite (surjective_pairing (playGame v row column s)).
  generalize (playGame_click v row column s).
  generalize (fst (playGame v row column s)) (snd (playGame v row column s)).
  intros o s' Hc.
  destruct Hc
    as [ Ht' | tile' Ht' Hw' | tile' Ht' Hw' Hq' Hv' | tile' Ht' Hw' Hq' Hv'
       | tile' Ht' Hw' Hq' Hf' Hv' | tile' Ht' Hw' Hq' Hf' Hv' | tile' Ht' Hw' Hq' Hf' Hto'
       | tile' f' Ht' Hw' Hq' Hf' Hto' Hne' Hv' | tile' f' Ht' Hw' Hq' Hf' Hto' Hne' Hv'
       | tile' f' toTile Ht' Hw' Hq' Hf' Hto' ];
    try congruence.
  - apply isGameWon_false in Hw. congruence.
  - assert (tile' = tile) by congruence. subst tile'.
    unfold getWinner. rewrite Hw. reflexivity.
Qed.

Lemma playGame_moved v row column s tile fromTile :
  GameInv v s -> getTile row column = Some tile ->
  from (move s) = Some fromTile -> fromTile <> tile -> isToValid s tile = true ->
  playGame v row column s
  = (Some (mkInstruction
             (mkTileInstruction column row (getTileOwnerString (board s) fromTile)
              :: getCaptureInstructions (getCapturesForDestination s tile))
             (activePlayer (afterMove fromTile tile s))
             (winner (afterMove fromTile tile s))),
     resetMove (afterMove fromTile tile s)).
Proof.
  intros Hinv Ht Hf Hne Hv.
  pose proof (inv_move v s Hinv) as Hmv. rewrite Hf in Hmv.
  destruct Hmv as [_ [_ [Hw [Hq _]]]].
  pose proof (inv_to v s Hinv) as Hto.
  rewrite (surjective_pairing (playGame v row column s)).
  generalize (playGame_click v row column s).
  generalize (fst (playGame v row column s)) (snd (playGame v row column s)).
  intros o s' Hc.
  destruct Hc
    as [ Ht' | tile' Ht' Hw' | tile' Ht' Hw' Hq' Hv' | tile' Ht' Hw' Hq' Hv'
       | tile' Ht' Hw' Hq' Hf' Hv' | tile' Ht' Hw' Hq' Hf' Hv' | tile' Ht' Hw' Hq' Hf' Hto'
       | tile' f' Ht' Hw' Hq' Hf' Hto' Hne' Hv' | tile' f' Ht' Hw' Hq' Hf' Hto' Hne' Hv'
       | tile' f' toTile Ht' Hw' Hq' Hf' Hto' ];
    try congruence.
  - apply isGameWon_false in Hw. congruence.
  - assert (tile' = tile) by congruence. assert (f' = fromTile) by congruence.
    subst tile' f'. reflexivity.
Qed.

(** X7: picking a piece up and clicking it again puts it back: the second
    click returns the label of the piece for the clicked tile and leaves the
    game in the state it had before the piece was picked up. *)
Theorem playGame_pick_and_put_back (v : Variant) (s : GameState) (row column : Z)
    (i : Instruction) :
  reachable v s ->
  playerHasQueen (board s) (activePlayer s) = true ->
  from (move s) = None ->
  fst (playGame v row column s) = Some i ->
  exists tile,
    getTile row column = Some tile
    /\ from (move (snd (playGame v row column s))) = Some tile
    /\ playGame v row column (snd (playGame v row column s))
       = (Some (mkInstruction
                  [mkTileInstruction column row (getTileOwnerString (board s) tile)]
                  (activePlayer s) None), s).
Proof.
  intros Hreach Hq Hf Ei.
  pose proof (reachable_GameInv v s Hreach) as Hinv.
  revert Ei. generalize (playGame_outcome v row column s Hinv).
  generalize (fst (playGame v row column s)) (snd (playGame v row column s)).
  intros o s' Ho Ei.
  destruct Ho as [ | tile Ht Hw Hq' Hv Hm | tile Ht Hw Hq' Hm Hv Hb | tile Ht Hw Hq' Hf'
                 | tile fromTile Ht Hw Hq' Hf' Hne Hv ];
    try congruence.
  exists tile. split; [assumption | split; [reflexivity | ]].
  rewrite (playGame_put_back v row column _ tile); try assumption; try reflexivity.
  rewrite resetMove_withMove, (resetMove_id s Hm). reflexivity.
Qed.

Lemma playGame_pick_and_put_back_witness :
  exists tile,
    getTile 2 2 = Some tile
    /\ from (move (snd (playGame BonusGame 2 2 initialState))) = Some tile
    /\ playGame BonusGame 2 2 (snd (playGame BonusGame 2 2 initialState))
       = (Some (mkInstruction
                  [mkTileInstruction 2 2 (getTileOwnerString (board initialState) tile)]
                  (activePlayer initialState) None), initialState).
Proof.
  apply (playGame_pick_and_put_back BonusGame initialState 2 2
           (mkInstruction [mkTileInstruction 2 2 none] blue None)).
  - apply reach_init.
  - vm_compute. reflexivity.
  - reflexivity.
  - vm_compute. reflexivity.
Defined.

(** X8: a click never moves, changes or creates a piece of the player who
    is not playing: every piece of the rival on the board after the click
    stood on the same tile before it. *)
Theorem playGame_rival_pieces_only_removed (v : Variant) (s : GameState) (row column : Z)
    (t : Tile) (q : Piece) :
  reachable v s ->
  getPiece (board (snd (playGame v row column s))) t = Some q ->
  getOwner q <> activePlayer s ->
  getPiece (board s) t = Some q.
Proof.
  intros Hreach. pose proof (reachable_GameInv v s Hreach) as Hinv.
  generalize (playGame_outcome v row column s Hinv).
  generalize (fst (playGame v row column s)) (snd (playGame v row column s)).
  intros o s' Ho Hq Hown.
  destruct Ho as [ | tile Ht Hw Hq' Hv Hm | tile Ht Hw Hq' Hm Hv Hb | tile Ht Hw Hq' Hf
                 | tile fromTile Ht Hw Hq' Hf Hne Hv ];
    try exact Hq.
  - destruct (promoted_fields tile s) as [Eb _]. rewrite Eb in Hq.
    destruct (Tile_eq_dec t tile) as [-> | Hne].
    + rewrite setPiece_same in Hq. injection Hq as <-. contradiction Hown. reflexivity.
    + rewrite setPiece_other in Hq by assumption. exact Hq.
  - destruct (moved_facts v s fromTile tile Hinv Hf Hne Hv)
      as [vd [piece [_ [_ [_ [Hpc [Ho [_ [_ [_ [_ [_ [_ Eb]]]]]]]]]]]]].
    rewrite Eb in Hq. apply movedBoard_piece in Hq.
    destruct Hq as [[_ [_ Hq]] | [_ [_ Hq]]]; [ | exact Hq].
    exfalso. apply Hown. congruence.
Qed.

Lemma playGame_rival_pieces_only_removed_witness :
  getPiece (board diamondState) (mkTile 4 4) = Some (mkPiece red pawn).
Proof.
  apply (playGame_rival_pieces_only_removed BonusGame diamondState 7 3).
  - apply clicks_reachable. apply reach_init.
  - vm_compute. reflexivity.
  - vm_compute. discriminate.
Defined.

(** X9: while the active player has a queen, a click creates no piece and
    changes the kind of none: every piece on the board after the click was
    on the board before it, on the same tile or, for the piece that moved,
    on the tile it was picked up from.  In particular a pawn that reaches
    the last row stays a pawn. *)
Theorem playGame_pieces_keep_kind (v : Variant) (s : GameState) (row column : Z)
    (t : Tile) (q : Piece) :
  reachable v s ->
  playerHasQueen (board s) (activePlayer s) = true ->
  getPiece (board (snd (playGame v row column s))) t = Some q ->
  getPiece (board s) t = Some q
  \/ (getTile row column = Some t /\ getPiece (board s) t = None
      /\ exists fromTile, from (move s) = Some fromTile
                          /\ getPiece (board s) fromTile = Some q).
Proof.
  intros Hreach Hhas. pose proof (reachable_GameInv v s Hreach) as Hinv.
  generalize (playGame_outcome v row column s Hinv).
  generalize (fst (playGame v row column s)) (snd (playGame v row column s)).
  intros o s' Ho Hq.
  destruct Ho as [ | tile Ht Hw Hq' Hv Hm | tile Ht Hw Hq' Hm Hv Hb | tile Ht Hw Hq' Hf
                 | tile fromTile Ht Hw Hq' Hf Hne Hv ];
    try (left; exact Hq).
  - congruence.
  - destruct (moved_facts v s fromTile tile Hinv Hf Hne Hv)
      as [vd [piece [_ [_ [_ [Hpc [Ho [_ [_ [Hempty [_ [_ [_ Eb]]]]]]]]]]]]].
    rewrite Eb in Hq. apply movedBoard_piece in Hq.
    destruct Hq as [[-> [_ Hq]] | [_ [_ Hq]]]; [right | left; exact Hq].
    split; [assumption | split; [assumption | ]].
    exists fromTile. split; assumption.
Qed.

Lemma playGame_pieces_keep_kind_witness :
  getPiece (board diamondState) (mkTile 7 3) = Some (mkPiece blue pawn)
  \/ (getTile 7 3 = Some (mkTile 7 3) /\ getPiece (board diamondState) (mkTile 7 3) = None
      /\ exists fromTile, from (move diamondState) = Some fromTile
                          /\ getPiece (board diamondState) fromTile
                             = Some (mkPiece blue pawn)).
Proof.
  apply (playGame_pieces_keep_kind BonusGame diamondState 7 3).
  - apply clicks_reachable. apply reach_init.
  - vm_compute. reflexivity.
  - vm_compute. reflexivity.
Defined.

(** X10: the active player always has a piece on the board, and a player
    who has to choose a new queen can always do so: some piece of the player
    is on the row furthest from the opposite side, and a click on it is
    accepted. *)
Theorem playGame_new_queen_available (v : Variant) (s : GameState) :
  reachable v s ->
  playerOnBoard (board s) (activePlayer s)
  /\ (playerHasQueen (board s) (activePlayer s) = false ->
      exists tile,
        isIdlePiece (board s) (activePlayer s) tile
        /\ fst (playGame v (getRow tile) (getColumn tile) s) <> None
        /\ getPiece (board (snd (playGame v (getRow tile) (getColumn tile) s))) tile
           = Some (mkPiece (activePlayer s) queen)).
Proof.
  intros Hreach.
  pose proof (reachable_GameInv v s Hreach) as Hinv.
  pose proof (inv_alive s (reachable_BoardInv v s Hreach)) as Halive.
  split; [exact Halive | ].
  intros Hq. destruct (idle_exists _ _ Halive) as [tile Hidle].
  exists tile. split; [exact Hidle | ].
  pose proof (proj2 (isValidQueen_spec (board s) tile (activePlayer s)) Hidle) as Hv.
  destruct Hidle as [Hin _].
  pose proof (getTile_of_tile Hin) as Ht.
  generalize (playGame_click v (getRow tile) (getColumn tile) s).
  generalize (fst (playGame v (getRow tile) (getColumn tile) s))
             (snd (playGame v (getRow tile) (getColumn tile) s)).
  intros o s' Hc.
  destruct Hc
    as [ Ht' | tile' Ht' Hw' | tile' Ht' Hw' Hq' Hv' | tile' Ht' Hw' Hq' Hv'
       | tile' Ht' Hw' Hq' Hf' Hv' | tile' Ht' Hw' Hq' Hf' Hv' | tile' Ht' Hw' Hq' Hf' Hto'
       | tile' f' Ht' Hw' Hq' Hf' Hto' Hne' Hv' | tile' f' Ht' Hw' Hq' Hf' Hto' Hne' Hv'
       | tile' f' toTile Ht' Hw' Hq' Hf' Hto' ];
    try congruence.
  - exfalso. unfold isGameWon, getWinner in Hw'.
    destruct (winner s) as [w | ] eqn:Ew; [ | discriminate].
    destruct (inv_winner v s Hinv w Ew) as [Ha Hq'']. congruence.
  - assert (tile' = tile) by congruence. subst tile'.
    split; [discriminate | ].
    destruct (promoted_fields tile s) as [Eb _]. rewrite Eb. apply setPiece_same.
Qed.

Lemma playGame_new_queen_available_witness :
  playerOnBoard (board (lostQueenState BonusGame)) (activePlayer (lostQueenState BonusGame))
  /\ (playerHasQueen (board (lostQueenState BonusGame))
                     (activePlayer (lostQueenState BonusGame)) = false ->
      exists tile,
        isIdlePiece (board (lostQueenState BonusGame))
                    (activePlayer (lostQueenState BonusGame)) tile
        /\ fst (playGame BonusGame (getRow tile) (getColumn tile) (lostQueenState BonusGame))
           <> None
        /\ getPiece (board (snd (playGame BonusGame (getRow tile) (getColumn tile)
                                          (lostQueenState BonusGame)))) tile
           = Some (mkPiece (activePlayer (lostQueenState BonusGame)) queen)).
Proof.
  apply (playGame_new_queen_available BonusGame (lostQueenState BonusGame)).
  apply clicks_reachable. apply reach_init.
Defined.

(** X11: a piece that is picked up belongs to the active player and has at
    least one valid destination; the paths and valid destinations kept in
    the move are those of that piece on the current board. *)
Theorem reachable_selected_piece (v : Variant) (s : GameState) (fromTile : Tile) :
  reachable v s ->
  from (move s) = Some fromTile ->
  In fromTile getTiles
  /\ tileBelongsToPlayer (board s) fromTile (activePlayer s) = true
  /\ to (move s) = None
  /\ possiblePaths (move s) = searchFrom (board s) fromTile
  /\ validDestinations (move s) = destinationsFrom v (board s) (activePlayer s) fromTile
  /\ validDestinations (move s) <> [].
Proof.
  intros Hreach Hf.
  pose proof (reachable_GameInv v s Hreach) as Hinv.
  pose proof (inv_move v s Hinv) as Hmv. rewrite Hf in Hmv.
  destruct Hmv as [Hin [Hb [_ [_ Hm]]]].
  split; [assumption | split; [assumption | split; [apply (inv_to v s Hinv) | ]]].
  split; [rewrite Hm; reflexivity | split; [rewrite Hm; reflexivity | ]].
  apply (inv_dests s (reachable_BoardInv v s Hreach) fromTile Hf).
Qed.

Lemma reachable_selected_piece_witness :
  In (mkTile 3 3) getTiles
  /\ tileBelongsToPlayer (board diamondState) (mkTile 3 3) (activePlayer diamondState) = true
  /\ to (move diamondState) = None
  /\ possiblePaths (move diamondState) = searchFrom (board diamondState) (mkTile 3 3)
  /\ validDestinations (move diamondState)
     = destinationsFrom BonusGame (board diamondState) (activePlayer diamondState)
                        (mkTile 3 3)
  /\ validDestinations (move diamondState) <> [].
Proof.
  apply (reachable_selected_piece BonusGame diamondState (mkTile 3 3)).
  - apply clicks_reachable. apply reach_init.
  - vm_compute. reflexivity.
Defined.

Lemma destinationsFrom_pawn_last_row v b player tile piece :
  In tile getTiles -> getPiece b tile = Some piece -> getType piece = pawn ->
  getRow tile = winningRow (getOwner piece) ->
  destinationsFrom v b player tile = [].
Proof.
  intros Hin Hpc Hpawn Hrow. unfold destinationsFrom.
  rewrite (searchFrom_pawn_last_row b tile piece Hin Hpc Hpawn Hrow).
  destruct v; reflexivity.
Qed.

(** X12: a pawn on the last row in its direction is out of play: it has no
    path, neither game accepts it as a source tile, and while the active
    player has a queen every click on it is ignored. *)
Theorem playGame_last_row_pawn (v : Variant) (s : GameState) (row column : Z)
    (tile : Tile) (piece : Piece) :
  reachable v s ->
  getTile row column = Some tile ->
  getPiece (board s) tile = Some piece -> getType piece = pawn ->
  row = winningRow (getOwner piece) ->
  searchFrom (board s) tile = []
  /\ fst (isFromValid v tile (activePlayer s) s) = false
  /\ (playerHasQueen (board s) (activePlayer s) = true ->
      playGame v row column s = (None, s)).
Proof.
  intros Hreach Ht Hpc Hpawn Hrow.
  pose proof (getTile_In _ _ _ Ht) as Hin.
  assert (Hrow' : getRow tile = winningRow (getOwner piece)).
  { apply getTile_Some in Ht. destruct Ht as [-> _]. exact Hrow. }
  pose proof (reachable_GameInv v s Hreach) as Hinv.
  assert (Hrefused : fst (isFromValid v tile (activePlayer s) s) = false).
  { destruct (fst (isFromValid v tile (activePlayer s) s)) eqn:E; [ | reflexivity].
    exfalso. apply (isFromValid_destinations v tile (activePlayer s) s Hin E).
    apply (destinationsFrom_pawn_last_row v _ _ tile piece); assumption. }
  split; [apply (searchFrom_pawn_last_row _ tile piece); assumption | ].
  split; [exact Hrefused | ].
  intros Hq. rewrite (surjective_pairing (playGame v row column s)).
  generalize (playGame_outcome v row column s Hinv).
  generalize (fst (playGame v row column s)) (snd (playGame v row column s)).
  intros o s' Ho.
  destruct Ho as [ | tile' Ht' Hw Hq' Hv Hm | tile' Ht' Hw Hq' Hm Hv Hb | tile' Ht' Hw Hq' Hf
                 | tile' fromTile Ht' Hw Hq' Hf Hne Hv ].
  - reflexivity.
  - congruence.
  - assert (tile' = tile) by congruence. subst tile'. congruence.
  - assert (tile' = tile) by congruence. subst tile'. exfalso.
    apply (inv_dests s (reachable_BoardInv v s Hreach) tile Hf).
    pose proof (inv_move v s Hinv) as Hmv. rewrite Hf in Hmv.
    destruct Hmv as [_ [_ [_ [_ Hm]]]]. rewrite Hm. cbn [validDestinations searchedMove].
    apply (destinationsFrom_pawn_last_row v _ _ tile piece); assumption.
  - assert (tile' = tile) by congruence. subst tile'. exfalso.
    destruct (moved_facts v s fromTile tile Hinv Hf Hne Hv)
      as [vd [pc [_ [_ [_ [_ [_ [_ [_ [Hempty _]]]]]]]]]].
    congruence.
Qed.

Lemma playGame_last_row_pawn_witness :
  searchFrom (board lastRowState) (mkTile 7 3) = []
  /\ fst (isFromValid BonusGame (mkTile 7 3) (activePlayer lastRowState) lastRowState) = false
  /\ (playerHasQueen (board lastRowState) (activePlayer lastRowState) = true ->
      playGame BonusGame 7 3 lastRowState = (None, lastRowState)).
Proof.
  apply (playGame_last_row_pawn BonusGame lastRowState 7 3 (mkTile 7 3) (mkPiece blue pawn)).
  - apply reach_click. apply clicks_reachable. apply reach_init.
  - vm_compute. reflexivity.
  - vm_compute. reflexivity.
  - reflexivity.
  - reflexivity.
Defined.

(** X13: in every state of a game each player has at most one queen on the
    board. *)
Theorem reachable_one_queen (v : Variant) (s : GameState) (p : Player) (t1 t2 : Tile) :
  reachable v s ->
  getPiece (board s) t1 = Some (mkPiece p queen) ->
  getPiece (board s) t2 = Some (mkPiece p queen) ->
  t1 = t2.
Proof.
  intros Hreach H1 H2.
  pose proof (reachable_BoardInv v s Hreach) as Hb.
  apply (inv_queens v s (reachable_GameInv v s Hreach) p); try assumption;
    apply getTiles_onBoard.
  - apply (inv_dark s Hb t1 _ H1).
  - apply (inv_dark s Hb t2 _ H2).
Qed.

Lemma reachable_one_queen_witness : mkTile 0 0 = mkTile 0 0.
Proof.
  apply (reachable_one_queen BonusGame diamondState blue (mkTile 0 0) (mkTile 0 0)).
  - apply clicks_reachable. apply reach_init.
  - vm_compute. reflexivity.
  - vm_compute. reflexivity.
Defined.

(** * The search and its accumulator *)

Lemma forEach_append {A B : Type} (l : list A) (f : A -> list B -> option (list B)) :
  (forall x ps, In x l -> f x ps = option_map (app ps) (f x [])) ->
  forall ps, forEach l f ps = option_map (app ps) (forEach l f []).
Proof.
  induction l as [ | x l IH]; intros H ps; cbn [forEach].
  - cbn. rewrite app_nil_r. reflexivity.
  - rewrite (H x ps) by (left; reflexivity).
    destruct (f x []) as [a | ]; cbn [option_map]; [ | reflexivity].
    assert (H' : forall y qs, In y l -> f y qs = option_map (app qs) (f y []))
      by (intros y qs Hy; apply H; right; assumption).
    rewrite (IH H' (ps ++ a)), (IH H' a).
    destruct (forEach l f []) as [r | ]; cbn [option_map]; [ | reflexivity].
    rewrite app_assoc. reflexivity.
Qed.

Lemma setPathsDFS_app (fuel : nat) (b : Board) (startingTile from : Tile)
    (piece : Piece) (path : list Tile) (paths : list (list Tile)) :
  setPathsDFS fuel b startingTile from piece path paths
  = option_map (app paths) (setPathsDFS fuel b startingTile from piece path []).
Proof.
  revert from path paths.
  induction fuel as [ | fuel IH]; intros from path paths; [reflexivity | ].
  pose (p := path ++ [from]).
  pose (first := fun ps : list (list Tile) =>
          if isFirstMove p
          then forEach (getAdjacentLandings b startingTile from piece None None)
                 (fun landing ps => setPathsDFS fuel b startingTile landing piece p ps)
                 ps
          else Some ps).
  pose (landings := fun ps : list (list Tile) =>
          if isPotentialCapture b from p
          then forEach (getAdjacentLandings b startingTile from piece
                          (lastStep getColumn p) (lastStep getRow p))
                 (fun landing ps =>
                    if negb (includes p landing)
                    then setPathsDFS fuel b startingTile landing piece p ps
                    else if Tile_eqb landing startingTile && (2 <? length p)%nat
                         then Some (ps ++ [p ++ [landing]])
                         else Some ps)
                 ps
          else Some ps).
  pose (enemies := fun ps : list (list Tile) =>
          if canLookForEnemies b from startingTile p
          then forEach (getAdjacentEnemies b from piece)
                 (fun enemy ps =>
                    if negb (includes p enemy)
                    then setPathsDFS fuel b startingTile enemy piece p ps
                    else Some ps)
                 ps
          else Some ps).
  assert (U : forall ps,
             setPathsDFS (S fuel) b startingTile from piece path ps
             = match first ps with
               | None => None
               | Some paths1 =>
                   match landings paths1 with
                   | None => None
                   | Some paths2 =>
                       match enemies paths2 with
                       | None => None
                       | Some paths3 =>
                           if negb (isTileOcuppied b from) then Some (paths3 ++ [p])
                           else Some paths3
                       end
                   end
               end) by (intros ps; reflexivity).
  assert (A1 : forall ps, first ps = option_map (app ps) (first [])).
  { intros ps. unfold first. destruct (isFirstMove p).
    - apply forEach_append. intros x qs _. apply IH.
    - cbn. rewrite app_nil_r. reflexivity. }
  assert (A2 : forall ps, landings ps = option_map (app ps) (landings [])).
  { intros ps. unfold landings. destruct (isPotentialCapture b from p).
    - apply forEach_append. intros x qs _.
      destruct (negb (includes p x)); [apply IH | ].
      destruct (Tile_eqb x startingTile && (2 <? length p)%nat); cbn;
        rewrite ?app_nil_r; reflexivity.
    - cbn. rewrite app_nil_r. reflexivity. }
  assert (A3 : forall ps, enemies ps = option_map (app ps) (enemies [])).
  { intros ps. unfold enemies. destruct (canLookForEnemies b from startingTile p).
    - apply forEach_append. intros x qs _.
      destruct (negb (includes p x)); [apply IH | ].
      cbn. rewrite app_nil_r. reflexivity.
    - cbn. rewrite app_nil_r. reflexivity. }
  rewrite (U paths), (U []), (A1 paths).
  destruct (first []) as [a1 | ]; cbn [option_map]; [ | reflexivity].
  rewrite (A2 (paths ++ a1)), (A2 a1).
  destruct (landings []) as [a2 | ]; cbn [option_map]; [ | reflexivity].
  rewrite (A3 ((paths ++ a1) ++ a2)), (A3 (a1 ++ a2)).
  destruct (enemies []) as [a3 | ]; cbn [option_map]; [ | reflexivity].
  destruct (negb (isTileOcuppied b from)); cbn [option_map];
    rewrite <- ?app_assoc; reflexivity.
Qed.

(** X14: the search only appends to [possiblePaths]: started with the
    paths [paths] it returns exactly [paths] followed by what it returns
    when started with no path, and it runs out of fuel in the one case
    exactly when it does in the other. *)
Theorem setPathsDFS_accumulator (fuel : nat) (b : Board) (startingTile from : Tile)
    (piece : Piece) (path : list Tile) (paths : list (list Tile)) :
  (forall out,
     setPathsDFS fuel b startingTile from piece path paths = Some out <->
     exists added,
       setPathsDFS fuel b startingTile from piece path [] = Some added
       /\ out = paths ++ added)
  /\ (setPathsDFS fuel b startingTile from piece path paths = None <->
      setPathsDFS fuel b startingTile from piece path [] = None).
Proof.
  rewrite (setPathsDFS_app fuel b startingTile from piece path paths).
  destruct (setPathsDFS fuel b startingTile from piece path []) as [added | ];
    cbn [option_map]; split.
  - intros out. split.
    + intros H. injection H as <-. exists added. split; reflexivity.
    + intros [added' [H ->]]. injection H as <-. reflexivity.
  - split; discriminate.
  - intros out. split; [discriminate | ].
    intros [added [H _]]. discriminate.
  - split; reflexivity.
Qed.

(** * The base game *)

(** A recorded path of two or three tiles is one step, or one jump. *)
Lemma pathShape_short b s piece p :
  pathShape b s piece p -> (length p = 2 \/ length p = 3)%nat ->
  exists d, In d (getDirections piece)
            /\ (p = [s; stepFrom d s]
                \/ p = [s; stepFrom d s; stepFrom d (stepFrom d s)]).
Proof.
  intros Hp Hlen.
  destruct Hp as [d l Hd Hl He Hb | rest Hj Hne Hnd | rest d e Hj Hne Hd He Hs' Hen Hb Hnd].
  - exists d. split; [assumption | left; congruence].
  - destruct Hj as [x | x d enemy landing rest Hd He Hl Hen Hie Hil Hemp Hj]; [congruence | ].
    exists d. split; [assumption | right].
    destruct rest as [ | r rest]; [congruence | cbn in Hlen; lia].
  - exfalso. destruct Hj; [congruence | ].
    rewrite length_cons, length_app in Hlen. cbn in Hlen. lia.
Qed.

Lemma short_paths_same_end piece s d d' (p p' : list Tile) :
  In d (getDirections piece) -> In d' (getDirections piece) ->
  p = [s; stepFrom d s] \/ p = [s; stepFrom d s; stepFrom d (stepFrom d s)] ->
  p' = [s; stepFrom d' s] \/ p' = [s; stepFrom d' s; stepFrom d' (stepFrom d' s)] ->
  atBack p 1 = atBack p' 1 -> p = p' /\ atBack p 1 <> Some s.
Proof.
  intros Hd Hd' Hp Hp' E.
  destruct (getDirections_unit piece d Hd) as [Hc Hr].
  destruct (getDirections_unit piece d' Hd') as [Hc' Hr'].
  destruct d as [dc dr], d' as [dc' dr'], s as [r c]. cbn [fst snd] in *.
  destruct Hp as [-> | ->], Hp' as [-> | ->]; unfold atBack, stepFrom in *;
    cbn in E |- *; injection E as E1 E2;
    (split; [ | intros X; injection X as X1 X2; lia]);
    repeat f_equal; lia.
Qed.

Lemma BaseGame_destination_short b player fromTile vd :
  In vd (destinationsFrom BaseGame b player fromTile) ->
  vd = makeValidDestination b player (vdPath vd)
  /\ (length (vdPath vd) = 2 \/ length (vdPath vd) = 3)%nat.
Proof.
  unfold destinationsFrom. intros H. apply in_map_iff in H.
  destruct H as [path [<- Hp]]. split; [reflexivity | ].
  cbn [validPaths] in Hp. apply filter_In in Hp. destruct Hp as [_ Hlen].
  cbn [vdPath makeValidDestination].
  apply orb_true_iff in Hlen. destruct Hlen as [H | H]; apply Nat.eqb_eq in H; auto.
Qed.

(** X15: in the base game every valid destination is one step without a
    capture or one jump over a single piece, never the source tile, and no
    two valid destinations of a piece end on the same tile; a click on the
    destination tile removes exactly the captures of that destination. *)
Theorem BaseGame_move_captures (s : GameState) (row column : Z) (fromTile tile : Tile)
    (vd : ValidDestination) :
  reachable BaseGame s ->
  from (move s) = Some fromTile ->
  In vd (validDestinations (move s)) ->
  destination vd = Some tile ->
  getTile row column = Some tile ->
  (length (vdPath vd) = 2%nat /\ captures vd = []
   \/ length (vdPath vd) = 3%nat /\ exists c, captures vd = [c])
  /\ tile <> fromTile
  /\ (forall vd', In vd' (validDestinations (move s)) ->
                  destination vd' = Some tile -> vd' = vd)
  /\ forall t,
       getPiece (board (snd (playGame BaseGame row column s))) t
       = if Tile_eqb t tile then getPiece (board s) fromTile
         else if Tile_eqb t fromTile then None
         else if includes (captures vd) t then None
         else getPiece (board s) t.
Proof.
  intros Hreach Hf Hvd Hdest Ht.
  pose proof (reachable_GameInv BaseGame s Hreach) as Hinv.
  pose proof (inv_move BaseGame s Hinv) as Hmv. rewrite Hf in Hmv.
  destruct Hmv as [Hin [Hb [Hwin [Hq Hm]]]].
  assert (Hvds : validDestinations (move s)
                 = destinationsFrom BaseGame (board s) (activePlayer s) fromTile)
    by (rewrite Hm; reflexivity).
  destruct (belongs_piece _ _ _ Hb) as [piece [Hpc Ho]].
  destruct (searchFrom_pathShape (board s) fromTile piece Hin Hpc) as [_ Hs].
  rewrite Forall_forall in Hs.
  assert (Hshort : forall vd0,
             In vd0 (validDestinations (move s)) ->
             exists d, In d (getDirections piece)
                       /\ (vdPath vd0 = [fromTile; stepFrom d fromTile]
                           \/ vdPath vd0 = [fromTile; stepFrom d fromTile;
                                            stepFrom d (stepFrom d fromTile)])
                       /\ destination vd0 = atBack (vdPath vd0) 1
                       /\ captures vd0 = oddInterior (vdPath vd0)
                       /\ vd0 = makeValidDestination (board s) (activePlayer s) (vdPath vd0)).
  { intros vd0 H0. rewrite Hvds in H0.
    destruct (BaseGame_destination_short _ _ _ _ H0) as [E0 Hlen].
    destruct (destinationsFrom_captures BaseGame _ _ _ vd0 Hin Hb H0)
      as [_ [H2 [_ [H4 H5]]]].
    destruct (pathShape_short _ _ _ _ (Hs _ H4) Hlen) as [d [Hd Hp]].
    exists d. auto. }
  destruct (Hshort vd Hvd) as [d [Hd [Hp [Hlast [Hcap Evd]]]]].
  assert (Hne : tile <> fromTile).
  { destruct (short_paths_same_end piece fromTile d d _ _ Hd Hd Hp Hp eq_refl) as [_ X].
    congruence. }
  assert (Huniq : forall vd', In vd' (validDestinations (move s)) ->
                              destination vd' = Some tile -> vd' = vd).
  { intros vd' Hvd' Hdest'.
    destruct (Hshort vd' Hvd') as [d' [Hd' [Hp' [Hlast' [_ Evd']]]]].
    destruct (short_paths_same_end piece fromTile d' d _ _ Hd' Hd Hp' Hp) as [E _];
      [congruence | ].
    rewrite Evd', Evd, E. reflexivity. }
  split; [ | split; [exact Hne | split; [exact Huniq | ]]].
  - rewrite Hcap. destruct Hp as [-> | ->]; [left | right]; cbn; eauto.
  - assert (Hv : isToValid s tile = true).
    { unfold isToValid. apply existsb_exists. exists vd. split; [exact Hvd | ].
      rewrite Hdest. apply Tile_eqb_refl. }
    assert (Hne' : fromTile <> tile) by congruence.
    destruct (moved_facts BaseGame s fromTile tile Hinv Hf Hne' Hv)
      as [vd0 [pc [Hfind [Hvd0 [_ [_ [_ [_ [Hlast0 [_ [Hnf [_ [_ Eb]]]]]]]]]]]]].
    assert (vd0 = vd).
    { apply Huniq; [rewrite Hvds; assumption | ].
      destruct (Hshort vd0) as [_ [_ [_ [X _]]]]; [rewrite Hvds; assumption | ].
      congruence. }
    subst vd0. intros t.
    rewrite (playGame_moved BaseGame row column s tile fromTile Hinv Ht Hf Hne' Hv). cbn [snd].
    rewrite Eb. apply movedBoard_spec; assumption.
Qed.


Lemma BaseGame_move_captures_witness :
  (length (vdPath jumpDestination) = 2%nat /\ captures jumpDestination = []
   \/ length (vdPath jumpDestination) = 3%nat /\ exists c, captures jumpDestination = [c])
  /\ mkTile 6 6 <> mkTile 4 4
  /\ (forall vd', In vd' (validDestinations (move jumpState)) ->
                  destination vd' = Some (mkTile 6 6) -> vd' = jumpDestination)
  /\ forall t,
       getPiece (board (snd (playGame BaseGame 6 6 jumpState))) t
       = if Tile_eqb t (mkTile 6 6) then getPiece (board jumpState) (mkTile 4 4)
         else if Tile_eqb t (mkTile 4 4) then None
         else if includes (captures jumpDestination) t then None
         else getPiece (board jumpState) t.
Proof.
  apply (BaseGame_move_captures jumpState 6 6 (mkTile 4 4) (mkTile 6 6) jumpDestination).
  - apply clicks_reachable. apply reach_init.
  - vm_compute. reflexivity.
  - vm_compute. right. left. reflexivity.
  - reflexivity.
  - vm_compute. reflexivity.
Defined.

(** In the base game a tile is accepted as source exactly when it holds a
    piece of the player that has a path of two or three tiles. *)
Lemma BaseGame_isFromValid_paths (tile : Tile) (player : Player) (s : GameState) :
  In tile getTiles ->
  (fst (isFromValid BaseGame tile player s) = true <->
   tileBelongsToPlayer (board s) tile player = true
   /\ exists path, In path (searchFrom (board s) tile)
                   /\ (length path = 2 \/ length path = 3)%nat).
Proof.
  intros Hin. rewrite (isFromValid_BaseGame tile player s Hin).
  destruct (tileBelongsToPlayer (board s) tile player); cbn [fst].
  - unfold destinationsFrom. rewrite length_map. cbn [validPaths].
    generalize (searchFrom (board s) tile). intros l. split.
    + intros H. split; [reflexivity | ].
      destruct (filter _ l) as [ | path r] eqn:E; [discriminate | ].
      assert (X : In path (path :: r)) by (left; reflexivity).
      rewrite <- E in X. apply filter_In in X. destruct X as [X1 X2].
      exists path. split; [assumption | ].
      apply orb_true_iff in X2. destruct X2 as [X | X]; apply Nat.eqb_eq in X; auto.
    + intros [_ [path [Hp Hlen]]].
      assert (X : In path (filter (fun path => (length path =? 3)%nat || (length path =? 2)%nat) l)).
      { apply filter_In. split; [assumption | ].
        apply orb_true_iff. destruct Hlen as [H | H]; [right | left]; apply Nat.eqb_eq; assumption. }
      destruct (filter _ l); [contradiction | reflexivity].
  - split; [discriminate | intros [H _]; discriminate].
Qed.

(** * The simulation of [isFromValid] *)

(** X16: [isFromValid] never changes the board, the status, the winner or
    the active player.  It leaves the move empty when the tile belongs to
    the player, also when a piece was picked up, and does not touch the
    state otherwise; a tile it accepts has a valid destination. *)
Theorem isFromValid_effects (v : Variant) (tile : Tile) (player : Player) (s : GameState) :
  In tile getTiles ->
  board (snd (isFromValid v tile player s)) = board s
  /\ status (snd (isFromValid v tile player s)) = status s
  /\ winner (snd (isFromValid v tile player s)) = winner s
  /\ activePlayer (snd (isFromValid v tile player s)) = activePlayer s
  /\ move (snd (isFromValid v tile player s))
     = (if tileBelongsToPlayer (board s) tile player then emptyMove else move s)
  /\ (fst (isFromValid v tile player s) = true ->
      tileBelongsToPlayer (board s) tile player = true
      /\ destinationsFrom v (board s) player tile <> []).
Proof.
  intros Hin. rewrite (isFromValid_state v tile player s Hin).
  repeat split;
    try (destruct (tileBelongsToPlayer (board s) tile player); reflexivity).
  - apply (isFromValid_belongs v tile player s Hin). assumption.
  - apply (isFromValid_destinations v tile player s Hin). assumption.
Qed.

Lemma isFromValid_effects_witness :
  board (snd (isFromValid BonusGame (mkTile 3 3) blue diamondState)) = board diamondState
  /\ status (snd (isFromValid BonusGame (mkTile 3 3) blue diamondState)) = status diamondState
  /\ winner (snd (isFromValid BonusGame (mkTile 3 3) blue diamondState)) = winner diamondState
  /\ activePlayer (snd (isFromValid BonusGame (mkTile 3 3) blue diamondState))
     = activePlayer diamondState
  /\ move (snd (isFromValid BonusGame (mkTile 3 3) blue diamondState))
     = (if tileBelongsToPlayer (board diamondState) (mkTile 3 3) blue
        then emptyMove else move diamondState)
  /\ (fst (isFromValid BonusGame (mkTile 3 3) blue diamondState) = true ->
      tileBelongsToPlayer (board diamondState) (mkTile 3 3) blue = true
      /\ destinationsFrom BonusGame (board diamondState) blue (mkTile 3 3) <> []).
Proof.
  apply (isFromValid_effects BonusGame (mkTile 3 3) blue diamondState).
  apply getTiles_onBoard. unfold onBoard. simpl. lia.
Defined.

(** * Restarting *)

(** X17: [restartGame] leaves the game in its initial state whatever the
    state was, and its instructions redraw the 64 tiles, in board order,
    with the pieces the [Board] constructor puts on them. *)
Theorem restartGame_initial (s : GameState) :
  snd (restartGame s) = initialState
  /\ playing (fst (restartGame s)) = activePlayer initialState
  /\ instrWinner (fst (restartGame s)) = winner initialState
  /\ tileInstructions (fst (restartGame s)) = map (labelOf (board initialState)) getTiles.
Proof.
  split; [reflexivity | split; [reflexivity | split; [reflexivity | ]]].
  unfold restartGame. cbn [fst tileInstructions].
  vm_compute. reflexivity.
Qed.

(** * The view follows the game *)

Lemma assign_read g column row owner g' :
  UI.assign g column row owner = Some g' ->
  (forall c, g c <> None -> g' c <> None)
  /\ forall u w t,
       readTile (UI.mkGameState g' u w) t
       = if Tile_eqb (mkTile row column) t then Some owner
         else readTile (UI.mkGameState g u w) t.
Proof.
  unfold UI.assign. destruct (g column) as [entries | ] eqn:E; [ | discriminate].
  intros H. injection H as <-. split.
  - intros c Hc. destruct (c =? column); [discriminate | assumption].
  - intros u w [r c]. unfold readTile, Tile_eqb. cbn [UI.board getRow getColumn].
    rewrite (Z.eqb_sym row r), (Z.eqb_sym column c).
    destruct (c =? column) eqn:Ec.
    + apply Z.eqb_eq in Ec. subst c. rewrite E, andb_true_r.
      destruct (r =? row); reflexivity.
    + rewrite andb_false_r. reflexivity.
Qed.

Lemma applyTileInstructions_spec (l : list TileInstruction) :
  forall u,
    (forall i, In i l -> UI.board u (colToSet i) <> None) ->
    exists u',
      applyTileInstructions l u = Some u'
      /\ UI.turn u' = UI.turn u /\ UI.winner u' = UI.winner u
      /\ (forall c, UI.board u c <> None -> UI.board u' c <> None)
      /\ forall t, readTile u' t
                   = match lastWrite l t with Some o => Some o | None => readTile u t end.
Proof.
  unfold applyTileInstructions.
  induction l as [ | i l IH]; intros u Hcols; cbn [forEach lastWrite].
  - exists u. repeat split; auto.
  - assert (Hc : UI.board u (colToSet i) <> None) by (apply Hcols; left; reflexivity).
    unfold UI.setTile at 1.
    destruct (UI.assign (UI.board u) (colToSet i) (rowToSet i) (newOwner i)) as [g' | ] eqn:E.
    + destruct (assign_read _ _ _ _ _ E) as [Hkeep Hread].
      destruct (IH (UI.mkGameState g' (UI.turn u) (UI.winner u))) as [u' [E' [Ht [Hw [Hk' Hr']]]]].
      { intros j Hj. cbn [UI.board]. apply Hkeep. apply Hcols. right. assumption. }
      exists u'. split; [exact E' | ]. split; [exact Ht | ]. split; [exact Hw | ].
      split; [intros c Hcc; apply Hk'; cbn [UI.board]; apply Hkeep; assumption | ].
      intros t. rewrite Hr'. destruct (lastWrite l t); [reflexivity | ].
      rewrite Hread. unfold instructionTile.
      destruct (Tile_eqb (mkTile (rowToSet i) (colToSet i)) t); reflexivity.
    + exfalso. unfold UI.assign in E.
      destruct (UI.board u (colToSet i)); [discriminate | congruence].
Qed.

Lemma instructionTile_labelOf b x : instructionTile (labelOf b x) = x.
Proof. destruct x. reflexivity. Qed.

Lemma lastWrite_labels b (l : list Tile) t :
  lastWrite (map (labelOf b) l) t
  = if includes l t then Some (getTileOwnerString b t) else None.
Proof.
  unfold includes. induction l as [ | x l IH]; cbn [map lastWrite existsb]; [reflexivity | ].
  rewrite IH, instructionTile_labelOf.
  destruct (existsb (fun x0 => Tile_eqb x0 t) l); [rewrite orb_true_r; reflexivity | ].
  rewrite orb_false_r. destruct (Tile_eqb x t) eqn:E; [ | reflexivity].
  apply Tile_eqb_eq in E. subst x. reflexivity.
Qed.

Lemma lastWrite_captures (caps : list Tile) t :
  lastWrite (getCaptureInstructions caps) t = if includes caps t then Some none else None.
Proof.
  unfold includes, getCaptureInstructions.
  induction caps as [ | x l IH]; cbn [map lastWrite existsb]; [reflexivity | ].
  rewrite IH, instructionTile_capture.
  destruct (existsb (fun x0 => Tile_eqb x0 t) l); [rewrite orb_true_r; reflexivity | ].
  rewrite orb_false_r. reflexivity.
Qed.

Lemma lastWrite_None (l : list TileInstruction) t :
  (forall i, In i l -> instructionTile i <> t) -> lastWrite l t = None.
Proof.
  induction l as [ | i l IH]; intros H; cbn [lastWrite]; [reflexivity | ].
  rewrite IH by (intros j Hj; apply H; right; assumption).
  destruct (Tile_eqb (instructionTile i) t) eqn:E; [ | reflexivity].
  apply Tile_eqb_eq in E. exfalso. apply (H i); [left; reflexivity | assumption].
Qed.

Lemma Tile_eqb_sym (t u : Tile) : Tile_eqb t u = Tile_eqb u t.
Proof. unfold Tile_eqb. rewrite (Z.eqb_sym (getRow t)), (Z.eqb_sym (getColumn t)). reflexivity. Qed.

Lemma shownOwner_empty_move s t :
  from (move s) = None -> shownOwner s t = getTileOwnerString (board s) t.
Proof. unfold shownOwner. intros ->. reflexivity. Qed.

(** What the instruction of a click does to the view of the game. *)
Lemma outcome_view v row column s i s' :
  GameInv v s -> outcome v row column s (Some i) s' ->
  playing i = activePlayer s'
  /\ instrWinner i = winner s'
  /\ winner s = None
  /\ (forall ti, In ti (tileInstructions i) -> In (instructionTile ti) getTiles)
  /\ forall t, match lastWrite (tileInstructions i) t with
               | Some o => o
               | None => shownOwner s t
               end = shownOwner s' t.
Proof.
  intros Hinv Ho. remember (Some i) as o eqn:Eo.
  destruct Ho as [ | tile Ht Hw Hq Hv Hm | tile Ht Hw Hq Hm Hv Hb | tile Ht Hw Hq Hf
                 | tile fromTile Ht Hw Hq Hf Hne Hv ];
    [discriminate | | | | ]; injection Eo as <-;
    cbn [playing instrWinner tileInstructions];
    pose proof (getTile_In _ _ _ Ht) as Hin;
    apply getTile_Some in Ht; destruct Ht as [Etile _].
  - (* a new queen *)
    destruct (promoted_fields tile s) as [Eb [Em [Ea _]]].
    split; [symmetry; exact Ea | split; [reflexivity | split; [exact Hw | split]]].
    + intros ti [<- | []]. unfold instructionTile. cbn. rewrite <- Etile. assumption.
    + intros t. cbn [lastWrite]. unfold instructionTile. cbn [rowToSet colToSet newOwner].
      rewrite <- Etile.
      rewrite !shownOwner_empty_move by (rewrite ?Em, Hm; reflexivity).
      unfold getTileOwnerString. rewrite Eb.
      destruct (Tile_eqb tile t) eqn:E.
      * apply Tile_eqb_eq in E. subst t. rewrite setPiece_same. reflexivity.
      * apply Tile_eqb_neq in E. rewrite setPiece_other by congruence. reflexivity.
  - (* a piece is picked up *)
    split; [reflexivity | split; [symmetry; exact Hw | split; [exact Hw | split]]].
    + intros ti [<- | []]. unfold instructionTile. cbn. rewrite <- Etile. assumption.
    + intros t. cbn [lastWrite]. unfold instructionTile. cbn [rowToSet colToSet newOwner].
      rewrite <- Etile. rewrite (shownOwner_empty_move s) by (rewrite Hm; reflexivity).
      unfold shownOwner. cbn [move withMove searchedMove from board].
      destruct (Tile_eqb tile t); reflexivity.
  - (* the piece is put back *)
    split; [reflexivity | split; [symmetry; exact Hw | split; [exact Hw | split]]].
    + intros ti [<- | []]. unfold instructionTile. cbn. rewrite <- Etile. assumption.
    + intros t. cbn [lastWrite]. unfold instructionTile. cbn [rowToSet colToSet newOwner].
      rewrite <- Etile. rewrite (shownOwner_empty_move (resetMove s)) by reflexivity.
      unfold shownOwner. rewrite Hf. cbn [board resetMove withMove].
      destruct (Tile_eqb tile t) eqn:E; [ | reflexivity].
      apply Tile_eqb_eq in E. subst t. reflexivity.
  - (* a move *)
    destruct (moved_facts v s fromTile tile Hinv Hf Hne Hv)
      as [vd [piece [_ [_ [Hcaps [Hpc [_ [_ [_ [_ [Hnf [Hnt [Hen Eb]]]]]]]]]]]]].
    split; [reflexivity | split; [reflexivity | split; [exact Hw | split]]].
    + intros ti [<- | Hti].
      * unfold instructionTile. cbn. rewrite <- Etile. assumption.
      * rewrite Hcaps in Hti. unfold getCaptureInstructions in Hti.
        apply in_map_iff in Hti. destruct Hti as [c [<- Hc]].
        rewrite instructionTile_capture. apply Hen. assumption.
    + intros t. cbn [lastWrite]. rewrite lastWrite_captures, Hcaps.
      unfold instructionTile. cbn [rowToSet colToSet newOwner]. rewrite <- Etile.
      rewrite (shownOwner_empty_move (resetMove (afterMove fromTile tile s))) by reflexivity.
      unfold getTileOwnerString at 2. rewrite Eb, movedBoard_spec by assumption.
      rewrite (Tile_eqb_sym t tile), (Tile_eqb_sym t fromTile).
      unfold shownOwner. rewrite Hf.
      destruct (includes (captures vd) t) eqn:Ec.
      * apply includes_In in Ec.
        destruct (Tile_eqb tile t) eqn:E1;
          [apply Tile_eqb_eq in E1; subst t; contradiction | ].
        destruct (Tile_eqb fromTile t) eqn:E2; reflexivity.
      * destruct (Tile_eqb tile t) eqn:E1; [reflexivity | ].
        destruct (Tile_eqb fromTile t) eqn:E2; reflexivity.
Qed.

Lemma shows_column u s t :
  shows u s -> In t getTiles -> UI.board u (getColumn t) <> None.
Proof.
  intros [_ [_ Hread]] Hin E. specialize (Hread t). unfold readTile in Hread.
  rewrite E in Hread. apply includes_In in Hin. rewrite Hin in Hread. discriminate.
Qed.

Lemma applied_shows (l : list TileInstruction) u s s' turn' winner' :
  shows u s ->
  (forall ti, In ti l -> In (instructionTile ti) getTiles) ->
  (forall t, In t getTiles ->
             match lastWrite l t with Some o => o | None => shownOwner s t end
             = shownOwner s' t) ->
  turn' = Some (activePlayer s') -> winner' = winner s' ->
  exists u',
    applyTileInstructions l u = Some u'
    /\ shows (UI.mkGameState (UI.board u') turn' winner') s'.
Proof.
  intros Hs Hon Hlast -> ->.
  destruct (applyTileInstructions_spec l u) as [u' [E [_ [_ [_ Hread]]]]].
  { intros i Hi. apply (shows_column u s (instructionTile i) Hs). apply Hon. assumption. }
  exists u'. split; [exact E | ].
  split; [reflexivity | split; [reflexivity | ]].
  intros t.
  change (readTile (UI.mkGameState (UI.board u') (Some (activePlayer s')) (winner s')) t)
    with (readTile u' t).
  rewrite Hread. destruct Hs as [_ [_ Hold]]. rewrite Hold.
  destruct (includes getTiles t) eqn:Et.
  - rewrite <- Hlast by (apply includes_In; assumption).
    destruct (lastWrite l t); reflexivity.
  - rewrite lastWrite_None; [reflexivity | ].
    intros i Hi E'. apply Hon in Hi. rewrite E' in Hi. apply includes_In in Hi. congruence.
Qed.

Lemma onTileClick_shows v row column a :
  GameInv v (game a) -> shows (view a) (game a) ->
  exists a',
    onTileClick v row column a = Some a'
    /\ game a' = snd (playGame v row column (game a))
    /\ shows (view a') (game a').
Proof.
  intros Hinv Hs. unfold onTileClick.
  pose proof (playGame_GameInv v row column (game a) Hinv) as Hinv'.
  rewrite (surjective_pairing (playGame v row column (game a))).
  revert Hinv'.
  generalize (playGame_outcome v row column (game a) Hinv).
  generalize (fst (playGame v row column (game a))) (snd (playGame v row column (game a))).
  intros [i | ] s' Ho Hinv'.
  - destruct (outcome_view v row column (game a) i s' Hinv Ho)
      as [Hp [Hw [Hw0 [Hon Hlast]]]].
    destruct (applied_shows (tileInstructions i) (view a) (game a) s'
                (Some (playing i)) (winner s') Hs Hon (fun t _ => Hlast t))
      as [u' [E Hs']]; [rewrite Hp; reflexivity | reflexivity | ].
    rewrite E.
    assert (Hv : (match instrWinner i with
                  | Some _ => UI.setWinner (Some (playing i)) (UI.setTurn (Some (playing i)) u')
                  | None => UI.setTurn (Some (playing i)) u'
                  end)
                 = UI.mkGameState (UI.board u') (Some (playing i)) (winner s')).
    { destruct (applyTileInstructions_spec (tileInstructions i) (view a))
        as [u2 [E2 [_ [Hwin _]]]].
      { intros ti Hti. apply (shows_column _ _ (instructionTile ti) Hs). apply Hon. assumption. }
      assert (u2 = u') by congruence. subst u2.
      rewrite Hw. destruct (winner s') as [w | ] eqn:Ew.
      - destruct (inv_winner v s' Hinv' w Ew) as [Ha _].
        unfold UI.setWinner, UI.setTurn. cbn [UI.board UI.turn]. congruence.
      - unfold UI.setTurn. rewrite Hwin. destruct Hs as [_ [Hs _]]. rewrite Hs, Hw0.
        reflexivity. }
    eexists. split; [reflexivity | ]. cbn [game view]. rewrite Hv.
    split; [reflexivity | exact Hs'].
  - eexists. split; [reflexivity | ]. cbn [game view].
    split; [reflexivity | ].
    inversion Ho. subst. assumption.
Qed.

Lemma restart_labels s :
  tileInstructions (fst (restartGame s)) = map (labelOf newBoard) getTiles.
Proof. unfold restartGame. cbn [fst tileInstructions]. vm_compute. reflexivity. Qed.

Lemma onRestart_shows a s :
  shows (view a) s ->
  exists a',
    onRestart a = Some a' /\ game a' = initialState /\ shows (view a') initialState.
Proof.
  intros Hs. unfold onRestart.
  rewrite (surjective_pairing (restartGame (game a))).
  rewrite restart_labels. cbn [snd restartGame].
  destruct (applied_shows (map (labelOf newBoard) getTiles)
              (UI.setTurn (Some blue) (UI.setWinner None (view a)))
              (mkGameState (board s) (status s) None (move s) blue) initialState
              (Some blue) None)
    as [u' [E Hs']].
  - destruct Hs as [_ [_ Hread]]. split; [reflexivity | split; [reflexivity | exact Hread]].
  - intros ti Hti. apply in_map_iff in Hti. destruct Hti as [x [<- Hx]].
    rewrite instructionTile_labelOf. assumption.
  - intros t Ht. rewrite lastWrite_labels.
    rewrite (shownOwner_empty_move initialState) by reflexivity.
    apply includes_In in Ht. rewrite Ht. reflexivity.
  - reflexivity.
  - reflexivity.
  - rewrite E. eexists. split; [reflexivity | ]. cbn [game view].
    split; [reflexivity | ].
    destruct (applyTileInstructions_spec (map (labelOf newBoard) getTiles)
                (UI.setTurn (Some blue) (UI.setWinner None (view a))))
      as [u2 [E2 [Ht [Hw _]]]].
    { intros i Hi. apply in_map_iff in Hi. destruct Hi as [x [<- Hx]].
      apply (shows_column (view a) s x Hs Hx). }
    assert (u2 = u') by congruence. subst u2.
    destruct u' as [g tu wi]. cbn in Ht, Hw. subst. exact Hs'.
Qed.

Lemma arrayOf_map {A B : Type} (f : A -> B) (l : list A) (i : Z) :
  arrayOf (map f l) i = option_map f (arrayOf l i).
Proof.
  unfold arrayOf. destruct (i <? 0); [reflexivity | ]. apply nth_error_map.
Qed.

Lemma arrayOf_outside {A : Type} (l : list A) (i : Z) :
  ~ (0 <= i < Z.of_nat (length l)) -> arrayOf l i = None.
Proof.
  intros H. unfold arrayOf. destruct (i <? 0) eqn:E; [reflexivity | ].
  apply Z.ltb_ge in E. apply nth_error_None. lia.
Qed.

Transparent getTiles.

Lemma initializeBoard_shows :
  exists g,
    UI.initializeBoard = Some g
    /\ forall u w t,
         readTile (UI.mkGameState g u w) t
         = if includes getTiles t then Some (getTileOwnerString newBoard t) else None.
Proof.
  unfold UI.initializeBoard. cbv zeta.
  match goal with
  | |- context [UI.assign ?g 0 0 blue_queen] => set (g0 := g)
  end.
  destruct (UI.assign g0 0 0 blue_queen) as [g1 | ] eqn:E1;
    [ | exfalso; unfold UI.assign in E1;
        destruct (g0 0) eqn:X; [discriminate | vm_compute in X; discriminate]].
  destruct (assign_read _ _ _ _ _ E1) as [K1 R1].
  destruct (UI.assign g1 7 7 red_queen) as [g2 | ] eqn:E2;
    [ | exfalso; unfold UI.assign in E2;
        destruct (g1 7) eqn:X; [discriminate | ];
        apply (K1 7); [vm_compute; discriminate | assumption]].
  destruct (assign_read _ _ _ _ _ E2) as [K2 R2].
  exists g2. split; [reflexivity | ].
  intros u w t. rewrite R2, R1.
  destruct (includes getTiles t) eqn:Et.
  - apply includes_In in Et. unfold getTiles in Et. simpl in Et.
    repeat (destruct Et as [Et | Et]; [subst t; vm_compute; reflexivity | ]).
    contradiction.
  - apply includes_not_In in Et.
    assert (Hout : ~ onBoard t) by (intros H; apply Et; apply getTiles_onBoard; assumption).
    unfold onBoard in Hout.
    destruct t as [r c]. cbn [getRow getColumn] in Hout.
    unfold Tile_eqb. cbn [getRow getColumn].
    destruct (7 =? r) eqn:A1; destruct (7 =? c) eqn:A2;
      try (apply Z.eqb_eq in A1); try (apply Z.eqb_eq in A2); try lia;
      cbn [andb];
      (destruct (0 =? r) eqn:A3; destruct (0 =? c) eqn:A4;
       try (apply Z.eqb_eq in A3); try (apply Z.eqb_eq in A4); try lia;
       cbn [andb]);
      unfold readTile, g0; cbn [UI.board getRow getColumn];
      rewrite arrayOf_map;
      (destruct (arrayOf (map Z.of_nat (seq 0 8)) c) as [i | ] eqn:Ec;
       cbn [option_map]; [ | reflexivity]);
      (rewrite (arrayOf_outside (map Z.of_nat (seq 0 8)) r); [reflexivity | ]);
      try (cbn [length map seq]; lia);
      (assert (Hc : 0 <= c < 8);
       [ destruct (Z_lt_dec c 0); [rewrite arrayOf_outside in Ec by (cbn; lia); discriminate | ];
         destruct (Z_le_dec 8 c); [rewrite arrayOf_outside in Ec by (cbn; lia); discriminate | ];
         lia
       | cbn [length map seq]; lia ]).
Qed.

Opaque getTiles.


Lemma startApp_shows :
  exists a, startApp = Some a /\ game a = initialState /\ shows (view a) initialState.
Proof.
  unfold startApp, UI.initialize.
  destruct initializeBoard_shows as [g [-> Hread]].
  eexists. split; [reflexivity | ]. split; [reflexivity | ].
  cbn [view]. unfold UI.setTurn. cbn [UI.board UI.turn UI.winner].
  split; [reflexivity | split; [reflexivity | ]].
  intros t. rewrite Hread, (shownOwner_empty_move initialState) by reflexivity. reflexivity.
Qed.

Lemma appReachable_shows v a :
  appReachable v a -> reachable v (game a) /\ shows (view a) (game a).
Proof.
  induction 1 as [a H | a row column a' H [IH1 IH2] E | a a' H [IH1 IH2] E].
  - destruct startApp_shows as [a0 [E0 [Eg Hs]]].
    assert (a0 = a) by congruence. subst a0. rewrite Eg.
    split; [apply reach_init | exact Hs].
  - destruct (onTileClick_shows v row column a (reachable_GameInv v _ IH1) IH2)
      as [a0 [E0 [Eg Hs]]].
    assert (a0 = a') by congruence. subst a0. rewrite Eg at 1.
    split; [apply reach_click; assumption | exact Hs].
  - destruct (onRestart_shows a (game a) IH2) as [a0 [E0 [Eg Hs]]].
    assert (a0 = a') by congruence. subst a0. rewrite Eg.
    split; [apply reach_init | exact Hs].
Qed.

Lemma appClicks_reachable v l :
  forall a a', appReachable v a -> appClicks v l a = Some a' -> appReachable v a'.
Proof.
  unfold appClicks. induction l as [ | rc l IH]; intros a a' Ha E; cbn [forEach] in E.
  - congruence.
  - destruct (onTileClick v (fst rc) (snd rc) a) as [a1 | ] eqn:E1; [ | discriminate].
    apply (IH a1 a'); [ | exact E].
    apply (app_click v a (fst rc) (snd rc) a1); assumption.
Qed.

(** X18: the view follows the game.  After loading and after every click
    and restart, the store of the view holds the active player as turn, the
    winner of the game as winner, and for every tile of the board the label
    of its piece, or ["none"] for the piece that is picked up; it has no
    entry outside the 8x8 board. *)
Theorem app_view_shows_game (v : Variant) (a : App) :
  appReachable v a ->
  reachable v (game a)
  /\ UI.turn (view a) = Some (activePlayer (game a))
  /\ UI.winner (view a) = winner (game a)
  /\ forall t, readTile (view a) t
               = if includes getTiles t then Some (shownOwner (game a) t) else None.
Proof.
  intros H. destruct (appReachable_shows v a H) as [Hr Hs]. split; [exact Hr | exact Hs].
Qed.

Lemma app_view_shows_game_witness :
  reachable BonusGame (game playedApp)
  /\ UI.turn (view playedApp) = Some (activePlayer (game playedApp))
  /\ UI.winner (view playedApp) = winner (game playedApp)
  /\ forall t, readTile (view playedApp) t
               = if includes getTiles t then Some (shownOwner (game playedApp) t) else None.
Proof.
  apply (app_view_shows_game BonusGame playedApp).
  apply (appClicks_reachable BonusGame diamondGame startedApp).
  - apply app_start. vm_compute. reflexivity.
  - vm_compute. reflexivity.
Defined.

(** X19: the handlers raise no exception: loading the module succeeds, and
    in every state of the application a click on any coordinates and a
    restart succeed, leaving the game in the state [playGame] and
    [restartGame] return. *)
Theorem app_handlers_succeed (v : Variant) (a : App) :
  appReachable v a ->
  (exists a0, startApp = Some a0 /\ game a0 = initialState)
  /\ (forall row column,
        exists a', onTileClick v row column a = Some a'
                   /\ game a' = snd (playGame v row column (game a)))
  /\ exists a', onRestart a = Some a' /\ game a' = snd (restartGame (game a)).
Proof.
  intros H. destruct (appReachable_shows v a H) as [Hr Hs].
  split; [ | split].
  - destruct startApp_shows as [a0 [E0 [Eg _]]]. exists a0. split; assumption.
  - intros row column.
    destruct (onTileClick_shows v row column a (reachable_GameInv v _ Hr) Hs)
      as [a' [E [Eg _]]].
    exists a'. split; assumption.
  - destruct (onRestart_shows a (game a) Hs) as [a' [E [Eg _]]].
    exists a'. split; assumption.
Qed.

Lemma app_handlers_succeed_witness :
  (exists a0, startApp = Some a0 /\ game a0 = initialState)
  /\ (forall row column,
        exists a', onTileClick BonusGame row column playedApp = Some a'
                   /\ game a' = snd (playGame BonusGame row column (game playedApp)))
  /\ exists a', onRestart playedApp = Some a'
                /\ game a' = snd (restartGame (game playedApp)).
Proof.
  apply (app_handlers_succeed BonusGame playedApp).
  apply (appClicks_reachable BonusGame diamondGame startedApp).
  - apply app_start. vm_compute. reflexivity.
  - vm_compute. reflexivity.
Defined.

(** * What the search finds: steps and single jumps *)

(** One level of the search. *)
Lemma setPathsDFS_unfold fuel b startingTile from piece path paths :
  setPathsDFS (S fuel) b startingTile from piece path paths
  = match
      (if isFirstMove (path ++ [from]) then
         forEach (getAdjacentLandings b startingTile from piece None None)
                 (fun landing ps =>
                    setPathsDFS fuel b startingTile landing piece (path ++ [from]) ps)
                 paths
       else Some paths)
    with
    | None => None
    | Some paths1 =>
        match
          (if isPotentialCapture b from (path ++ [from]) then
             forEach (getAdjacentLandings b startingTile from piece
                        (lastStep getColumn (path ++ [from]))
                        (lastStep getRow (path ++ [from])))
                     (fun landing ps =>
                        if negb (includes (path ++ [from]) landing) then
                          setPathsDFS fuel b startingTile landing piece (path ++ [from]) ps
                        else if Tile_eqb landing startingTile
                                && (2 <? length (path ++ [from]))%nat then
                          Some (ps ++ [(path ++ [from]) ++ [landing]])
                        else Some ps)
                     paths1
           else Some paths1)
        with
        | None => None
        | Some paths2 =>
            match
              (if canLookForEnemies b from startingTile (path ++ [from]) then
                 forEach (getAdjacentEnemies b from piece)
                         (fun enemy ps =>
                            if negb (includes (path ++ [from]) enemy) then
                              setPathsDFS fuel b startingTile enemy piece (path ++ [from]) ps
                            else Some ps)
                         paths2
               else Some paths2)
            with
            | None => None
            | Some paths3 =>
                if negb (isTileOcuppied b from) then Some (paths3 ++ [path ++ [from]])
                else Some paths3
            end
        end
    end.
Proof. reflexivity. Qed.


Lemma keeps_refl ps : keeps ps ps.
Proof. exists []. rewrite app_nil_r. reflexivity. Qed.

Lemma keeps_trans ps1 ps2 ps3 : keeps ps1 ps2 -> keeps ps2 ps3 -> keeps ps1 ps3.
Proof. intros [a ->] [c ->]. exists (a ++ c). rewrite app_assoc. reflexivity. Qed.

Lemma keeps_In ps out p : keeps ps out -> In p ps -> In p out.
Proof. intros [a ->] H. apply in_or_app. left. assumption. Qed.

Lemma setPathsDFS_keeps fuel b startingTile from piece path paths out :
  setPathsDFS fuel b startingTile from piece path paths = Some out -> keeps paths out.
Proof.
  rewrite setPathsDFS_app.
  destruct (setPathsDFS fuel b startingTile from piece path []) as [a | ]; [ | discriminate].
  intros H. injection H as <-. exists a. reflexivity.
Qed.

Lemma forEach_keeps {A : Type} (l : list A) (f : A -> list (list Tile) -> option (list (list Tile))) :
  (forall x ps ps', In x l -> f x ps = Some ps' -> keeps ps ps') ->
  forall ps out, forEach l f ps = Some out -> keeps ps out.
Proof.
  induction l as [ | x l IH]; intros H ps out E; cbn [forEach] in E.
  - injection E as <-. apply keeps_refl.
  - destruct (f x ps) as [ps' | ] eqn:Ex; [ | discriminate].
    apply keeps_trans with ps'.
    + apply (H x); [left; reflexivity | assumption].
    + apply IH; [ | assumption]. intros y qs qs' Hy. apply H. right. assumption.
Qed.

(** In a run of [forEach] that succeeds every element is processed, and what
    it leaves is kept to the end. *)
Lemma forEach_each {A : Type} (l : list A) (f : A -> list (list Tile) -> option (list (list Tile))) :
  (forall x ps ps', In x l -> f x ps = Some ps' -> keeps ps ps') ->
  forall ps out x,
    forEach l f ps = Some out -> In x l ->
    exists ps1 ps2, f x ps1 = Some ps2 /\ keeps ps2 out.
Proof.
  induction l as [ | y l IH]; intros H ps out x E Hx; [contradiction | ].
  cbn [forEach] in E. destruct (f y ps) as [ps' | ] eqn:Ey; [ | discriminate].
  assert (H' : forall z qs qs', In z l -> f z qs = Some qs' -> keeps qs qs')
    by (intros z qs qs' Hz; apply H; right; assumption).
  destruct Hx as [-> | Hx].
  - exists ps, ps'. split; [assumption | ]. apply (forEach_keeps l f H' _ _ E).
  - apply (IH H' ps' out x E Hx).
Qed.

Lemma in_filterDirection_intro sel c directions d :
  In d directions -> (forall x, c = Some x -> sel d = x) ->
  In d (filterDirection sel c directions).
Proof.
  intros Hd Hc. unfold filterDirection. destruct c as [x | ]; [ | assumption].
  apply filter_In. split; [assumption | ]. apply Z.eqb_eq. apply Hc. reflexivity.
Qed.

Lemma getTile_stepFrom d tile :
  In (stepFrom d tile) getTiles ->
  getTile (getRow tile + snd d) (getColumn tile + fst d) = Some (stepFrom d tile).
Proof.
  intros H. apply getTile_Some. split; [reflexivity | ].
  apply getTiles_onBoard. assumption.
Qed.

Lemma in_getAdjacentLandings_intro b startingTile tile piece cx cy d :
  In d (getDirections piece) ->
  (forall x, cx = Some x -> fst d = x) -> (forall y, cy = Some y -> snd d = y) ->
  In (stepFrom d tile) getTiles -> isTileOcuppied b (stepFrom d tile) = false ->
  In (stepFrom d tile) (getAdjacentLandings b startingTile tile piece cx cy).
Proof.
  intros Hd Hx Hy Hin Hocc. unfold getAdjacentLandings. cbv zeta.
  apply in_flat_map. exists d. split.
  - apply in_filterDirection_intro; [ | assumption].
    apply in_filterDirection_intro; assumption.
  - rewrite (getTile_stepFrom d tile Hin), Hocc. cbn [negb]. left. reflexivity.
Qed.

Lemma in_getAdjacentEnemies_intro b tile piece d :
  In d (getDirections piece) ->
  In (stepFrom d tile) getTiles ->
  isEnemyOf b (getOwner piece) (stepFrom d tile) = true ->
  In (stepFrom d tile) (getAdjacentEnemies b tile piece).
Proof.
  intros Hd Hin Hen. unfold getAdjacentEnemies. cbv zeta.
  apply in_flat_map. exists d. split; [assumption | ].
  rewrite (getTile_stepFrom d tile Hin). unfold isEnemyOf in Hen. rewrite Hen.
  left. reflexivity.
Qed.

Lemma boardFuel_three : boardFuel = S (S (S 61)).
Proof. vm_compute. reflexivity. Qed.

Lemma enemies_keeps fuel b startingTile from piece p paths out :
  (if canLookForEnemies b from startingTile p
   then forEach (getAdjacentEnemies b from piece)
          (fun enemy ps =>
             if negb (includes p enemy)
             then setPathsDFS fuel b startingTile enemy piece p ps
             else Some ps)
          paths
   else Some paths) = Some out ->
  keeps paths out.
Proof.
  destruct (canLookForEnemies b from startingTile p).
  - apply forEach_keeps. intros x ps ps' _.
    destruct (negb (includes p x)).
    + apply setPathsDFS_keeps.
    + intros H. injection H as <-. apply keeps_refl.
  - intros H. injection H as <-. apply keeps_refl.
Qed.

(** A call of the search on a free tile records the path to it. *)
Lemma setPathsDFS_free_tile fuel b s l piece path ps out :
  path <> [] -> isTileOcuppied b l = false ->
  setPathsDFS (S fuel) b s l piece path ps = Some out ->
  In (path ++ [l]) out.
Proof.
  intros Hne Hfree E. rewrite setPathsDFS_unfold in E.
  assert (Hlen : (2 <= length (path ++ [l]))%nat).
  { rewrite length_app. cbn [length]. destruct path; [congruence | cbn [length]; lia]. }
  revert E Hlen. generalize (path ++ [l]). intros p E Hlen.
  replace (isFirstMove p) with false in E
    by (unfold isFirstMove; symmetry; apply Nat.eqb_neq; lia).
  replace (isPotentialCapture b l p) with false in E
    by (unfold isPotentialCapture; rewrite Hfree; reflexivity).
  match type of E with
  | match ?X with _ => _ end = _ => destruct X as [r3 | ] eqn:E3; [ | discriminate]
  end.
  rewrite Hfree in E. cbn [negb] in E. injection E as <-.
  apply in_or_app. right. left. reflexivity.
Qed.

(** A call of the search on an enemy tile next to the starting tile records
    the jump over it, when the tile behind it is free. *)
Lemma setPathsDFS_enemy_tile fuel b s piece d ps out :
  In d (getDirections piece) ->
  isTileOcuppied b s = true ->
  isTileOcuppied b (stepFrom d s) = true ->
  In (stepFrom d (stepFrom d s)) getTiles ->
  isTileOcuppied b (stepFrom d (stepFrom d s)) = false ->
  setPathsDFS (S (S fuel)) b s (stepFrom d s) piece [s] ps = Some out ->
  In [s; stepFrom d s; stepFrom d (stepFrom d s)] out.
Proof.
  intros Hd Hocc Hocce Hl Hfree E.
  assert (Hes : Tile_eqb (stepFrom d s) s = false).
  { apply Tile_eqb_neq. apply (stepFrom_neq piece). assumption. }
  assert (Hle : Tile_eqb (stepFrom d s) (stepFrom d (stepFrom d s)) = false).
  { apply Tile_eqb_neq. intros X. symmetry in X. revert X. apply (stepFrom_neq piece).
    assumption. }
  assert (Hls : Tile_eqb s (stepFrom d (stepFrom d s)) = false).
  { apply Tile_eqb_neq. intros X. rewrite <- X in Hfree. congruence. }
  rewrite setPathsDFS_unfold in E.
  change ([s] ++ [stepFrom d s]) with [s; stepFrom d s] in E.
  change (isFirstMove [s; stepFrom d s]) with false in E. cbv iota in E.
  replace (isPotentialCapture b (stepFrom d s) [s; stepFrom d s]) with true in E
    by (unfold isPotentialCapture; rewrite Hocce; reflexivity).
  cbv iota in E.
  match type of E with
  | match ?X with _ => _ end = _ => destruct X as [q2 | ] eqn:E2; [ | discriminate]
  end.
  replace (canLookForEnemies b (stepFrom d s) s [s; stepFrom d s]) with false in E
    by (unfold canLookForEnemies; rewrite Hocce, Hes; reflexivity).
  cbv iota in E. rewrite Hocce in E. cbn [negb] in E. injection E as <-.
  destruct (forEach_each
              (getAdjacentLandings b s (stepFrom d s) piece
                 (lastStep getColumn [s; stepFrom d s])
                 (lastStep getRow [s; stepFrom d s]))
              (fun landing ps =>
                 if negb (includes [s; stepFrom d s] landing)
                 then setPathsDFS (S fuel) b s landing piece [s; stepFrom d s] ps
                 else if Tile_eqb landing s && (2 <? length [s; stepFrom d s])%nat
                      then Some (ps ++ [[s; stepFrom d s] ++ [landing]])
                      else Some ps)) with (ps := ps) (out := q2)
                                          (x := stepFrom d (stepFrom d s))
    as [qs1 [qs2 [Ecall Hk2]]].
  - intros x ps0 ps' _. destruct (negb (includes [s; stepFrom d s] x));
      [apply setPathsDFS_keeps | ].
    destruct (Tile_eqb x s && (2 <? length [s; stepFrom d s])%nat);
      intros H; injection H as <-.
    + exists [[s; stepFrom d s] ++ [x]]. reflexivity.
    + apply keeps_refl.
  - exact E2.
  - apply in_getAdjacentLandings_intro; try assumption.
    + intros x H. unfold lastStep, atBack in H. cbn in H. injection H as <-. lia.
    + intros y H. unfold lastStep, atBack in H. cbn in H. injection H as <-. lia.
  - apply (keeps_In qs2 q2); [assumption | ].
    replace (includes [s; stepFrom d s] (stepFrom d (stepFrom d s))) with false in Ecall
      by (unfold includes; cbn [existsb]; rewrite Hls, Hle; reflexivity).
    cbn [negb] in Ecall.
    apply (setPathsDFS_free_tile fuel b s _ piece [s; stepFrom d s] qs1 qs2);
      [discriminate | assumption | assumption].
Qed.

(** The search records every step to a free diagonal neighbour, and every
    jump over an adjacent enemy to the free tile behind it. *)
Lemma setPathsDFS_start_tile fuel b s piece ps out :
  isTileOcuppied b s = true ->
  setPathsDFS (S (S (S fuel))) b s s piece [] ps = Some out ->
  forall d,
    In d (getDirections piece) ->
    In (stepFrom d s) getTiles ->
    (isTileOcuppied b (stepFrom d s) = false -> In [s; stepFrom d s] out)
    /\ (isEnemyOf b (getOwner piece) (stepFrom d s) = true ->
        In (stepFrom d (stepFrom d s)) getTiles ->
        isTileOcuppied b (stepFrom d (stepFrom d s)) = false ->
        In [s; stepFrom d s; stepFrom d (stepFrom d s)] out).
Proof.
  intros Hocc E d Hd He.
  rewrite setPathsDFS_unfold in E.
  change ([] ++ [s]) with [s] in E.
  change (isFirstMove [s]) with true in E. cbv iota in E.
  match type of E with
  | match ?X with _ => _ end = _ => destruct X as [p1 | ] eqn:E1; [ | discriminate]
  end.
  replace (isPotentialCapture b s [s]) with false in E
    by (unfold isPotentialCapture; rewrite Hocc; reflexivity).
  cbv iota in E.
  replace (canLookForEnemies b s s [s]) with true in E
    by (unfold canLookForEnemies; rewrite Tile_eqb_refl, orb_true_r; reflexivity).
  cbv iota in E.
  match type of E with
  | match ?X with _ => _ end = _ => destruct X as [p3 | ] eqn:E3; [ | discriminate]
  end.
  rewrite Hocc in E. cbn [negb] in E. injection E as <-.
  assert (K3 : forall x qs qs',
             In x (getAdjacentEnemies b s piece) ->
             (if negb (includes [s] x)
              then setPathsDFS (S (S fuel)) b s x piece [s] qs
              else Some qs) = Some qs' -> keeps qs qs').
  { intros x qs qs' _. destruct (negb (includes [s] x)); [apply setPathsDFS_keeps | ].
    intros H. injection H as <-. apply keeps_refl. }
  split.
  - intros Hfree.
    apply (keeps_In p1 p3); [apply (forEach_keeps _ _ K3 _ _ E3) | ].
    destruct (forEach_each _ _
                (fun x qs qs' _ => setPathsDFS_keeps (S (S fuel)) b s x piece [s] qs qs')
                ps p1 (stepFrom d s) E1) as [ps1 [ps2 [Ecall Hk]]].
    { apply in_getAdjacentLandings_intro; try assumption; discriminate. }
    apply (keeps_In ps2 p1); [assumption | ].
    apply (setPathsDFS_free_tile (S fuel) b s _ piece [s] ps1 ps2);
      [discriminate | assumption | assumption].
  - intros Hen Hl Hfree.
    assert (Hocce : isTileOcuppied b (stepFrom d s) = true)
      by (unfold isEnemyOf in Hen; apply andb_true_iff in Hen; apply Hen).
    destruct (forEach_each _ _ K3 p1 p3 (stepFrom d s) E3) as [ps1 [ps2 [Ecall Hk]]].
    { apply in_getAdjacentEnemies_intro; assumption. }
    apply (keeps_In ps2 p3); [assumption | ].
    replace (includes [s] (stepFrom d s)) with false in Ecall.
    + cbn [negb] in Ecall.
      apply (setPathsDFS_enemy_tile fuel b s piece d ps1 ps2); assumption.
    + unfold includes. cbn [existsb]. rewrite Tile_eqb_sym.
      replace (Tile_eqb (stepFrom d s) s) with false; [reflexivity | ].
      symmetry. apply Tile_eqb_neq. apply (stepFrom_neq piece). assumption.
Qed.


Lemma searchFrom_finds b s piece d :
  In s getTiles -> getPiece b s = Some piece ->
  In d (getDirections piece) -> In (stepFrom d s) getTiles ->
  (getPiece b (stepFrom d s) = None -> In [s; stepFrom d s] (searchFrom b s))
  /\ (isEnemyOf b (getOwner piece) (stepFrom d s) = true ->
      In (stepFrom d (stepFrom d s)) getTiles ->
      getPiece b (stepFrom d (stepFrom d s)) = None ->
      In [s; stepFrom d s; stepFrom d (stepFrom d s)] (searchFrom b s)).
Proof.
  intros Hin Hpc Hd He.
  destruct (searchFrom_pathShape b s piece Hin Hpc) as [E _].
  rewrite boardFuel_three in E.
  assert (Hocc : isTileOcuppied b s = true) by (unfold isTileOcuppied; rewrite Hpc; reflexivity).
  destruct (setPathsDFS_start_tile 61 b s piece [] _ Hocc E d Hd He) as [H1 H2].
  split.
  - intros Hempty. apply H1. unfold isTileOcuppied. rewrite Hempty. reflexivity.
  - intros Hen Hl Hempty. apply H2; try assumption.
    unfold isTileOcuppied. rewrite Hempty. reflexivity.
Qed.


Lemma pathShape_short_rule b s piece p :
  pathShape b s piece p -> (length p = 2 \/ length p = 3)%nat ->
  exists d, In d (getDirections piece)
            /\ ((p = [s; stepFrom d s] /\ stepTo b s d)
                \/ (p = [s; stepFrom d s; stepFrom d (stepFrom d s)]
                    /\ jumpTo b (getOwner piece) s d)).
Proof.
  intros Hp Hlen. unfold stepTo, jumpTo.
  destruct Hp as [d l Hd Hl He Hb | rest Hj Hne Hnd | rest d e Hj Hne Hd He Hs' Hen Hb Hnd].
  - exists d. split; [assumption | left]. subst l.
    split; [reflexivity | split; [apply getTiles_onBoard; assumption | assumption]].
  - destruct Hj as [x | x d enemy landing rest Hd He Hl Hen Hie Hil Hemp Hj]; [congruence | ].
    exists d. split; [assumption | right].
    destruct rest as [ | r rest]; [ | cbn in Hlen; lia].
    subst landing enemy. split; [reflexivity | ].
    destruct Hemp as [Hemp | [X _]]; [ | discriminate].
    repeat split; try assumption; apply getTiles_onBoard; assumption.
  - exfalso. destruct Hj; [congruence | ].
    rewrite length_cons, length_app in Hlen. cbn in Hlen. lia.
Qed.

Lemma searchFrom_short_sound b tile piece p :
  In tile getTiles -> getPiece b tile = Some piece ->
  In p (searchFrom b tile) -> (length p = 2 \/ length p = 3)%nat ->
  exists d, In d (getDirections piece)
            /\ ((p = [tile; stepFrom d tile] /\ stepTo b tile d)
                \/ (p = [tile; stepFrom d tile; stepFrom d (stepFrom d tile)]
                    /\ jumpTo b (getOwner piece) tile d)).
Proof.
  intros Hin Hpc Hp Hlen.
  destruct (searchFrom_pathShape b tile piece Hin Hpc) as [_ Hs].
  rewrite Forall_forall in Hs.
  apply (pathShape_short_rule b tile piece p (Hs p Hp) Hlen).
Qed.

Lemma searchFrom_short_complete b tile piece d :
  In tile getTiles -> getPiece b tile = Some piece -> In d (getDirections piece) ->
  (stepTo b tile d -> In [tile; stepFrom d tile] (searchFrom b tile))
  /\ (jumpTo b (getOwner piece) tile d ->
      In [tile; stepFrom d tile; stepFrom d (stepFrom d tile)] (searchFrom b tile)).
Proof.
  intros Hin Hpc Hd. split.
  - intros [Hon Hfree].
    apply (searchFrom_finds b tile piece d); try assumption.
    apply getTiles_onBoard. assumption.
  - intros [Hon [Hen [Hon2 Hfree]]].
    apply (searchFrom_finds b tile piece d); try assumption;
      apply getTiles_onBoard; assumption.
Qed.

(** X20: the paths of two and three tiles that the search finds for a piece
    are exactly its steps to a free diagonal neighbour and its jumps over an
    adjacent enemy to the free tile behind it, in the directions of the
    piece. *)
Theorem searchFrom_short_paths (b : Board) (tile : Tile) (piece : Piece) (p : list Tile) :
  In tile getTiles -> getPiece b tile = Some piece ->
  (In p (searchFrom b tile) /\ (length p = 2 \/ length p = 3)%nat
   <-> exists d, In d (getDirections piece)
                 /\ ((p = [tile; stepFrom d tile] /\ stepTo b tile d)
                     \/ (p = [tile; stepFrom d tile; stepFrom d (stepFrom d tile)]
                         /\ jumpTo b (getOwner piece) tile d))).
Proof.
  intros Hin Hpc. split.
  - intros [Hp Hlen]. apply searchFrom_short_sound; assumption.
  - intros [d [Hd [[-> H] | [-> H]]]].
    + split; [ | left; reflexivity].
      apply (proj1 (searchFrom_short_complete b tile piece d Hin Hpc Hd)). assumption.
    + split; [ | right; reflexivity].
      apply (proj2 (searchFrom_short_complete b tile piece d Hin Hpc Hd)). assumption.
Qed.

Lemma searchFrom_short_paths_witness :
  In [mkTile 2 2; mkTile 3 3] (searchFrom newBoard (mkTile 2 2))
  /\ (length [mkTile 2 2; mkTile 3 3] = 2 \/ length [mkTile 2 2; mkTile 3 3] = 3)%nat
  <-> exists d, In d (getDirections (mkPiece blue pawn))
                /\ (([mkTile 2 2; mkTile 3 3] = [mkTile 2 2; stepFrom d (mkTile 2 2)]
                     /\ stepTo newBoard (mkTile 2 2) d)
                    \/ ([mkTile 2 2; mkTile 3 3]
                        = [mkTile 2 2; stepFrom d (mkTile 2 2);
                           stepFrom d (stepFrom d (mkTile 2 2))]
                        /\ jumpTo newBoard (getOwner (mkPiece blue pawn)) (mkTile 2 2) d)).
Proof.
  apply (searchFrom_short_paths newBoard (mkTile 2 2) (mkPiece blue pawn)).
  - apply getTiles_onBoard. unfold onBoard. simpl. lia.
  - vm_compute. reflexivity.
Defined.

(** * The rules of the base game *)

(** X21: in the base game a tile is accepted as source exactly when it
    holds a piece of the player that can step to a free diagonal neighbour
    or jump over an adjacent enemy to the free tile behind it, in one of
    the directions of the piece. *)
Theorem BaseGame_isFromValid_rule (tile : Tile) (player : Player) (s : GameState) :
  In tile getTiles ->
  (fst (isFromValid BaseGame tile player s) = true <->
   exists piece d,
     getPiece (board s) tile = Some piece /\ getOwner piece = player
     /\ In d (getDirections piece)
     /\ (stepTo (board s) tile d \/ jumpTo (board s) player tile d)).
Proof.
  intros Hin. rewrite (BaseGame_isFromValid_paths tile player s Hin). split.
  - intros [Hb [path [Hp Hlen]]].
    destruct (belongs_piece _ _ _ Hb) as [piece [Hpc Ho]].
    destruct (searchFrom_short_sound (board s) tile piece path Hin Hpc Hp Hlen)
      as [d [Hd H]].
    exists piece, d. rewrite <- Ho.
    repeat (split; [assumption | ]). destruct H as [[_ H] | [_ H]]; auto.
  - intros [piece [d [Hpc [Ho [Hd H]]]]]. subst player. split.
    + apply belongs_of_piece. assumption.
    + destruct H as [H | H].
      * exists [tile; stepFrom d tile]. split; [ | left; reflexivity].
        apply (proj1 (searchFrom_short_complete (board s) tile piece d Hin Hpc Hd)).
        assumption.
      * exists [tile; stepFrom d tile; stepFrom d (stepFrom d tile)].
        split; [ | right; reflexivity].
        apply (proj2 (searchFrom_short_complete (board s) tile piece d Hin Hpc Hd)).
        assumption.
Qed.

Lemma BaseGame_isFromValid_rule_witness :
  fst (isFromValid BaseGame (mkTile 2 2) blue initialState) = true <->
  exists piece d,
    getPiece (board initialState) (mkTile 2 2) = Some piece /\ getOwner piece = blue
    /\ In d (getDirections piece)
    /\ (stepTo (board initialState) (mkTile 2 2) d
        \/ jumpTo (board initialState) blue (mkTile 2 2) d).
Proof.
  apply (BaseGame_isFromValid_rule (mkTile 2 2) blue initialState).
  apply getTiles_onBoard. unfold onBoard. simpl. lia.
Defined.

(** X22: in the base game, once a piece is picked up, the tiles accepted as
    destination are exactly the free diagonal neighbours of the piece and
    the free tiles behind an adjacent enemy, in the directions of the piece;
    a capture is never forced. *)
Theorem BaseGame_isToValid_rule (s : GameState) (fromTile tile : Tile) (piece : Piece) :
  reachable BaseGame s ->
  from (move s) = Some fromTile ->
  getPiece (board s) fromTile = Some piece ->
  (isToValid s tile = true <->
   exists d, In d (getDirections piece)
             /\ ((tile = stepFrom d fromTile /\ stepTo (board s) fromTile d)
                 \/ (tile = stepFrom d (stepFrom d fromTile)
                     /\ jumpTo (board s) (activePlayer s) fromTile d))).
Proof.
  intros Hreach Hf Hpc.
  pose proof (reachable_GameInv BaseGame s Hreach) as Hinv.
  pose proof (inv_move BaseGame s Hinv) as Hmv. rewrite Hf in Hmv.
  destruct Hmv as [Hin [Hb [_ [_ Hm]]]].
  assert (Ho : getOwner piece = activePlayer s).
  { destruct (belongs_piece _ _ _ Hb) as [q [Hq Ho]]. congruence. }
  assert (Hvds : validDestinations (getCurrentMove s)
                 = destinationsFrom BaseGame (board s) (activePlayer s) fromTile)
    by (unfold getCurrentMove; rewrite Hm; reflexivity).
  unfold isToValid. rewrite Hvds, existsb_exists. split.
  - intros [vd [Hvd Hd]].
    destruct (destination vd) as [t | ] eqn:Edest; [ | discriminate].
    apply Tile_eqb_eq in Hd. subst t.
    destruct (BaseGame_destination_short _ _ _ _ Hvd) as [_ Hlen].
    destruct (destinationsFrom_captures BaseGame _ _ _ vd Hin Hb Hvd)
      as [_ [_ [_ [Hp Hlast]]]].
    destruct (searchFrom_short_sound (board s) fromTile piece _ Hin Hpc Hp Hlen)
      as [d [Hd H]].
    exists d. split; [assumption | ]. rewrite <- Ho.
    rewrite Hlast in Edest.
    destruct H as [[E H] | [E H]]; rewrite E in Edest; unfold atBack in Edest;
      cbn in Edest; injection Edest as <-; [left | right]; split; auto.
  - intros [d [Hd H]]. rewrite <- Ho in H.
    assert (X : exists p, In p (searchFrom (board s) fromTile)
                          /\ (length p = 2 \/ length p = 3)%nat
                          /\ atBack p 1 = Some tile).
    { destruct H as [[-> H] | [-> H]].
      - exists [fromTile; stepFrom d fromTile].
        split; [ | split; [left; reflexivity | reflexivity]].
        apply (proj1 (searchFrom_short_complete (board s) fromTile piece d Hin Hpc Hd)).
        assumption.
      - exists [fromTile; stepFrom d fromTile; stepFrom d (stepFrom d fromTile)].
        split; [ | split; [right; reflexivity | reflexivity]].
        apply (proj2 (searchFrom_short_complete (board s) fromTile piece d Hin Hpc Hd)).
        assumption. }
    destruct X as [p [Hp [Hlen Hlast]]].
    exists (makeValidDestination (board s) (activePlayer s) p). split.
    + unfold destinationsFrom. apply in_map. cbn [validPaths]. apply filter_In.
      split; [assumption | ]. apply orb_true_iff.
      destruct Hlen as [E | E]; [right | left]; apply Nat.eqb_eq; assumption.
    + cbn [destination makeValidDestination]. rewrite Hlast. apply Tile_eqb_refl.
Qed.

Lemma BaseGame_isToValid_rule_witness :
  isToValid jumpState (mkTile 6 6) = true <->
  exists d, In d (getDirections (mkPiece blue queen))
            /\ ((mkTile 6 6 = stepFrom d (mkTile 4 4) /\ stepTo (board jumpState) (mkTile 4 4) d)
                \/ (mkTile 6 6 = stepFrom d (stepFrom d (mkTile 4 4))
                    /\ jumpTo (board jumpState) (activePlayer jumpState) (mkTile 4 4) d)).
Proof.
  apply (BaseGame_isToValid_rule jumpState (mkTile 4 4) (mkTile 6 6) (mkPiece blue queen)).
  - apply clicks_reachable. apply reach_init.
  - vm_compute. reflexivity.
  - vm_compute. reflexivity.
Defined.


(** * The cyclic return *)

(** C8 fails on the code at the cyclic return.  [setPathsDFS] records the
    path that brings a piece back to its starting tile ("let a piece land on
    its initial tile after a cycle"), and [setValidDestinations] makes it a
    valid destination; but [playGame] tests [isToTheSameAsFrom] before
    [isToValid], so the click on it puts the piece back.  In [cycleState],
    reached by the clicks of [cycleGame] in the forced-capture game, (3,3)
    is a valid destination of the blue queen picked up on (3,3); the click
    on (3,3) leaves no queen on its winning row and red has pieces, yet the
    active player stays blue, and the four pawns of the path are still on
    the board. *)
Theorem playGame_cyclic_return_keeps_turn :
  reachable BonusGame cycleState
  /\ from (move cycleState) = Some (mkTile 3 3)
  /\ getTile 3 3 = Some (mkTile 3 3)
  /\ In cyclicDestination (validDestinations (move cycleState))
  /\ isToValid cycleState (mkTile 3 3) = true
  /\ playGame BonusGame 3 3 cycleState
     = (Some (mkInstruction [mkTileInstruction 3 3 blue_queen] blue None),
        resetMove cycleState)
  /\ ~ queenOnWinningRow (board (snd (playGame BonusGame 3 3 cycleState)))
                         (activePlayer cycleState)
  /\ rivalOnBoard (board (snd (playGame BonusGame 3 3 cycleState)))
                  (activePlayer cycleState)
  /\ activePlayer (snd (playGame BonusGame 3 3 cycleState)) = activePlayer cycleState
  /\ activePlayer (snd (playGame BonusGame 3 3 cycleState))
     <> rival (activePlayer cycleState)
  /\ Forall (fun c => getPiece (board (snd (playGame BonusGame 3 3 cycleState))) c
                      = Some (mkPiece red pawn))
            (captures cyclicDestination).
Proof.
  assert (Hreach : reachable BonusGame cycleState)
    by (apply clicks_reachable; apply reach_init).
  assert (Hinv : GameInv BonusGame (snd (playGame BonusGame 3 3 cycleState)))
    by (apply reachable_GameInv; apply reach_click; exact Hreach).
  assert (Hw : winner (snd (playGame BonusGame 3 3 cycleState)) = None)
    by (vm_compute; reflexivity).
  split; [exact Hreach | ].
  split; [vm_compute; reflexivity | ].
  split; [vm_compute; reflexivity | ].
  split; [vm_compute; left; reflexivity | ].
  split; [vm_compute; reflexivity | ].
  split; [vm_compute; reflexivity | ].
  split; [ | split; [ | split; [ | split]]].
  - intros [t [Hin [Hq Hrow]]].
    apply (inv_rank BonusGame _ Hinv Hw (activePlayer cycleState) t Hin Hq).
    exact Hrow.
  - exists (mkTile 4 4). split; [ | vm_compute; reflexivity].
    apply getTiles_onBoard. unfold onBoard. simpl. lia.
  - vm_compute. reflexivity.
  - vm_compute. discriminate.
  - repeat (apply Forall_cons; [vm_compute; reflexivity | ]). apply Forall_nil.
Qed.
